(** * Franka logic expressions: strict interpreter, coverage evaluator, display tree

    A shallow embedding of
    - [FrankaInterpreter] (the strict evaluator: [evaluate], [executeLet],
      [executeConcat], ...),
    - [CoverageTracker], [generatePathId] and the coverage-recording
      [tryEvaluate] of [treeUtils.ts],
    - [buildLogicTree] of [treeUtils.ts],
    followed by the properties of the specification that concern them.

    JavaScript values are modelled by [jsval].  Arrays and objects carry the
    identity of the heap object they denote, because [===] compares objects by
    identity; an evaluator takes a fresh identity for every array it returns.
    Numbers are the integers a double holds exactly and [String] prints in
    full (up to 2^53 in magnitude), NaN and the two infinities; strings are
    sequences of code units below 256, and the case mappings are those of
    the ASCII letters.  The fields of a mapping are listed in the order
    [Object.keys] enumerates them, and a key occurs once.

    [this.variables] of the interpreter is a plain object used as a map.  It
    is modelled by its own properties, with [Object.prototype] as its
    prototype: an evaluation that reads a member inherited from
    [Object.prototype] (a built-in function, or the prototype itself through
    [__proto__]), or that replaces the prototype through the [__proto__]
    setter, leaves what the embedding describes and ends in [Halt].  The
    context of the diagnostic evaluator is modelled by its own properties
    as well; there the properties that depend on the difference say so.

    The depth of the call stack is bounded by a [fuel] argument; a bound
    above the depth of the expression is never reached. *)

From Stdlib Require Import String Ascii List ZArith Bool Lia.
From Stdlib Require OrderedTypeEx.
From stdpp Require Import gmap strings pretty sorting.

Local Set Warnings "-register-all".
Local Open Scope list_scope.
Local Open Scope string_scope.

(** ** JavaScript values *)

Inductive number : Type :=
| NInt (z : Z)
| NNaN
| NInf (negative : bool).

(** Identity of a heap-allocated array or object. *)
Definition ref := nat.

Inductive jsval : Type :=
| JNull
| JUndefined
| JBool (b : bool)
| JNum (n : number)
| JStr (s : string)
| JArr (r : ref) (items : list jsval)
| JObj (r : ref) (fields : list (string * jsval)).

(** Nesting depth of a value: the recursion depth the evaluators need. *)
Fixpoint depth (v : jsval) : nat :=
  match v with
  | JArr _ items => S (list_max (List.map depth items))
  | JObj _ fields => S (list_max (List.map (fun kv => depth (snd kv)) fields))
  | _ => 0
  end.

Module JS.

(** The double-quote and the backslash, as one-character strings. *)
Definition dq : string := String "034"%char EmptyString.
Definition bs : string := String "092"%char EmptyString.

(** [Number.prototype.toString], for the integers printed in full. *)
Definition number_to_string (n : number) : string :=
  match n with
  | NInt z => pretty z
  | NNaN => "NaN"
  | NInf false => "Infinity"
  | NInf true => "-Infinity"
  end.

(** [===] on numbers: NaN differs from everything, itself included. *)
Definition number_eqb (a b : number) : bool :=
  match a, b with
  | NInt x, NInt y => Z.eqb x y
  | NInf x, NInf y => Bool.eqb x y
  | _, _ => false
  end.

(** [String(v)].  The elements of an array are joined with commas, null
    and undefined elements contributing nothing. *)
Fixpoint to_string (v : jsval) : string :=
  match v with
  | JNull => "null"
  | JUndefined => "undefined"
  | JBool true => "true"
  | JBool false => "false"
  | JNum n => number_to_string n
  | JStr s => s
  | JArr _ items =>
      String.concat ","
        (List.map (fun x => match x with
                            | JNull | JUndefined => EmptyString
                            | _ => to_string x
                            end) items)
  | JObj _ _ => "[object Object]"
  end.

(** The string an element contributes to [Array.prototype.join]. *)
Definition join_elem (x : jsval) : string :=
  match x with
  | JNull | JUndefined => EmptyString
  | _ => to_string x
  end.

(** [items.join(sep)] *)
Definition join (sep : string) (items : list jsval) : string :=
  String.concat sep (List.map join_elem items).

(** [Boolean(v)] *)
Definition truthy (v : jsval) : bool :=
  match v with
  | JNull | JUndefined => false
  | JBool b => b
  | JNum (NInt z) => negb (Z.eqb z 0)
  | JNum NNaN => false
  | JNum (NInf _) => true
  | JStr s => negb (String.eqb s EmptyString)
  | JArr _ _ | JObj _ _ => true
  end.

(** [typeof v === 'object'], true of null as well. *)
Definition typeof_object (v : jsval) : bool :=
  match v with
  | JNull | JArr _ _ | JObj _ _ => true
  | _ => false
  end.

Definition typeof_string (v : jsval) : bool :=
  match v with JStr _ => true | _ => false end.

(** [v === null] *)
Definition is_null (v : jsval) : bool :=
  match v with JNull => true | _ => false end.

(** [v === undefined] *)
Definition is_undefined (v : jsval) : bool :=
  match v with JUndefined => true | _ => false end.

(** [Array.isArray(v)] *)
Definition isArray (v : jsval) : bool :=
  match v with JArr _ _ => true | _ => false end.

(** [a === b]: primitives by type and content, arrays and objects by
    identity. *)
Definition strict_equals (a b : jsval) : bool :=
  match a, b with
  | JNull, JNull => true
  | JUndefined, JUndefined => true
  | JBool x, JBool y => Bool.eqb x y
  | JNum x, JNum y => number_eqb x y
  | JStr x, JStr y => String.eqb x y
  | JArr r1 _, JArr r2 _ => Nat.eqb r1 r2
  | JObj r1 _, JObj r2 _ => Nat.eqb r1 r2
  | _, _ => false
  end.

(** Own property lookup in a field list. *)
Fixpoint lookup_field (k : string) (fields : list (string * jsval)) : option jsval :=
  match fields with
  | [] => None
  | (k', v) :: rest => if String.eqb k' k then Some v else lookup_field k rest
  end.

(** [k in o] for an array or an object [o].  It is only used with names
    that no array has. *)
Definition has_prop (k : string) (o : jsval) : bool :=
  match o with
  | JObj _ fields => match lookup_field k fields with Some _ => true | None => false end
  | _ => false
  end.

(** [o.k] for a non-null [o]; undefined when the property is missing. *)
Definition get_prop (k : string) (o : jsval) : jsval :=
  match o with
  | JObj _ fields => match lookup_field k fields with Some v => v | None => JUndefined end
  | _ => JUndefined
  end.

(** The elements of an array. *)
Definition items_of (v : jsval) : list jsval :=
  match v with JArr _ items => items | _ => [] end.

(** [Object.keys(o)] of a plain object. *)
Definition keys (fields : list (string * jsval)) : list string := List.map fst fields.

(** [keys.includes(k)] *)
Definition includes (k : string) (ks : list string) : bool :=
  existsb (String.eqb k) ks.

(** Pairs an array's elements with their indices, as the callback of [map]
    receives them. *)
Fixpoint indexed_from {A : Type} (i : nat) (l : list A) : list (nat * A) :=
  match l with
  | [] => []
  | x :: rest => (i, x) :: indexed_from (S i) rest
  end.

Definition indexed {A : Type} (l : list A) : list (nat * A) := indexed_from 0 l.

(** [Object.entries(o)] of an array or object. *)
Definition entries (o : jsval) : list (string * jsval) :=
  match o with
  | JObj _ fields => fields
  | JArr _ items => List.map (fun ix => (pretty (fst ix), snd ix)) (indexed items)
  | _ => []
  end.

(** [s.startsWith('$')] *)
Definition starts_with_dollar (s : string) : bool :=
  match s with
  | String c _ => Ascii.eqb c "$"%char
  | EmptyString => false
  end.

(** [s.substring(1)] *)
Definition drop_first (s : string) : string :=
  match s with
  | String _ rest => rest
  | EmptyString => EmptyString
  end.

(** The case mapping of the ASCII letters, for [toUpperCase] and
    [toLowerCase]: what the code does on strings of ASCII characters. *)
Definition upper_char (c : ascii) : ascii :=
  let n := nat_of_ascii c in
  if (97 <=? n)%nat && (n <=? 122)%nat then ascii_of_nat (n - 32) else c.

Definition lower_char (c : ascii) : ascii :=
  let n := nat_of_ascii c in
  if (65 <=? n)%nat && (n <=? 90)%nat then ascii_of_nat (n + 32) else c.

Fixpoint map_chars (f : ascii -> ascii) (s : string) : string :=
  match s with
  | EmptyString => EmptyString
  | String c rest => String (f c) (map_chars f rest)
  end.

Definition toUpperCase (s : string) : string := map_chars upper_char s.
Definition toLowerCase (s : string) : string := map_chars lower_char s.

(** Decimal digits of a string, most significant first. *)
Fixpoint digits_value (acc : Z) (s : string) : option Z :=
  match s with
  | EmptyString => Some acc
  | String c rest =>
      let n := nat_of_ascii c in
      if (48 <=? n)%nat && (n <=? 57)%nat
      then digits_value (10 * acc + Z.of_nat (n - 48)) rest
      else None
  end.

(** [Number(s)] for the strings [reads_number] accepts: the empty string
    is 0, there are the signed decimal integers and the infinities, and a
    string with a character that no numeric literal has is NaN. *)
Definition string_to_number (s : string) : number :=
  match s with
  | EmptyString => NInt 0
  | String c rest =>
      if String.eqb s "Infinity" || String.eqb s "+Infinity" then NInf false
      else if String.eqb s "-Infinity" then NInf true
      else if Ascii.eqb c "-"%char then
        match rest with
        | EmptyString => NNaN
        | _ => match digits_value 0 rest with Some z => NInt (- z) | None => NNaN end
        end
      else if Ascii.eqb c "+"%char then
        match rest with
        | EmptyString => NNaN
        | _ => match digits_value 0 rest with Some z => NInt z | None => NNaN end
        end
      else match digits_value 0 s with Some z => NInt z | None => NNaN end
  end.

(** The characters of the numeric literals [Number] reads, white space
    included: digits, signs, the point, the hexadecimal digits with [e] and
    [b], the radix letters [x] and [o], the letters of [Infinity]. *)
Definition numeric_char (c : ascii) : bool :=
  let n := nat_of_ascii c in
  ((48 <=? n)%nat && (n <=? 57)%nat)
  || (n =? 43)%nat || (n =? 45)%nat || (n =? 46)%nat
  || ((65 <=? n)%nat && (n <=? 70)%nat) || ((97 <=? n)%nat && (n <=? 102)%nat)
  || (n =? 120)%nat || (n =? 88)%nat || (n =? 111)%nat || (n =? 79)%nat
  || (n =? 73)%nat || (n =? 110)%nat || (n =? 105)%nat || (n =? 116)%nat
  || (n =? 121)%nat
  || ((9 <=? n)%nat && (n <=? 13)%nat) || (n =? 32)%nat || (n =? 160)%nat.

Fixpoint all_chars (p : ascii -> bool) (s : string) : bool :=
  match s with
  | EmptyString => true
  | String c rest => p c && all_chars p rest
  end.

(** An optional sign and one or more digits. *)
Definition decimal_integer (s : string) : bool :=
  match s with
  | EmptyString => false
  | String c rest =>
      if Ascii.eqb c "-"%char || Ascii.eqb c "+"%char then
        negb (String.eqb rest EmptyString)
        && match digits_value 0 rest with Some _ => true | None => false end
      else match digits_value 0 s with Some _ => true | None => false end
  end.

(** The strings whose number the embedding reads.  The other forms
    [Number] accepts (surrounding white space, fractions, exponents, radix
    prefixes) are made of numeric characters only and are not among them. *)
Definition reads_numeric_string (s : string) : bool :=
  String.eqb s EmptyString
  || String.eqb s "Infinity" || String.eqb s "+Infinity" || String.eqb s "-Infinity"
  || decimal_integer s
  || negb (all_chars numeric_char s).

(** The values whose number the embedding reads. *)
Definition reads_number (v : jsval) : bool :=
  match v with
  | JStr s => reads_numeric_string s
  | JArr _ _ => reads_numeric_string (to_string v)
  | _ => true
  end.

(** [Number(v)], for the values [reads_number] accepts. *)
Definition to_number (v : jsval) : number :=
  match v with
  | JUndefined => NNaN
  | JNull => NInt 0
  | JBool true => NInt 1
  | JBool false => NInt 0
  | JNum n => n
  | JStr s => string_to_number s
  | JArr _ _ => string_to_number (to_string v)
  | JObj _ _ => NNaN
  end.

(** An index argument of [substring], clamped into [0, len]. *)
Definition clamp_index (len : nat) (n : number) : nat :=
  match n with
  | NInt z => Z.to_nat (Z.min (Z.max z 0) (Z.of_nat len))
  | NNaN => 0
  | NInf false => len
  | NInf true => 0
  end.

(** [s.substring(start, end)], for indices [reads_number] accepts; an
    undefined [end] means the length. *)
Definition substring (s : string) (start end_ : jsval) : string :=
  let len := String.length s in
  let a := clamp_index len (to_number start) in
  let b := match end_ with
           | JUndefined => len
           | _ => clamp_index len (to_number end_)
           end in
  let from := Nat.min a b in
  let to := Nat.max a b in
  String.substring from (to - from) s.

(** Hexadecimal digit, lower case. *)
Definition hex_digit (n : nat) : ascii :=
  if (n <? 10)%nat then ascii_of_nat (48 + n) else ascii_of_nat (87 + n).

(** The escape of one character inside a JSON string literal. *)
Definition json_escape_char (c : ascii) : string :=
  let n := nat_of_ascii c in
  if (n =? 34)%nat then bs ++ dq
  else if (n =? 92)%nat then bs ++ bs
  else if (n =? 8)%nat then bs ++ "b"
  else if (n =? 9)%nat then bs ++ "t"
  else if (n =? 10)%nat then bs ++ "n"
  else if (n =? 12)%nat then bs ++ "f"
  else if (n =? 13)%nat then bs ++ "r"
  else if (n <? 32)%nat then
    bs ++ "u00" ++ String (hex_digit (n / 16)) (String (hex_digit (n mod 16)) EmptyString)
  else String c EmptyString.

Fixpoint json_escape (s : string) : string :=
  match s with
  | EmptyString => EmptyString
  | String c rest => json_escape_char c ++ json_escape rest
  end.

(** [`${JSON.stringify(v)}`] for a value that is not an array or object. *)
Definition json_stringify (v : jsval) : string :=
  match v with
  | JNull => "null"
  | JUndefined => "undefined"
  | JBool true => "true"
  | JBool false => "false"
  | JNum (NInt z) => pretty z
  | JNum _ => "null"
  | JStr s => dq ++ json_escape s ++ dq
  | JArr _ _ | JObj _ _ => EmptyString
  end.

(** [label || fallback] on strings: the empty string is falsy. *)
Definition or_default (label fallback : string) : string :=
  if String.eqb label EmptyString then fallback else label.

(** The members of [Object.prototype]: the names every plain object has
    without owning them. *)
Definition inherited_names : list string :=
  ["constructor"; "__defineGetter__"; "__defineSetter__"; "hasOwnProperty";
   "__lookupGetter__"; "__lookupSetter__"; "isPrototypeOf"; "propertyIsEnumerable";
   "toString"; "valueOf"; "__proto__"; "toLocaleString"].

(** [name in o] for a plain object [o] that has no own property [name]. *)
Definition inherits (name : string) : bool := includes name inherited_names.

Arguments inherits : simpl never.

(** Strings of ASCII characters. *)
Fixpoint ascii_only (s : string) : bool :=
  match s with
  | EmptyString => true
  | String c rest => (nat_of_ascii c <? 128)%nat && ascii_only rest
  end.

(** [keys.find(p)] *)
Definition find_key (p : string -> bool) (ks : list string) : option string :=
  List.find p ks.

(** [keys.sort()]: insertion sort under the code-unit order. *)
Fixpoint insert_sorted (k : string) (ks : list string) : list string :=
  match ks with
  | [] => [k]
  | k' :: rest => if String.leb k k' then k :: ks else k' :: insert_sorted k rest
  end.

Definition sort (ks : list string) : list string :=
  List.fold_right insert_sorted [] ks.

End JS.

(** ** Computations: state, exceptions, recursion bound *)

Inductive error : Type :=
| Error (message : string)
| TypeError (message : string).

(** Why an evaluation is not followed to its end: the recursion bound was
    reached, or the code does something the embedding does not describe.
    - [Inherited name]: [name] is not an own property of the object that is
      read and [Object.prototype] has a member of that name, which is the
      value the code gets.
    - [PrototypeReplaced]: an assignment to [__proto__] reaches the setter
      of [Object.prototype] with an object or null, which becomes the
      prototype of the object assigned to.
    - [NumericString]: a string is converted to a number and has a form of
      numeric literal the embedding does not read. *)
Inductive halt : Type :=
| OutOfFuel
| Inherited (name : string)
| PrototypeReplaced
| NumericString.

(** The result of running a piece of code: a value, a thrown exception, or
    the evaluation is not followed further. *)
Inductive outcome (A : Type) : Type :=
| Ret (a : A)
| Throw (e : error)
| Halt (h : halt).

Arguments Ret {A} a.
Arguments Throw {A} e.
Arguments Halt {A} h.

Definition M (S A : Type) : Type := S -> outcome A * S.

Definition ret {S A : Type} (a : A) : M S A := fun s => (Ret a, s).

Definition throw {S A : Type} (e : error) : M S A := fun s => (Throw e, s).

Definition out_of_fuel {S A : Type} : M S A := fun s => (Halt OutOfFuel, s).

Definition halts {S A : Type} (h : halt) : M S A := fun s => (Halt h, s).

Definition bind {S A B : Type} (m : M S A) (k : A -> M S B) : M S B :=
  fun s =>
    match m s with
    | (Ret a, s') => k a s'
    | (Throw e, s') => (Throw e, s')
    | (Halt h, s') => (Halt h, s')
    end.

Definition gets {S A : Type} (f : S -> A) : M S A := fun s => (Ret (f s), s).

Definition modify {S : Type} (f : S -> S) : M S unit := fun s => (Ret tt, f s).

(** [try { body } catch (e) { return handler }] *)
Definition try_catch {S A : Type} (body : M S A) (handler : A) : M S A :=
  fun s =>
    match body s with
    | (Throw _, s') => (Ret handler, s')
    | r => r
    end.

Notation "x <- m ;; k" := (bind m (fun x => k))
  (at level 100, m at next level, right associativity).

(** The callback of [Array.prototype.map], run on each element in order. *)
Fixpoint mapM {S A B : Type} (f : A -> M S B) (l : list A) : M S (list B) :=
  match l with
  | [] => ret []
  | x :: rest =>
      y <- f x ;;
      ys <- mapM f rest ;;
      ret (y :: ys)
  end.

(** A loop that updates an accumulator on each element in order. *)
Fixpoint foldM {S A B : Type} (f : B -> A -> M S B) (l : list A) (b : B) : M S B :=
  match l with
  | [] => ret b
  | x :: rest => b' <- f b x ;; foldM f rest b'
  end.

(** A loop body run on each element in order. *)
Fixpoint forM {S A : Type} (f : A -> M S unit) (l : list A) : M S unit :=
  match l with
  | [] => ret tt
  | x :: rest => _ <- f x ;; forM f rest
  end.

(** ** The strict evaluator: [FrankaInterpreter] *)

(** The interpreter object: its [variables] field, and the identity the next
    array it creates will get. *)
Record interp : Type := MkInterp {
  variables : gmap string jsval;
  next_ref : nat
}.

Module Strict.

Definition fresh : M interp ref :=
  fun s => (Ret (next_ref s), MkInterp (variables s) (S (next_ref s))).

(** [this.variables[key] = v].  The assignment makes or updates an own
    property, except for [__proto__] when it is not an own property: that
    assignment goes to the setter [Object.prototype] has for it, which
    ignores a value that is neither an object nor null, and makes any other
    value the prototype of [this.variables]. *)
Definition set_variable (key : string) (v : jsval) : M interp unit :=
  vars <- gets variables ;;
  match vars !! key with
  | None =>
      if String.eqb key "__proto__" then
        if JS.typeof_object v then halts PrototypeReplaced else ret tt
      else modify (fun s => MkInterp (<[key := v]> (variables s)) (next_ref s))
  | Some _ => modify (fun s => MkInterp (<[key := v]> (variables s)) (next_ref s))
  end.

(** Deleting every own key of [this.variables] and assigning the saved
    bindings back with [Object.assign].  Each saved binding becomes an own
    property again, except one named [__proto__]: it is assigned when the
    object has no such own property any more, so it goes to the setter as
    in [set_variable]. *)
Definition restore (savedVariables : gmap string jsval) : M interp unit :=
  match savedVariables !! "__proto__" with
  | None => modify (fun s => MkInterp savedVariables (next_ref s))
  | Some v =>
      if JS.typeof_object v then halts PrototypeReplaced
      else modify (fun s => MkInterp (delete "__proto__" savedVariables) (next_ref s))
  end.

(** [values.map(f)] where [values] may be any value: only arrays have
    [map].  The messages are those of V8. *)
Definition map_values (f : jsval -> M interp jsval) (values : jsval)
  : M interp (list jsval) :=
  match values with
  | JArr _ items => mapM f items
  | JNull => throw (TypeError "Cannot read properties of null (reading 'map')")
  | JUndefined =>
      throw (TypeError "Cannot read properties of undefined (reading 'map')")
  | _ => throw (TypeError "values.map is not a function")
  end.

Section Operations.

(** [this.evaluate], the recursive call. *)
Variable evaluate : jsval -> M interp jsval.

Definition bind_entry (entry : string * jsval) : M interp unit :=
  let (key, value) := entry in
  if negb (String.eqb key "in")
  then v <- evaluate value ;; set_variable key v
  else ret tt.

Definition executeLet (args : jsval) : M interp jsval :=
  if negb (JS.truthy args) || negb (JS.typeof_object args) then
    throw (Error ("let operation requires bindings and an " ++ JS.dq ++ "in"
                    ++ JS.dq ++ " expression"))
  else
    savedVariables <- gets variables ;;
    let inExpression := JS.get_prop "in" args in
    if negb (JS.truthy inExpression) then
      throw (Error ("let operation requires an " ++ JS.dq ++ "in" ++ JS.dq
                      ++ " expression"))
    else
      _ <- forM bind_entry (JS.entries args) ;;
      result <- evaluate inExpression ;;
      _ <- restore savedVariables ;;
      ret result.

Definition extractValue (args : jsval) : M interp jsval :=
  if JS.typeof_object args && negb (JS.is_null args) && negb (JS.isArray args)
     && JS.has_prop "value" args
  then evaluate (JS.get_prop "value" args)
  else evaluate args.

(** The shape test shared by [executeConcat], [executeAnd] and
    [executeOr]: the array itself, or the [values] property. *)
Definition values_of (operation : string) (args : jsval) : M interp jsval :=
  if JS.isArray args then ret args
  else if JS.truthy args && JS.typeof_object args && JS.has_prop "values" args
  then ret (JS.get_prop "values" args)
  else throw (Error (operation ++ " operation requires an array or an object with "
                       ++ JS.dq ++ "values" ++ JS.dq ++ " property")).

Definition executeConcat (args : jsval) : M interp jsval :=
  values <- values_of "concat" args ;;
  vs <- map_values evaluate values ;;
  ret (JStr (JS.join EmptyString vs)).

Definition executeUppercase (args : jsval) : M interp jsval :=
  value <- extractValue args ;;
  ret (JStr (JS.toUpperCase (JS.to_string value))).

Definition executeLowercase (args : jsval) : M interp jsval :=
  value <- extractValue args ;;
  ret (JStr (JS.toLowerCase (JS.to_string value))).

Definition executeLength (args : jsval) : M interp jsval :=
  value <- extractValue args ;;
  ret (JNum (NInt (Z.of_nat (String.length (JS.to_string value))))).

Definition executeSubstring (args : jsval) : M interp jsval :=
  if negb (JS.truthy args) || negb (JS.typeof_object args)
     || negb (JS.has_prop "value" args) || negb (JS.has_prop "start" args)
  then
    throw (Error ("substring operation requires " ++ JS.dq ++ "value" ++ JS.dq
                    ++ " and " ++ JS.dq ++ "start" ++ JS.dq ++ " properties"))
  else
    value <- evaluate (JS.get_prop "value" args) ;;
    start <- evaluate (JS.get_prop "start" args) ;;
    end_ <- (if JS.is_undefined (JS.get_prop "end" args)
             then ret JUndefined
             else evaluate (JS.get_prop "end" args)) ;;
    if JS.reads_number start && JS.reads_number end_
    then ret (JStr (JS.substring (JS.to_string value) start end_))
    else halts NumericString.

Definition executeAnd (args : jsval) : M interp jsval :=
  values <- values_of "and" args ;;
  vs <- map_values evaluate values ;;
  ret (JBool (forallb JS.truthy vs)).

Definition executeOr (args : jsval) : M interp jsval :=
  values <- values_of "or" args ;;
  vs <- map_values evaluate values ;;
  ret (JBool (existsb JS.truthy vs)).

Definition executeNot (args : jsval) : M interp jsval :=
  value <- extractValue args ;;
  ret (JBool (negb (JS.truthy value))).

Definition executeEquals (args : jsval) : M interp jsval :=
  if negb (JS.truthy args) || negb (JS.typeof_object args)
     || negb (JS.has_prop "left" args) || negb (JS.has_prop "right" args)
  then
    throw (Error ("equals operation requires " ++ JS.dq ++ "left" ++ JS.dq
                    ++ " and " ++ JS.dq ++ "right" ++ JS.dq ++ " properties"))
  else
    left <- evaluate (JS.get_prop "left" args) ;;
    right <- evaluate (JS.get_prop "right" args) ;;
    ret (JBool (JS.strict_equals left right)).

Definition executeIf (args : jsval) : M interp jsval :=
  if negb (JS.truthy args) || negb (JS.typeof_object args)
     || negb (JS.has_prop "condition" args)
  then
    throw (Error ("if operation requires " ++ JS.dq ++ "condition" ++ JS.dq
                    ++ " property"))
  else
    condition <- evaluate (JS.get_prop "condition" args) ;;
    if JS.truthy condition then
      if JS.is_undefined (JS.get_prop "then" args) then ret JNull
      else evaluate (JS.get_prop "then" args)
    else
      if JS.is_undefined (JS.get_prop "else" args) then ret JNull
      else evaluate (JS.get_prop "else" args).

(** The [switch] on the operation name. *)
Definition dispatch (operationName : string) (operationArgs : jsval)
  : M interp jsval :=
  if String.eqb operationName "let" then executeLet operationArgs
  else if String.eqb operationName "concat" then executeConcat operationArgs
  else if String.eqb operationName "uppercase" then executeUppercase operationArgs
  else if String.eqb operationName "lowercase" then executeLowercase operationArgs
  else if String.eqb operationName "length" then executeLength operationArgs
  else if String.eqb operationName "substring" then executeSubstring operationArgs
  else if String.eqb operationName "and" then executeAnd operationArgs
  else if String.eqb operationName "or" then executeOr operationArgs
  else if String.eqb operationName "not" then executeNot operationArgs
  else if String.eqb operationName "equals" then executeEquals operationArgs
  else if String.eqb operationName "if" then executeIf operationArgs
  else throw (Error ("Unknown operation: " ++ operationName)).

End Operations.

(** [evaluate], with the depth of the call stack bounded by [fuel]. *)
Fixpoint evaluate (fuel : nat) (expression : jsval) {struct fuel} : M interp jsval :=
  match fuel with
  | O => out_of_fuel
  | S fuel' =>
      match expression with
      | JNull | JUndefined => ret expression
      | JStr s =>
          if JS.starts_with_dollar s then
            let varName := JS.drop_first s in
            vars <- gets variables ;;
            match vars !! varName with
            | None =>
                if JS.inherits varName
                then halts (Inherited varName)
                else throw (Error ("Undefined variable: " ++ varName))
            | Some v => ret v
            end
          else ret expression
      | JBool _ | JNum _ => ret expression
      | JArr _ items =>
          r <- fresh ;;
          vs <- mapM (evaluate fuel') items ;;
          ret (JArr r vs)
      | JObj _ [] => ret expression
      | JObj _ ((operationName, operationArgs) :: _) =>
          dispatch (evaluate fuel') operationName operationArgs
      end
  end.

(** [execute(program)]: the variables are a copy of the program's, the
    expression is evaluated.  [fuel] bounds the call stack and [heap_top]
    is an identity no object of the program has. *)
Definition execute (fuel : nat) (program_variables : gmap string jsval)
    (expression : jsval) (heap_top : ref) : outcome jsval * interp :=
  evaluate fuel expression (MkInterp program_variables heap_top).

End Strict.

(** ** The coverage tracker and the diagnostic evaluator: [treeUtils.ts] *)

(** The [CoverageTracker] object, and the identity the next array created
    will get. *)
Record coverage : Type := MkCoverage {
  coveredPaths : gset string;
  heap_top : nat
}.

Module Coverage.

Definition fresh : M coverage ref :=
  fun s => (Ret (heap_top s), MkCoverage (coveredPaths s) (S (heap_top s))).

(** [tracker.markCovered(path)] *)
Definition markCovered (path : string) : M coverage unit :=
  modify (fun s => MkCoverage ({[path]} ∪ coveredPaths s) (heap_top s)).

(** [tracker.isCovered(path)] *)
Definition isCovered (path : string) : M coverage bool :=
  gets (fun s => bool_decide (path ∈ coveredPaths s)).

(** [tracker.reset()] *)
Definition reset : M coverage unit :=
  modify (fun s => MkCoverage ∅ (heap_top s)).

Definition generatePathId (expr : jsval) (prefix : string) : string :=
  match expr with
  | JArr _ items => prefix ++ ":array[" ++ pretty (List.length items) ++ "]"
  | JObj _ fields =>
      prefix ++ ":{" ++ String.concat "," (JS.sort (JS.keys fields)) ++ "}"
  | _ => prefix ++ ":" ++ JS.json_stringify expr
  end.

(** The path prefix of the element at [idx] below [prefix ++ infix]. *)
Definition index_path (prefix infix : string) (idx : nat) : string :=
  prefix ++ infix ++ "[" ++ pretty idx ++ "]".

(** [`<${name}>`] *)
Definition placeholder (name : string) : jsval := JStr ("<" ++ name ++ ">").

(** [typeof p === 'string' ? p : String(p)] *)
Definition string_of_part (p : jsval) : string :=
  match p with
  | JStr s => s
  | _ => JS.to_string p
  end.

(** [Object.entries(v)], which throws on null and undefined. *)
Definition object_entries (v : jsval) : M coverage (list (string * jsval)) :=
  match v with
  | JNull | JUndefined =>
      throw (TypeError "Cannot convert undefined or null to object")
  | _ => ret (JS.entries v)
  end.

(** [k in v], which throws when [v] is not an object. *)
Definition in_operator (k : string) (v : jsval) : M coverage bool :=
  match v with
  | JArr _ _ | JObj _ _ => ret (JS.has_prop k v)
  | _ => throw (TypeError ("Cannot use 'in' operator to search for '" ++ k ++ "'"))
  end.

Section Node.

(** [tryEvaluate], the recursive call. *)
Variable tryEvaluate : jsval -> gmap string jsval -> bool -> string -> M coverage jsval.

(** The [let]/[in] case and, after it, the placeholder of the operations
    that are not evaluated. *)
Definition reduce_let_in (expr : jsval) (key : string) (keys : list string)
    (context : gmap string jsval) (tracker : bool) (pathPrefix : string)
  : M coverage jsval :=
  if JS.includes "let" keys && JS.includes "in" keys then
    let letValue := JS.get_prop "let" expr in
    let inValue := JS.get_prop "in" expr in
    newContext <-
      (if JS.typeof_object letValue && negb (JS.isArray letValue) then
         bindings <- object_entries letValue ;;
         foldM (fun (newContext : gmap string jsval) (binding : string * jsval) =>
                  v <- tryEvaluate (snd binding) context tracker
                         (pathPrefix ++ ".let." ++ fst binding) ;;
                  ret (<[fst binding := v]> newContext))
               bindings context
       else ret context) ;;
    tryEvaluate inValue newContext tracker (pathPrefix ++ ".in")
  else ret (placeholder key).

(** The [equals] case and the cases after it. *)
Definition reduce_equals (expr : jsval) (key : string) (value : jsval)
    (keys : list string) (context : gmap string jsval) (tracker : bool)
    (pathPrefix : string) : M coverage jsval :=
  if String.eqb key "equals" && JS.typeof_object value then
    hasLeft <- in_operator "left" value ;;
    hasRight <- (if hasLeft : bool then in_operator "right" value else ret false) ;;
    if hasLeft && hasRight then
      left <- tryEvaluate (JS.get_prop "left" value) context tracker
                (pathPrefix ++ ".equals.left") ;;
      right <- tryEvaluate (JS.get_prop "right" value) context tracker
                 (pathPrefix ++ ".equals.right") ;;
      ret (JBool (JS.strict_equals left right))
    else reduce_let_in expr key keys context tracker pathPrefix
  else reduce_let_in expr key keys context tracker pathPrefix.

(** The body of the [try] block. *)
Definition reduce (expr : jsval) (context : gmap string jsval) (tracker : bool)
    (pathPrefix : string) : M coverage jsval :=
  match expr with
  | JNull | JUndefined => ret expr
  | JBool _ | JNum _ | JStr _ => ret expr
  | JArr _ items =>
      r <- fresh ;;
      vs <- mapM (fun ix : nat * jsval =>
                    tryEvaluate (snd ix) context tracker
                      (index_path pathPrefix EmptyString (fst ix)))
                 (JS.indexed items) ;;
      ret (JArr r vs)
  | JObj _ fields =>
      match fields with
      | [] => ret JNull
      | (key, value) :: _ =>
          let keys := JS.keys fields in
          if String.eqb key "get" && JS.typeof_string value then
            match context !! JS.to_string value with
            | Some v => if JS.is_undefined v
                        then ret (placeholder (JS.to_string value))
                        else ret v
            | None => ret (placeholder (JS.to_string value))
            end
          else if String.eqb key "concat" && JS.isArray value then
            parts <- mapM (fun ix : nat * jsval =>
                             tryEvaluate (snd ix) context tracker
                               (index_path pathPrefix ".concat" (fst ix)))
                          (JS.indexed (JS.items_of value)) ;;
            ret (JStr (String.concat EmptyString (List.map string_of_part parts)))
          else if String.eqb key "uppercase" then
            evaluated <- tryEvaluate value context tracker (pathPrefix ++ ".uppercase") ;;
            ret (match evaluated with
                 | JStr s => JStr (JS.toUpperCase s)
                 | _ => evaluated
                 end)
          else if String.eqb key "lowercase" then
            evaluated <- tryEvaluate value context tracker (pathPrefix ++ ".lowercase") ;;
            ret (match evaluated with
                 | JStr s => JStr (JS.toLowerCase s)
                 | _ => evaluated
                 end)
          else if JS.includes "if" keys
                  && (JS.includes "then" keys || JS.includes "else" keys) then
            condition <- tryEvaluate (JS.get_prop "if" expr) context tracker
                           (pathPrefix ++ ".if") ;;
            if JS.truthy condition then
              if JS.is_undefined (JS.get_prop "then" expr) then ret JNull
              else tryEvaluate (JS.get_prop "then" expr) context tracker (pathPrefix ++ ".then")
            else
              if JS.is_undefined (JS.get_prop "else" expr) then ret JNull
              else tryEvaluate (JS.get_prop "else" expr) context tracker (pathPrefix ++ ".else")
          else reduce_equals expr key value keys context tracker pathPrefix
      end
  end.

(** One call of [tryEvaluate]: the path is recorded, then the [try]
    block runs and any exception becomes the error placeholder. *)
Definition visit (expr : jsval) (context : gmap string jsval) (tracker : bool)
    (pathPrefix : string) : M coverage jsval :=
  let currentPath := generatePathId expr pathPrefix in
  _ <- (if tracker then markCovered currentPath else ret tt) ;;
  try_catch (reduce expr context tracker pathPrefix) (JStr "<error>").

End Node.

(** [tryEvaluate(expr, context, tracker, pathPrefix)], with the depth of
    the call stack bounded by [fuel].  The optional [tracker] argument is
    [true] when a tracker is passed; the tracker object is the state. *)
Fixpoint tryEvaluate (fuel : nat) (expr : jsval) (context : gmap string jsval)
    (tracker : bool) (pathPrefix : string) {struct fuel} : M coverage jsval :=
  match fuel with
  | O => out_of_fuel
  | S fuel' => visit (tryEvaluate fuel') expr context tracker pathPrefix
  end.

(** One diagnostic pass, as [ExpressionTree] runs it: a new tracker, the
    root prefix. *)
Definition evaluateWithCoverage (fuel : nat) (expr : jsval)
    (inputDefaults : gmap string jsval) (top : ref) : outcome jsval * coverage :=
  tryEvaluate fuel expr inputDefaults true "root" (MkCoverage ∅ top).

End Coverage.

(** ** The display tree: [buildLogicTree] *)

Record TreeNodeData : Type := MkData {
  label : string;
  type : string;
  value : string;
  raw : jsval;
  covered : option bool
}.

(** A [TreeNode]; a node without a [children] field has no children. *)
Inductive TreeNode : Type :=
| Node (data : TreeNodeData) (children : list TreeNode).

Definition data (n : TreeNode) : TreeNodeData :=
  match n with Node d _ => d end.

Definition children (n : TreeNode) : list TreeNode :=
  match n with Node _ c => c end.

(** [node.data.value = v] *)
Definition set_value (v : string) (n : TreeNode) : TreeNode :=
  match n with
  | Node d c => Node (MkData (label d) (type d) v (raw d) (covered d)) c
  end.

Module Display.

Import Coverage.

Definition inferType (value : jsval) : string :=
  match value with
  | JNull | JUndefined => "null"
  | JStr _ => "string"
  | JNum _ => "number"
  | JBool _ => "boolean"
  | JArr _ _ => "array"
  | JObj _ _ => "operation"
  end.

Definition formatDisplayValue (value : jsval) : string :=
  match value with
  | JNull | JUndefined => "null"
  | JStr s => JS.dq ++ s ++ JS.dq
  | JBool _ | JNum _ => JS.to_string value
  | JArr _ items => "[" ++ pretty (List.length items) ++ " items]"
  | JObj _ _ => "{...}"
  end.

(** [context[name]]: undefined for a missing name. *)
Definition context_get (context : gmap string jsval) (name : string) : jsval :=
  match context !! name with
  | Some v => v
  | None => JUndefined
  end.

Section Node.

(** [tryEvaluate] and [buildLogicTree], the calls of the body. *)
Variable tryEvaluate : jsval -> gmap string jsval -> bool -> string -> M coverage jsval.
Variable buildLogicTree :
  jsval -> gmap string jsval -> string -> bool -> string -> M coverage TreeNode.

(** The single-key cases [in], [if], [then] and [else]: the node shows
    the value of the payload and has the payload's tree as its child. *)
Definition build_wrapper (expr : jsval) (key : string) (value : jsval)
    (context : gmap string jsval) (tracker : bool) (pathPrefix : string)
    (covered : option bool) (type child_label : string) : M coverage TreeNode :=
  v <- tryEvaluate value context tracker (pathPrefix ++ "." ++ key) ;;
  child <- buildLogicTree value context child_label tracker (pathPrefix ++ "." ++ key) ;;
  ret (Node (MkData key type (formatDisplayValue v) expr covered) [child]).

(** The cases of a mapping with exactly one key; [otherwise] is the code
    after the block. *)
Definition build_single (expr : jsval) (key : string) (value : jsval)
    (context : gmap string jsval) (tracker : bool) (pathPrefix : string)
    (covered : option bool) (otherwise : M coverage TreeNode) : M coverage TreeNode :=
  if String.eqb key "get" then
    let contextValue := context_get context (JS.to_string value) in
    ret (Node (MkData ("get " ++ JS.to_string value) (inferType contextValue)
                 (if JS.is_undefined contextValue
                  then "<" ++ JS.to_string value ++ ">"
                  else formatDisplayValue contextValue)
                 expr covered) [])
  else if String.eqb key "let" && JS.typeof_object value && negb (JS.isArray value) then
    entries <- object_entries value ;;
    bindings <- mapM (fun binding : string * jsval =>
                        let bindName := fst binding in
                        let bindValue := snd binding in
                        evaluated <- tryEvaluate bindValue context tracker
                                       (pathPrefix ++ ".let." ++ bindName) ;;
                        let newContext := <[bindName := evaluated]> context in
                        buildLogicTree bindValue newContext bindName tracker
                          (pathPrefix ++ ".let." ++ bindName))
                     entries ;;
    ret (Node (MkData "let" "let-binding"
                 (pretty (List.length (JS.entries value)) ++ " bindings")
                 expr covered) bindings)
  else if String.eqb key "in" then
    build_wrapper expr key value context tracker pathPrefix covered "expression" "result"
  else if String.eqb key "if" then
    build_wrapper expr key value context tracker pathPrefix covered "conditional" "condition"
  else if String.eqb key "then" then
    build_wrapper expr key value context tracker pathPrefix covered "expression" "result"
  else if String.eqb key "else" then
    build_wrapper expr key value context tracker pathPrefix covered "expression" "result"
  else if JS.includes key ["uppercase"; "lowercase"; "not"; "length"] then
    evaluated <- tryEvaluate expr context tracker pathPrefix ;;
    child <- buildLogicTree value context "argument" tracker (pathPrefix ++ "." ++ key) ;;
    ret (Node (MkData key "operation" (formatDisplayValue evaluated) expr covered)
           [child])
  else if String.eqb key "concat" && JS.isArray value then
    evaluated <- tryEvaluate expr context tracker pathPrefix ;;
    children <- mapM (fun ix : nat * jsval =>
                        buildLogicTree (snd ix) context ("item " ++ pretty (fst ix))
                          tracker (index_path pathPrefix ".concat" (fst ix)))
                     (JS.indexed (JS.items_of value)) ;;
    ret (Node (MkData "concat" "operation" (formatDisplayValue evaluated) expr covered)
           children)
  else otherwise.

(** The flat [let]/[in] case: the context grows binding by binding. *)
Definition build_let_in (expr : jsval) (context : gmap string jsval)
    (tracker : bool) (pathPrefix : string) (covered : option bool)
  : M coverage TreeNode :=
  let letValue := JS.get_prop "let" expr in
  let inValue := JS.get_prop "in" expr in
  acc <-
    (if JS.typeof_object letValue && negb (JS.isArray letValue) then
       entries <- object_entries letValue ;;
       foldM (fun (acc : gmap string jsval * list TreeNode)
                  (binding : string * jsval) =>
                let bindName := fst binding in
                let bindValue := snd binding in
                evaluated <- tryEvaluate bindValue (fst acc) tracker
                               (pathPrefix ++ ".let." ++ bindName) ;;
                let newContext := <[bindName := evaluated]> (fst acc) in
                bindingNode <- buildLogicTree bindValue newContext bindName tracker
                                 (pathPrefix ++ ".let." ++ bindName) ;;
                ret (newContext,
                     (snd acc ++ [set_value (formatDisplayValue evaluated) bindingNode])%list))
             entries (context, [])
     else ret (context, [])) ;;
  let newContext := fst acc in
  let bindings := snd acc in
  finalValue <- tryEvaluate inValue newContext tracker (pathPrefix ++ ".in") ;;
  inNode <- buildLogicTree inValue newContext "in" tracker (pathPrefix ++ ".in") ;;
  ret (Node (MkData "let/in" "let-in" (formatDisplayValue finalValue) expr covered)
         (bindings ++ [set_value (formatDisplayValue finalValue) inNode])).

(** The generic rendering of a mapping: one child per key. *)
Definition build_generic (expr : jsval) (keys : list string)
    (context : gmap string jsval) (label : string) (tracker : bool)
    (pathPrefix : string) (covered : option bool) : M coverage TreeNode :=
  children <- mapM (fun key : string =>
                      buildLogicTree (JS.get_prop key expr) context key tracker
                        (pathPrefix ++ "." ++ key))
                   keys ;;
  ret (Node (MkData (JS.or_default label "object") "object"
               ("{" ++ pretty (List.length keys) ++ " keys}") expr covered)
         children).

(** The cases after the single-key block: binary operations, the flat
    [let]/[in], the generic rendering. *)
Definition build_multi (expr : jsval) (keys : list string)
    (context : gmap string jsval) (label : string) (tracker : bool)
    (pathPrefix : string) (covered : option bool) : M coverage TreeNode :=
  let after_binary :=
    if JS.includes "let" keys && JS.includes "in" keys
    then build_let_in expr context tracker pathPrefix covered
    else build_generic expr keys context label tracker pathPrefix covered in
  if JS.includes "left" keys && JS.includes "right" keys then
    match JS.find_key (fun k => negb (String.eqb k "left") && negb (String.eqb k "right"))
            keys with
    | Some operation =>
        if String.eqb operation EmptyString then after_binary
        else
          evaluated <- tryEvaluate expr context tracker pathPrefix ;;
          l <- buildLogicTree (JS.get_prop "left" expr) context "left" tracker
                 (pathPrefix ++ ".left") ;;
          r <- buildLogicTree (JS.get_prop "right" expr) context "right" tracker
                 (pathPrefix ++ ".right") ;;
          ret (Node (MkData operation "operation" (formatDisplayValue evaluated)
                       expr covered) [l; r])
    | None => after_binary
    end
  else after_binary.

(** One call of [buildLogicTree]. *)
Definition build (expr : jsval) (context : gmap string jsval) (label : string)
    (tracker : bool) (pathPrefix : string) : M coverage TreeNode :=
  let currentPath := generatePathId expr pathPrefix in
  covered <- (if tracker
              then c <- isCovered currentPath ;; ret (Some c)
              else ret None) ;;
  match expr with
  | JNull | JUndefined =>
      ret (Node (MkData (JS.or_default label "null") "null" "null" expr covered) [])
  | JStr s =>
      ret (Node (MkData (JS.or_default label (JS.dq ++ s ++ JS.dq)) "string"
                   (JS.dq ++ s ++ JS.dq) expr covered) [])
  | JNum _ =>
      ret (Node (MkData (JS.or_default label (JS.to_string expr)) "number"
                   (JS.to_string expr) expr covered) [])
  | JBool _ =>
      ret (Node (MkData (JS.or_default label (JS.to_string expr)) "boolean"
                   (JS.to_string expr) expr covered) [])
  | JArr _ items =>
      children <- mapM (fun ix : nat * jsval =>
                          buildLogicTree (snd ix) context ("[" ++ pretty (fst ix) ++ "]")
                            tracker (index_path pathPrefix EmptyString (fst ix)))
                       (JS.indexed items) ;;
      ret (Node (MkData (JS.or_default label "array") "array"
                   ("[" ++ pretty (List.length items) ++ " items]") expr covered)
             children)
  | JObj _ fields =>
      let keys := JS.keys fields in
      match fields with
      | [] =>
          ret (Node (MkData (JS.or_default label "{}") "object" "{}" expr covered) [])
      | [(key, value)] =>
          build_single expr key value context tracker pathPrefix covered
            (build_multi expr keys context label tracker pathPrefix covered)
      | _ => build_multi expr keys context label tracker pathPrefix covered
      end
  end.

End Node.

(** [buildLogicTree(expr, context, label, tracker, pathPrefix)], with the
    depth of the call stack bounded by [fuel]. *)
Fixpoint buildLogicTree (fuel : nat) (expr : jsval) (context : gmap string jsval)
    (label : string) (tracker : bool) (pathPrefix : string) {struct fuel}
  : M coverage TreeNode :=
  match fuel with
  | O => out_of_fuel
  | S fuel' =>
      build (Coverage.tryEvaluate fuel) (buildLogicTree fuel')
        expr context label tracker pathPrefix
  end.

(** What [ExpressionTree] does: one diagnostic pass with a new tracker,
    then the tree is built against the same tracker. *)
Definition expressionTree (fuel : nat) (expr : jsval)
    (inputDefaults : gmap string jsval) : M coverage TreeNode :=
  _ <- Coverage.reset ;;
  _ <- Coverage.tryEvaluate fuel expr inputDefaults true "root" ;;
  buildLogicTree fuel expr inputDefaults "root" true "root".

End Display.

(** ** Classes of operations, and sample programs *)

(** The four operations that take their argument through [extractValue]. *)
Definition single_value_operation (operation : string) : Prop :=
  operation = "uppercase" \/ operation = "lowercase"
  \/ operation = "length" \/ operation = "not".

(** The three operations that take a sequence or a [values] field. *)
Definition sequence_operation (operation : string) : Prop :=
  operation = "concat" \/ operation = "and" \/ operation = "or".

(** Expressions used as examples: every array and mapping of one expression
    is a different object. *)
Module Examples.

Definition num (z : Z) : jsval := JNum (NInt z).

(** An interpreter with no variables; no object of the examples has an
    identity from 100 on. *)
Definition empty_interp : interp := MkInterp ∅ 100.

(** A new coverage tracker. *)
Definition new_tracker : coverage := MkCoverage ∅ 100.


(** [{let: {a: 2, in: $a}}] *)
Definition let_inner : jsval :=
  JObj 3 [("let", JObj 4 [("a", num 2); ("in", JStr "$a")])].


(** [{let: {a: 1, in: [{let: {a: 2, in: $a}}, $a]}}] *)
Definition let_shadowing_then_outer : jsval :=
  JObj 1 [("let", JObj 2 [("a", num 1); ("in", JArr 5 [let_inner; JStr "$a"])])].




(** An interpreter whose only variable is named [__proto__]: the variables
    of a program that declares one are copied with the spread syntax, which
    defines own properties. *)
Definition proto_interp : interp := MkInterp {["__proto__" := num 5]} 100.

(** [{concat: [a], value: b}], a mapping that has a [value] key. *)
Definition concat_with_value : jsval :=
  JObj 2 [("concat", JArr 3 [JStr "a"]); ("value", JStr "b")].

(** [{uppercase: {concat: [a], value: b}}] *)
Definition uppercase_direct : jsval :=
  JObj 1 [("uppercase", concat_with_value)].

(** [{uppercase: {value: {concat: [a], value: b}}}] *)
Definition uppercase_named : jsval :=
  JObj 1 [("uppercase", JObj 4 [("value", concat_with_value)])].

(** [{equals: {left: l, right: r}}] *)
Definition equals_of (l r : jsval) : jsval :=
  JObj 1 [("equals", JObj 2 [("left", l); ("right", r)])].

(** [{not: true}] *)
Definition not_true : jsval := JObj 1 [("not", JBool true)].

(** [{if: {condition: true, then: A, else: B}}], the encoding of the strict
    evaluator. *)
Definition if_nested : jsval :=
  JObj 1 [("if", JObj 2 [("condition", JBool true); ("then", JStr "A");
                         ("else", JStr "B")])].

(** [{if: true, then: A, else: B}], the encoding of the diagnostic
    evaluator. *)
Definition if_flat : jsval :=
  JObj 1 [("if", JBool true); ("then", JStr "A"); ("else", JStr "B")].

(** [{if: false, then: {uppercase: a}, else: B}]: the [then] branch is not
    taken. *)
Definition if_untaken_uppercase : jsval :=
  JObj 1 [("if", JBool false); ("then", JObj 2 [("uppercase", JStr "a")]);
          ("else", JStr "B")].

(** [[{equals: null}, 1]]: the first element fails inside its [try]. *)
Definition failing_sibling : jsval :=
  JArr 1 [JObj 2 [("equals", JNull)]; num 1].

End Examples.

(** ** Notions used to state the properties *)

(** Numbers with the same content; NaN has the content of NaN. *)
Definition number_same (a b : number) : bool :=
  match a, b with
  | NInt x, NInt y => Z.eqb x y
  | NNaN, NNaN => true
  | NInf x, NInf y => Bool.eqb x y
  | _, _ => false
  end.

(** The specification's reading of equality for [equals]: two values are
    identical in type and content.  Sequences and mappings are compared
    element by element; which heap object holds them plays no part. *)
Fixpoint same_content (a b : jsval) {struct a} : bool :=
  match a, b with
  | JNull, JNull => true
  | JUndefined, JUndefined => true
  | JBool x, JBool y => Bool.eqb x y
  | JNum x, JNum y => number_same x y
  | JStr x, JStr y => String.eqb x y
  | JArr _ xs, JArr _ ys =>
      (fix all2 (xs ys : list jsval) {struct xs} : bool :=
         match xs, ys with
         | [], [] => true
         | x :: xs', y :: ys' => same_content x y && all2 xs' ys'
         | _, _ => false
         end) xs ys
  | JObj _ fs, JObj _ gs =>
      (fix all2 (fs gs : list (string * jsval)) {struct fs} : bool :=
         match fs, gs with
         | [], [] => true
         | (k, x) :: fs', (k', y) :: gs' =>
             String.eqb k k' && same_content x y && all2 fs' gs'
         | _, _ => false
         end) fs gs
  | _, _ => false
  end.

(** Values that are not heap objects. *)
Definition primitive (v : jsval) : Prop :=
  match v with
  | JArr _ _ | JObj _ _ => False
  | _ => True
  end.

(** The heap object a value denotes, if it is one. *)
Definition identity (v : jsval) : option ref :=
  match v with
  | JArr r _ | JObj r _ => Some r
  | _ => None
  end.

(** The values the diagnostic evaluator substitutes for what it does not
    compute: [<error>] and [<name>]. *)
Definition is_placeholder (v : jsval) : Prop :=
  exists name : string, v = Coverage.placeholder name.


(** No variable is named [__proto__]. *)
Definition plain_variables (s : interp) : Prop := variables s !! "__proto__" = None.

(** A computation of the interpreter that, when it starts without a
    variable named [__proto__] and returns normally, leaves [this.variables]
    as it found it. *)
Definition preserves {A : Type} (m : M interp A) : Prop :=
  forall (s s' : interp) (a : A),
    plain_variables s -> m s = (Ret a, s') -> variables s' = variables s.

(** A computation that stays within what the embedding describes: when it
    is not followed to its end, the recursion bound was reached. *)
Definition inside {S A : Type} (m : M S A) : Prop :=
  forall (s : S) (h : halt), fst (m s) = Halt h -> h = OutOfFuel.

(** A computation that ends within the recursion bound, normally or with
    an exception. *)
Definition terminates {S A : Type} (m : M S A) : Prop :=
  forall s : S, fst (m s) <> Halt OutOfFuel.

(** A computation that returns normally from every state. *)
Definition returns {S A : Type} (m : M S A) : Prop :=
  forall s : S, exists (a : A) (s' : S), m s = (Ret a, s').

(** The tracker [s'] has, beyond the paths of [s], only paths that begin
    with [p]. *)
Definition grows_below (p : string) (s s' : coverage) : Prop :=
  forall x : string,
    x ∈ coveredPaths s' -> x ∈ coveredPaths s \/ exists t : string, x = p ++ t.

(** A computation that records only paths that begin with [p], however it
    ends. *)
Definition records_below {A : Type} (p : string) (m : M coverage A) : Prop :=
  forall s : coverage, grows_below p s (snd (m s)).

(** A computation whose resulting node, when it returns one, carries the
    coverage flag [c]. *)
Definition flags (c : option bool) (m : M coverage TreeNode) : Prop :=
  forall (s s' : coverage) (n : TreeNode), m s = (Ret n, s') -> covered (data n) = c.

(** The expressions both evaluators read the same way.  [stringy] are
    those that evaluate to a string: string literals that are not
    references, [concat] of a sequence whose elements are not the literals
    null and undefined, [uppercase] and [lowercase] of a [stringy]
    expression.  [shared] adds the other literals, sequences, and [equals]
    of two [shared] expressions.  Operations are single-key mappings with a
    direct payload. *)
Inductive shared : jsval -> Prop :=
| shared_null : shared JNull
| shared_undefined : shared JUndefined
| shared_bool (b : bool) : shared (JBool b)
| shared_num (n : number) : shared (JNum n)
| shared_arr (r : ref) (items : list jsval) :
    Forall shared items -> shared (JArr r items)
| shared_equals (r r' : ref) (fields : list (string * jsval)) (l rt : jsval) :
    JS.lookup_field "left" fields = Some l ->
    JS.lookup_field "right" fields = Some rt ->
    shared l -> shared rt ->
    shared (JObj r [("equals", JObj r' fields)])
| shared_stringy (e : jsval) : stringy e -> shared e
with stringy : jsval -> Prop :=
| stringy_str (s : string) :
    JS.starts_with_dollar s = false -> stringy (JStr s)
| stringy_concat (r r' : ref) (items : list jsval) :
    Forall shared items ->
    Forall (fun e => JS.is_null e = false /\ JS.is_undefined e = false) items ->
    stringy (JObj r [("concat", JArr r' items)])
| stringy_uppercase (r : ref) (e : jsval) :
    stringy e -> stringy (JObj r [("uppercase", e)])
| stringy_lowercase (r : ref) (e : jsval) :
    stringy e -> stringy (JObj r [("lowercase", e)]).

(** The two evaluators do the same on [e] when started with the same next
    array identity: whatever the strict one returns, the diagnostic one
    returns, and they end with the same next identity. *)
Definition agree_on (fuel : nat) (e : jsval) : Prop :=
  forall (st st' : interp) (s : coverage) (context : gmap string jsval)
         (tracker : bool) (pathPrefix : string) (v : jsval),
    heap_top s = next_ref st ->
    Strict.evaluate fuel e st = (Ret v, st') ->
    exists s' : coverage,
      Coverage.tryEvaluate fuel e context tracker pathPrefix s = (Ret v, s')
      /\ heap_top s' = next_ref st'.

(** ** Further notions: the operation names, tracker growth, node counts *)

(** The names the [switch] of [evaluate] knows. *)
Definition operations : list string :=
  ["let"; "concat"; "uppercase"; "lowercase"; "length"; "substring";
   "and"; "or"; "not"; "equals"; "if"].

(** [{name: args}], a mapping with one key. *)
Definition operation (r : ref) (name : string) (args : jsval) : jsval :=
  JObj r [(name, args)].

(** [{if: {condition: c, then: t, else: e}}] *)
Definition if_expression (r r' : ref) (c t e : jsval) : jsval :=
  JObj r [("if", JObj r' [("condition", c); ("then", t); ("else", e)])].

(** [{substring: {value: v, start: a, end: b}}] *)
Definition substring_expression (r r' : ref) (v a b : jsval) : jsval :=
  JObj r [("substring", JObj r' [("value", v); ("start", a); ("end", b)])].

(** A computation of the interpreter that never takes back an identity it
    has given out, however it ends. *)
Definition advances {A : Type} (m : M interp A) : Prop :=
  forall s : interp, (next_ref s <= next_ref (snd (m s)))%nat.

(** A computation that takes no path out of the tracker, however it
    ends. *)
Definition keeps {A : Type} (m : M coverage A) : Prop :=
  forall (s : coverage) (x : string),
    x ∈ coveredPaths s -> x ∈ coveredPaths (snd (m s)).

(** [m2] does what [m1] does without recording: from states with the same
    next array identity they end the same way, with the same next identity,
    and [m2] leaves the set of paths alone. *)
Definition shadows {A : Type} (m1 m2 : M coverage A) : Prop :=
  forall s1 s2 : coverage,
    heap_top s1 = heap_top s2 ->
    fst (m1 s1) = fst (m2 s2)
    /\ heap_top (snd (m1 s1)) = heap_top (snd (m2 s2))
    /\ coveredPaths (snd (m2 s2)) = coveredPaths s2.

(** ** The node count of [ExpressionTree] *)

Module ExpressionTree.

(** [countNodes(node)]: the number of nodes and the number of nodes flagged
    covered, as the pair [(total, covered)]. *)
Fixpoint countNodes (node : TreeNode) : nat * nat :=
  match node with
  | Node d cs =>
      List.fold_left
        (fun (acc : nat * nat) (child : TreeNode) =>
           let childCounts := countNodes child in
           (fst acc + fst childCounts, snd acc + snd childCounts)%nat)
        cs
        (1, match covered d with Some true => 1 | _ => 0 end)%nat
  end.

End ExpressionTree.

(** The order [keys.sort()] sorts by. *)
Definition key_le (a b : string) : Prop := String.leb a b = true.

(** A computation whose resulting node, when it returns one, has data that
    satisfy [P]. *)
Definition yields (P : TreeNodeData -> Prop) (m : M coverage TreeNode) : Prop :=
  forall (s s' : coverage) (n : TreeNode), m s = (Ret n, s') -> P (data n).

(** Expressions that are not mappings. *)
Definition not_mapping (expr : jsval) : Prop :=
  match expr with
  | JObj _ _ => False
  | _ => True
  end.

(** ** The earlier [tryEvaluate] of [treeUtils.ts], without coverage *)

Module Legacy.

Section Node.

(** [tryEvaluate], the recursive call. *)
Variable tryEvaluate : jsval -> gmap string jsval -> M coverage jsval.

(** The [let]/[in] case and, after it, the placeholder of the operations
    that are not evaluated. *)
Definition reduce_let_in (expr : jsval) (key : string) (keys : list string)
    (context : gmap string jsval) : M coverage jsval :=
  if JS.includes "let" keys && JS.includes "in" keys then
    let letValue := JS.get_prop "let" expr in
    let inValue := JS.get_prop "in" expr in
    newContext <-
      (if JS.typeof_object letValue && negb (JS.isArray letValue) then
         bindings <- Coverage.object_entries letValue ;;
         foldM (fun (newContext : gmap string jsval) (binding : string * jsval) =>
                  v <- tryEvaluate (snd binding) context ;;
                  ret (<[fst binding := v]> newContext))
               bindings context
       else ret context) ;;
    tryEvaluate inValue newContext
  else ret (Coverage.placeholder key).

(** The body of the [try] block. *)
Definition reduce (expr : jsval) (context : gmap string jsval) : M coverage jsval :=
  match expr with
  | JNull | JUndefined => ret expr
  | JBool _ | JNum _ | JStr _ => ret expr
  | JArr _ items =>
      r <- Coverage.fresh ;;
      vs <- mapM (fun item => tryEvaluate item context) items ;;
      ret (JArr r vs)
  | JObj _ fields =>
      match fields with
      | [] => ret JNull
      | (key, value) :: _ =>
          let keys := JS.keys fields in
          if String.eqb key "get" && JS.typeof_string value then
            match context !! JS.to_string value with
            | Some v => if JS.is_undefined v
                        then ret (Coverage.placeholder (JS.to_string value))
                        else ret v
            | None => ret (Coverage.placeholder (JS.to_string value))
            end
          else if String.eqb key "concat" && JS.isArray value then
            parts <- mapM (fun item => tryEvaluate item context) (JS.items_of value) ;;
            ret (JStr (String.concat EmptyString
                         (List.map Coverage.string_of_part parts)))
          else if String.eqb key "uppercase" then
            evaluated <- tryEvaluate value context ;;
            ret (match evaluated with
                 | JStr s => JStr (JS.toUpperCase s)
                 | _ => evaluated
                 end)
          else if String.eqb key "lowercase" then
            evaluated <- tryEvaluate value context ;;
            ret (match evaluated with
                 | JStr s => JStr (JS.toLowerCase s)
                 | _ => evaluated
                 end)
          else reduce_let_in expr key keys context
      end
  end.

End Node.

(** [tryEvaluate(expr, context)], with the depth of the call stack bounded
    by [fuel]. *)
Fixpoint tryEvaluate (fuel : nat) (expr : jsval) (context : gmap string jsval)
    {struct fuel} : M coverage jsval :=
  match fuel with
  | O => out_of_fuel
  | S fuel' => try_catch (reduce (tryEvaluate fuel') expr context) (JStr "<error>")
  end.

End Legacy.

(** A mapping the later [tryEvaluate] has no new case for: it has no [if]
    key beside a [then] or [else] key, and it is not an [equals] with an
    object payload. *)
Definition no_new_case (fields : list (string * jsval)) : Prop :=
  JS.includes "if" (JS.keys fields)
  && (JS.includes "then" (JS.keys fields) || JS.includes "else" (JS.keys fields)) = false
  /\ match fields with
     | (key, value) :: _ => String.eqb key "equals" && JS.typeof_object value = false
     | [] => True
     end.

(** Expressions in which every mapping, at any depth, is such a mapping. *)
Inductive legacy : jsval -> Prop :=
| legacy_null : legacy JNull
| legacy_undefined : legacy JUndefined
| legacy_bool (b : bool) : legacy (JBool b)
| legacy_num (n : number) : legacy (JNum n)
| legacy_str (s : string) : legacy (JStr s)
| legacy_arr (r : ref) (items : list jsval) :
    Forall legacy items -> legacy (JArr r items)
| legacy_obj (r : ref) (fields : list (string * jsval)) :
    no_new_case fields ->
    Forall (fun kv => legacy (snd kv)) fields ->
    legacy (JObj r fields).

(** ** Identities that have been given out *)

(** Every array and mapping in [v], at any depth, has an identity below
    [top]. *)
Fixpoint allocated (top : ref) (v : jsval) : bool :=
  match v with
  | JArr r items => (r <? top)%nat && forallb (allocated top) items
  | JObj r fields => (r <? top)%nat && forallb (fun kv => allocated top (snd kv)) fields
  | _ => true
  end.

(** The objects a map of variables holds have identities below [top]. *)
Definition allocated_map (top : ref) (vars : gmap string jsval) : Prop :=
  forall (k : string) (v : jsval), vars !! k = Some v -> allocated top v = true.

(** The identity the interpreter gives out next is new: the objects its
    variables hold have identities below it. *)
Definition well_allocated (s : interp) : Prop := allocated_map (next_ref s) (variables s).

(** A computation that, started at or above [top] with [next_ref] new,
    leaves [next_ref] new when it returns, and returns a result with the
    property [P] at the [next_ref] it leaves. *)
Definition allocates {A : Type} (top : ref) (P : ref -> A -> Prop) (m : M interp A) : Prop :=
  forall (s s' : interp) (a : A),
    (top <= next_ref s)%nat -> well_allocated s -> m s = (Ret a, s') ->
    (next_ref s <= next_ref s')%nat /\ well_allocated s' /\ P (next_ref s') a.

(** The properties of results: values, lists of values, results that carry
    no object. *)
Definition allocated_value (top : ref) (v : jsval) : Prop := allocated top v = true.

Definition allocated_values (top : ref) (vs : list jsval) : Prop :=
  Forall (allocated_value top) vs.

Definition anything {A : Type} (top : ref) (a : A) : Prop := True.

(** ** The [let]/[in] of the diagnostic evaluator *)

(** The context after the names have been assigned the values, in order. *)
Fixpoint assign_all (context : gmap string jsval) (names : list string)
    (vs : list jsval) : gmap string jsval :=
  match names, vs with
  | name :: names', v :: vs' => assign_all (<[name := v]> context) names' vs'
  | _, _ => context
  end.

(** A mapping that [tryEvaluate] reads as a [let]/[in]: it has the keys
    [let] and [in], and none of the cases tried before applies, which look
    at the first key ([get] of a string, [concat] of a sequence,
    [uppercase], [lowercase], [equals] of null or of an object with [left]
    and [right]) or at the keys ([if] beside [then] or [else]). *)
Definition reads_as_let (fields : list (string * jsval)) : bool :=
  match fields with
  | [] => false
  | (key, value) :: _ =>
      let keys := JS.keys fields in
      negb (String.eqb key "get" && JS.typeof_string value)
      && negb (String.eqb key "concat" && JS.isArray value)
      && negb (String.eqb key "uppercase")
      && negb (String.eqb key "lowercase")
      && negb (JS.includes "if" keys && (JS.includes "then" keys || JS.includes "else" keys))
      && negb (String.eqb key "equals" && JS.typeof_object value
               && (JS.is_null value
                   || (JS.has_prop "left" value && JS.has_prop "right" value)))
      && (JS.includes "let" keys && JS.includes "in" keys)
  end.

(** ** The conditional of the diagnostic evaluator *)

(** A mapping that [tryEvaluate] reads as a conditional: it has the key
    [if] beside [then] or [else], in any order and among any other keys,
    and none of the cases tried before applies, which look at the first key
    ([get] of a string, [concat] of a sequence, [uppercase],
    [lowercase]). *)
Definition reads_as_if (fields : list (string * jsval)) : bool :=
  match fields with
  | [] => false
  | (key, value) :: _ =>
      let keys := JS.keys fields in
      negb (String.eqb key "get" && JS.typeof_string value)
      && negb (String.eqb key "concat" && JS.isArray value)
      && negb (String.eqb key "uppercase")
      && negb (String.eqb key "lowercase")
      && (JS.includes "if" keys && (JS.includes "then" keys || JS.includes "else" keys))
  end.

(** The path [x] lies below the prefix [p]. *)
Definition below (p x : string) : Prop := exists t : string, x = p ++ t.

(** The tracker when the [try] block of a call starts: the path of the node
    has been recorded, if there is a tracker. *)
Definition entered (expr : jsval) (tracker : bool) (pathPrefix : string) (s : coverage)
  : coverage :=
  snd ((if tracker
        then Coverage.markCovered (Coverage.generatePathId expr pathPrefix)
        else ret tt) s).

(** * Properties *)

(** ** Laws of the computation monad *)

Section MonadLaws.

Context {S A B : Type}.

Lemma bind_ret_inv (m : M S A) (k : A -> M S B) (s s' : S) (b : B) :
  bind m k s = (Ret b, s') ->
  exists a s1, m s = (Ret a, s1) /\ k a s1 = (Ret b, s').
Proof.
  unfold bind. destruct (m s) as [[a | e |] s1]; intros H; try discriminate.
  exists a, s1. split; [reflexivity | exact H].
Qed.

Lemma bind_ret (m : M S A) (k : A -> M S B) (s s1 : S) (a : A) :
  m s = (Ret a, s1) -> bind m k s = k a s1.
Proof. intros H. unfold bind. rewrite H. reflexivity. Qed.

Lemma bind_throw (m : M S A) (k : A -> M S B) (s s1 : S) (e : error) :
  m s = (Throw e, s1) -> bind m k s = (Throw e, s1).
Proof. intros H. unfold bind. rewrite H. reflexivity. Qed.

Lemma bind_ext (m : M S A) (k1 k2 : A -> M S B) (s : S) :
  (forall a s1, k1 a s1 = k2 a s1) -> bind m k1 s = bind m k2 s.
Proof.
  intros H. unfold bind. destruct (m s) as [[a | e |] s1]; auto.
Qed.

End MonadLaws.

Lemma mapM_ext {S A B : Type} (f g : A -> M S B) (l : list A) (s : S) :
  (forall x s1, f x s1 = g x s1) -> mapM f l s = mapM g l s.
Proof.
  intros H. revert s. induction l as [| x rest IH]; intros s; simpl; [reflexivity |].
  unfold bind. rewrite H. destruct (g x s) as [[y | e |] s1]; auto.
  rewrite IH. reflexivity.
Qed.

(** ** The strict evaluator looks at the first key only *)

(** C10.  A non-empty mapping is dispatched on its first enumerated key and
    that key's payload: whatever follows the first key, the evaluation has
    the result (value or error, and final state) of the single-key mapping,
    as for [{concat: P, extra: Q}] and [{concat: P}]. *)
Theorem evaluate_first_key_only :
  (forall (fuel : nat) (r r' : ref) (operationName : string) (operationArgs : jsval)
          (others : list (string * jsval)) (st : interp),
      Strict.evaluate fuel (JObj r ((operationName, operationArgs) :: others)) st
      = Strict.evaluate fuel (JObj r' [(operationName, operationArgs)]) st)
  /\ (forall (fuel : nat) (r r' : ref) (P Q : jsval) (st : interp),
         Strict.evaluate fuel (JObj r [("concat", P); ("extra", Q)]) st
         = Strict.evaluate fuel (JObj r' [("concat", P)]) st).
Proof.
  split; intros; destruct fuel; reflexivity.
Qed.

(** ** Direct and named-field payloads *)

Lemma values_of_named (operation : string) (r : ref) (values : jsval)
    (others : list (string * jsval)) (st : interp) :
  Strict.values_of operation (JObj r (("values", values) :: others)) st = (Ret values, st).
Proof. reflexivity. Qed.

Lemma values_of_direct (operation : string) (r : ref) (items : list jsval) (st : interp) :
  Strict.values_of operation (JArr r items) st = (Ret (JArr r items), st).
Proof. reflexivity. Qed.

Lemma extractValue_named (ev : jsval -> M interp jsval) (r : ref) (x : jsval) :
  Strict.extractValue ev (JObj r [("value", x)]) = ev x.
Proof. reflexivity. Qed.

Lemma extractValue_direct (ev : jsval -> M interp jsval) (x : jsval) :
  JS.has_prop "value" x = false -> Strict.extractValue ev x = ev x.
Proof.
  intros H. unfold Strict.extractValue. rewrite H.
  rewrite !andb_false_r. reflexivity.
Qed.

(** C7, as the code has it.  [concat], [and] and [or] give the same result
    for a sequence and for [{values: sequence}], whatever the elements.  The
    single-value operations give the same result for [x] and [{value: x}]
    provided [x] is not itself a mapping with a [value] key. *)
Theorem payload_shapes_agree :
  (forall (operation : string) (fuel : nat) (r1 r2 r3 r4 r5 : ref)
          (items : list jsval) (st : interp),
      sequence_operation operation ->
      Strict.evaluate fuel (JObj r1 [(operation, JArr r2 items)]) st
      = Strict.evaluate fuel
          (JObj r3 [(operation, JObj r4 [("values", JArr r5 items)])]) st)
  /\ (forall (operation : string) (fuel : nat) (r1 r2 r3 : ref) (x : jsval) (st : interp),
         single_value_operation operation ->
         JS.has_prop "value" x = false ->
         Strict.evaluate fuel (JObj r1 [(operation, x)]) st
         = Strict.evaluate fuel (JObj r2 [(operation, JObj r3 [("value", x)])]) st).
Proof.
  split.
  - intros operation fuel r1 r2 r3 r4 r5 items st Hop.
    destruct fuel as [| fuel]; [reflexivity |].
    destruct Hop as [-> | [-> | ->]]; reflexivity.
  - intros operation fuel r1 r2 r3 x st Hop Hx.
    destruct fuel as [| fuel]; [reflexivity |].
    destruct Hop as [-> | [-> | [-> | ->]]]; simpl;
      unfold Strict.dispatch; simpl;
      unfold Strict.executeUppercase, Strict.executeLowercase,
        Strict.executeLength, Strict.executeNot;
      rewrite extractValue_named, (extractValue_direct _ x Hx); reflexivity.
Qed.

(** A payload with a [value] key is read as the named form, so the direct
    form of such a payload differs from its named form. *)
Lemma payload_shapes_differ :
  fst (Strict.evaluate 5 Examples.uppercase_direct Examples.empty_interp) = Ret (JStr "B")
  /\ fst (Strict.evaluate 5 Examples.uppercase_named Examples.empty_interp) = Ret (JStr "A")
  /\ fst (Strict.evaluate 5 Examples.uppercase_direct Examples.empty_interp)
     <> fst (Strict.evaluate 5 Examples.uppercase_named Examples.empty_interp).
Proof.
  split; [reflexivity | split; [reflexivity | discriminate]].
Qed.

Lemma payload_shapes_agree_witness :
  Strict.evaluate 5 (JObj 1 [("concat", JArr 2 [JStr "x"; JStr "y"])]) Examples.empty_interp
  = Strict.evaluate 5
      (JObj 1 [("concat", JObj 2 [("values", JArr 3 [JStr "x"; JStr "y"])])])
      Examples.empty_interp
  /\ Strict.evaluate 5 (JObj 1 [("not", JStr "x")]) Examples.empty_interp
     = Strict.evaluate 5 (JObj 1 [("not", JObj 2 [("value", JStr "x")])])
         Examples.empty_interp.
Proof.
  split.
  - apply (proj1 payload_shapes_agree). left. reflexivity.
  - apply (proj2 payload_shapes_agree).
    + right. right. right. reflexivity.
    + reflexivity.
Defined.

(** ** Undefined variables *)

(** The diagnostic evaluator has no variable references: [$missing] is a
    string like any other and comes back unchanged, which is not one of the
    placeholders. *)
Lemma diagnostic_reference_not_placeholder :
  fst (Coverage.tryEvaluate 3 (JStr "$missing") ∅ true "root" Examples.new_tracker)
  = Ret (JStr "$missing")
  /\ ~ is_placeholder (JStr "$missing").
Proof.
  split; [reflexivity |].
  intros [name H]. unfold Coverage.placeholder in H. discriminate H.
Qed.

(** C9, as the code has it.  In an interpreter without variables the strict
    evaluator throws [Undefined variable: missing] on [$missing]; the
    diagnostic evaluator returns the string [$missing] itself and throws
    nothing. *)
Theorem undefined_variable :
  (forall (n : nat) (top : ref),
      Strict.evaluate (S n) (JStr "$missing") (MkInterp ∅ top)
      = (Throw (Error "Undefined variable: missing"), MkInterp ∅ top))
  /\ (forall (n : nat) (context : gmap string jsval) (tracker : bool)
             (pathPrefix : string) (s : coverage),
         fst (Coverage.tryEvaluate (S n) (JStr "$missing") context tracker pathPrefix s)
         = Ret (JStr "$missing")).
Proof.
  split.
  - intros n top. reflexivity.
  - intros n context tracker pathPrefix s. destruct tracker; reflexivity.
Qed.

(** ** Equality *)

Lemma number_eqb_true (a b : number) :
  JS.number_eqb a b = true <-> a = b /\ a <> NNaN.
Proof.
  destruct a as [x | | x], b as [y | | y]; simpl; split;
    try (intros H; discriminate H);
    try (intros [H1 H2]; congruence).
  - intros H. apply Z.eqb_eq in H. subst. split; [reflexivity | discriminate].
  - intros [H _]. injection H as ->. apply Z.eqb_refl.
  - intros H. apply Bool.eqb_prop in H. subst. split; [reflexivity | discriminate].
  - intros [H _]. injection H as ->. apply Bool.eqb_reflx.
Qed.

(** [===] on a primitive that is not NaN is equality of values. *)
Lemma strict_equals_primitive (a b : jsval) :
  primitive a -> a <> JNum NNaN -> (JS.strict_equals a b = true <-> a = b).
Proof.
  intros Hp Hnan.
  destruct a as [| | x | x | x | r xs | r fs], b as [| | y | y | y | r' ys | r' gs];
    simpl in *; try contradiction;
    try (split; [intros H; discriminate H | intros H; discriminate H]);
    try (split; reflexivity).
  - split; [intros H; apply Bool.eqb_prop in H; congruence |].
    intros H. injection H as ->. apply Bool.eqb_reflx.
  - rewrite number_eqb_true. split.
    + intros [-> _]. reflexivity.
    + intros H. injection H as ->. split; [reflexivity | congruence].
  - rewrite String.eqb_eq. split; congruence.
Qed.

Lemma strict_equals_nan (b : jsval) : JS.strict_equals (JNum NNaN) b = false.
Proof. destruct b as [| | y | [y | | y] | y | r ys | r gs]; reflexivity. Qed.

(** [===] on a heap object holds of that same object only. *)
Lemma strict_equals_object (a b : jsval) (r : ref) :
  identity a = Some r ->
  JS.strict_equals a b = true -> identity b = Some r.
Proof.
  destruct a as [| | x | x | x | r1 xs | r1 fs], b as [| | y | y | y | r2 ys | r2 gs];
    simpl; intros Ha H; try discriminate;
    apply Nat.eqb_eq in H; congruence.
Qed.

(** Two sequences with the same elements, evaluated one after the other,
    are different objects: [equals] is false of them.  It is false of NaN
    and NaN as well. *)
Lemma equals_sequences_differ :
  (exists (v_l v_r : jsval) (st1 st2 : interp),
      Strict.evaluate 4 (JArr 3 [Examples.num 1]) Examples.empty_interp = (Ret v_l, st1)
      /\ Strict.evaluate 4 (JArr 4 [Examples.num 1]) st1 = (Ret v_r, st2)
      /\ same_content v_l v_r = true
      /\ fst (Strict.evaluate 5
                (Examples.equals_of (JArr 3 [Examples.num 1]) (JArr 4 [Examples.num 1]))
                Examples.empty_interp)
         = Ret (JBool false))
  /\ same_content (JNum NNaN) (JNum NNaN) = true
  /\ fst (Strict.evaluate 5 (Examples.equals_of (JNum NNaN) (JNum NNaN))
            Examples.empty_interp)
     = Ret (JBool false).
Proof.
  split; [| split; reflexivity].
  eexists _, _, _, _.
  split; [reflexivity |]. split; [reflexivity |]. split; reflexivity.
Qed.

(** C8, as the code has it.  [equals] evaluates [left], then [right], and
    returns the boolean [left === right]: of a primitive other than NaN it is
    true exactly when the other value is the same primitive, type included;
    NaN equals nothing; of an array or mapping it is true only of that very
    object.  So ["A"] and ["a"] differ, [5] equals [5], [5] and ["5"]
    differ. *)
Theorem equals_is_strict_equality :
  (forall (fuel : nat) (r r' : ref) (fields : list (string * jsval))
          (e_l e_r v_l v_r : jsval) (st st1 st2 : interp),
      JS.lookup_field "left" fields = Some e_l ->
      JS.lookup_field "right" fields = Some e_r ->
      Strict.evaluate fuel e_l st = (Ret v_l, st1) ->
      Strict.evaluate fuel e_r st1 = (Ret v_r, st2) ->
      exists b : bool,
        Strict.evaluate (S fuel) (JObj r [("equals", JObj r' fields)]) st
        = (Ret (JBool b), st2)
        /\ (primitive v_l -> v_l <> JNum NNaN -> (b = true <-> v_l = v_r))
        /\ (v_l = JNum NNaN -> b = false)
        /\ (forall o : ref, identity v_l = Some o -> b = true -> identity v_r = Some o))
  /\ (forall (n : nat) (st : interp),
         Strict.evaluate (S (S n)) (Examples.equals_of (JStr "A") (JStr "a")) st
         = (Ret (JBool false), st)
         /\ Strict.evaluate (S (S n))
              (Examples.equals_of (Examples.num 5) (Examples.num 5)) st
            = (Ret (JBool true), st)
         /\ Strict.evaluate (S (S n))
              (Examples.equals_of (Examples.num 5) (JStr "5")) st
            = (Ret (JBool false), st)).
Proof.
  split.
  - intros fuel r r' fields e_l e_r v_l v_r st st1 st2 Hl Hr El Er.
    exists (JS.strict_equals v_l v_r). split; [| split; [| split]].
    + simpl. unfold Strict.dispatch. simpl. unfold Strict.executeEquals.
      simpl. rewrite Hl, Hr. simpl.
      rewrite (bind_ret _ _ _ _ _ El). rewrite (bind_ret _ _ _ _ _ Er).
      reflexivity.
    + apply strict_equals_primitive.
    + intros ->. apply strict_equals_nan.
    + intros o. apply strict_equals_object.
  - intros n st. repeat split.
Qed.

Lemma equals_is_strict_equality_witness :
  exists b : bool,
    Strict.evaluate 2 (JObj 1 [("equals", JObj 2 [("left", JStr "A"); ("right", JStr "a")])])
      Examples.empty_interp
    = (Ret (JBool b), Examples.empty_interp)
    /\ (b = true <-> JStr "A" = JStr "a").
Proof.
  destruct (proj1 equals_is_strict_equality 1 1 2
              [("left", JStr "A"); ("right", JStr "a")]
              (JStr "A") (JStr "a") (JStr "A") (JStr "a")
              Examples.empty_interp Examples.empty_interp Examples.empty_interp
              eq_refl eq_refl eq_refl eq_refl) as [b [H1 [H2 _]]].
  exists b. split; [exact H1 |]. apply H2; [exact I | discriminate].
Defined.

(** ** Scoping of [let] *)


(** Without a saved binding named [__proto__], the saved bindings are the
    variables again. *)
Lemma restore_plain (saved : gmap string jsval) (st : interp) :
  saved !! "__proto__" = None ->
  Strict.restore saved st = (Ret tt, MkInterp saved (next_ref st)).
Proof. intros H. unfold Strict.restore. rewrite H. reflexivity. Qed.





Lemma evaluate_let (fuel : nat) (r : ref) (args : jsval)
    (others : list (string * jsval)) (st : interp) :
  Strict.evaluate (S fuel) (JObj r (("let", args) :: others)) st
  = Strict.executeLet (Strict.evaluate fuel) args st.
Proof. reflexivity. Qed.





(** *** The variables after a [let] *)

Lemma preserves_ret {A : Type} (a : A) : preserves (ret a).
Proof. intros s s' a' _ H. injection H as _ <-. reflexivity. Qed.

Lemma preserves_throw {A : Type} (e : error) : preserves (@throw interp A e).
Proof. intros s s' a _ H. discriminate H. Qed.

Lemma preserves_halts {A : Type} (h : halt) : preserves (@halts interp A h).
Proof. intros s s' a _ H. discriminate H. Qed.

Lemma preserves_bind {A B : Type} (m : M interp A) (k : A -> M interp B) :
  preserves m -> (forall a, preserves (k a)) -> preserves (bind m k).
Proof.
  intros Hm Hk s s' b Hplain H.
  apply bind_ret_inv in H as (a & s1 & H1 & H2).
  pose proof (Hm _ _ _ Hplain H1) as E1.
  assert (Hplain1 : plain_variables s1) by (unfold plain_variables; rewrite E1; exact Hplain).
  rewrite (Hk a _ _ _ Hplain1 H2). exact E1.
Qed.

Lemma preserves_mapM {A B : Type} (f : A -> M interp B) (l : list A) :
  (forall x, preserves (f x)) -> preserves (mapM f l).
Proof.
  intros Hf. induction l as [| x rest IH]; simpl.
  - apply preserves_ret.
  - apply preserves_bind; [apply Hf |]. intros y.
    apply preserves_bind; [exact IH |]. intros ys. apply preserves_ret.
Qed.

Lemma preserves_fresh : preserves Strict.fresh.
Proof. intros s s' a _ H. injection H as _ <-. reflexivity. Qed.

Lemma preserves_values_of (operation : string) (args : jsval) :
  preserves (Strict.values_of operation args).
Proof.
  unfold Strict.values_of.
  destruct (JS.isArray args); [apply preserves_ret |].
  destruct (JS.truthy args && JS.typeof_object args && JS.has_prop "values" args);
    [apply preserves_ret | apply preserves_throw].
Qed.

Lemma preserves_map_values (ev : jsval -> M interp jsval) (values : jsval) :
  (forall e, preserves (ev e)) -> preserves (Strict.map_values ev values).
Proof.
  intros Hev. destruct values; simpl; try apply preserves_throw.
  apply preserves_mapM. exact Hev.
Qed.

(** [executeLet] puts the saved variables back, whatever the evaluation of
    the bindings and of the [in] expression did to them. *)
Lemma executeLet_preserves (ev : jsval -> M interp jsval) (args : jsval) :
  preserves (Strict.executeLet ev args).
Proof.
  unfold Strict.executeLet.
  destruct (negb (JS.truthy args) || negb (JS.typeof_object args));
    [apply preserves_throw |].
  intros s s' a Hplain H.
  apply bind_ret_inv in H as (saved & s0 & H0 & H).
  injection H0 as <- <-.
  destruct (negb (JS.truthy (JS.get_prop "in" args))); [discriminate H |].
  apply bind_ret_inv in H as (u & s1 & _ & H).
  apply bind_ret_inv in H as (result & s2 & _ & H).
  apply bind_ret_inv in H as (u' & s3 & H3 & H).
  rewrite (restore_plain _ _ Hplain) in H3.
  injection H3 as _ <-. injection H as _ <-. reflexivity.
Qed.

Lemma extractValue_preserves (ev : jsval -> M interp jsval) (args : jsval) :
  (forall e, preserves (ev e)) -> preserves (Strict.extractValue ev args).
Proof.
  intros Hev. unfold Strict.extractValue.
  destruct (JS.typeof_object args && negb (JS.is_null args) && negb (JS.isArray args)
            && JS.has_prop "value" args); apply Hev.
Qed.

Ltac preserves_step Hev :=
  first
    [ apply preserves_ret
    | apply preserves_throw
    | apply preserves_halts
    | apply preserves_values_of
    | apply preserves_map_values; exact Hev
    | apply extractValue_preserves; exact Hev
    | apply Hev
    | apply preserves_bind; [| intros ? ] ].

Lemma dispatch_preserves (ev : jsval -> M interp jsval)
    (operationName : string) (operationArgs : jsval) :
  (forall e, preserves (ev e)) ->
  preserves (Strict.dispatch ev operationName operationArgs).
Proof.
  intros Hev. unfold Strict.dispatch.
  repeat match goal with
         | |- preserves (if ?c then _ else _) => destruct c
         end;
    try apply executeLet_preserves;
    try apply preserves_throw;
    unfold Strict.executeConcat, Strict.executeUppercase, Strict.executeLowercase,
      Strict.executeLength, Strict.executeSubstring, Strict.executeAnd,
      Strict.executeOr, Strict.executeNot, Strict.executeEquals, Strict.executeIf;
    repeat match goal with
           | |- preserves (if ?c then _ else _) => destruct c
           | |- preserves (match ?e with _ => _ end) => destruct e
           | |- _ => preserves_step Hev
           end.
Qed.

(** Every evaluation that returns leaves the variables as they were. *)
Lemma evaluate_preserves (fuel : nat) (expression : jsval) :
  preserves (Strict.evaluate fuel expression).
Proof.
  revert expression. induction fuel as [| fuel IH]; intros expression.
  - apply preserves_halts.
  - destruct expression as [| | b | x | s | r items | r [| [name args] others]]; simpl;
      try apply preserves_ret.
    + destruct (JS.starts_with_dollar s); [| apply preserves_ret].
      apply preserves_bind.
      * intros st st' a _ H. injection H as _ <-. reflexivity.
      * intros vars. destruct (vars !! JS.drop_first s); [apply preserves_ret |].
        destruct (JS.inherits (JS.drop_first s));
          [apply preserves_halts | apply preserves_throw].
    + apply preserves_bind; [apply preserves_fresh |]. intros r'.
      apply preserves_bind; [apply preserves_mapM; exact IH |]. intros vs.
      apply preserves_ret.
    + apply dispatch_preserves. exact IH.
Qed.


(** A variable named [__proto__] does not come back either.  The saved
    bindings are assigned one by one, and the assignment of [__proto__]
    reaches the setter of [Object.prototype], which ignores the number 5:
    after a [let] that binds [a] only, the variable is gone. *)
Lemma let_drops_proto_variable :
  Strict.evaluate 3 Examples.let_inner Examples.proto_interp
  = (Ret (Examples.num 2), MkInterp ∅ 100)
  /\ variables (snd (Strict.evaluate 3 Examples.let_inner Examples.proto_interp))
     <> variables Examples.proto_interp.
Proof.
  split; [reflexivity |].
  intros H.
  assert (H' : variables (snd (Strict.evaluate 3 Examples.let_inner
                                 Examples.proto_interp)) !! "__proto__"
               = variables Examples.proto_interp !! "__proto__")
    by (rewrite H; reflexivity).
  discriminate H'.
Qed.



(** ** The diagnostic evaluator completes *)

(** *** Depth of sub-expressions *)

Lemma list_max_In (n : nat) (l : list nat) : In n l -> (n <= list_max l)%nat.
Proof.
  induction l as [| m rest IH]; simpl; [contradiction |].
  intros [-> | H]; [lia |]. specialize (IH H). lia.
Qed.

Lemma depth_item (r : ref) (items : list jsval) (x : jsval) :
  In x items -> (depth x < depth (JArr r items))%nat.
Proof.
  intros H. simpl. apply Nat.lt_succ_r. apply list_max_In.
  apply in_map_iff. exists x. split; [reflexivity | exact H].
Qed.

Lemma depth_field (r : ref) (fields : list (string * jsval)) (k : string) (x : jsval) :
  In (k, x) fields -> (depth x < depth (JObj r fields))%nat.
Proof.
  intros H. simpl. apply Nat.lt_succ_r. apply list_max_In.
  apply in_map_iff. exists (k, x). split; [reflexivity | exact H].
Qed.

Lemma lookup_field_In (k : string) (fields : list (string * jsval)) (x : jsval) :
  JS.lookup_field k fields = Some x -> exists k', In (k', x) fields.
Proof.
  induction fields as [| [k' y] rest IH]; simpl; [discriminate |].
  destruct (String.eqb k' k).
  - intros H. injection H as ->. exists k'. left. reflexivity.
  - intros H. destruct (IH H) as [k'' Hin]. exists k''. right. exact Hin.
Qed.

Lemma depth_get_prop_object (k : string) (r : ref) (fields : list (string * jsval)) :
  (depth (JS.get_prop k (JObj r fields)) < depth (JObj r fields))%nat.
Proof.
  unfold JS.get_prop. destruct (JS.lookup_field k fields) as [x |] eqn:H.
  - destruct (lookup_field_In _ _ _ H) as [k' Hin]. exact (depth_field _ _ _ _ Hin).
  - simpl. lia.
Qed.

Lemma depth_get_prop (k : string) (o : jsval) :
  (depth (JS.get_prop k o) <= depth o)%nat.
Proof.
  destruct o as [| | b | x | s | r items | r fields]; simpl; try lia.
  pose proof (depth_get_prop_object k r fields) as H. simpl in H. lia.
Qed.

Lemma indexed_from_In {A : Type} (i j : nat) (l : list A) (x : A) :
  In (j, x) (JS.indexed_from i l) -> In x l.
Proof.
  revert i. induction l as [| y rest IH]; intros i; simpl; [contradiction |].
  intros [H | H]; [left; congruence | right; exact (IH _ H)].
Qed.

Lemma depth_entry (o : jsval) (k : string) (x : jsval) :
  In (k, x) (JS.entries o) -> (depth x < depth o)%nat.
Proof.
  destruct o as [| | b | n | s | r items | r fields]; simpl; try contradiction.
  - intros H. apply in_map_iff in H as [[i y] [Heq Hin]].
    injection Heq as _ ->. apply Nat.lt_succ_r. apply list_max_In.
    apply in_map_iff. exists x. split; [reflexivity |].
    exact (indexed_from_In _ _ _ _ Hin).
  - intros H. exact (depth_field r fields k x H).
Qed.

(** *** Termination of the combinators *)

Section Termination.

Context {S : Type}.

Lemma returns_terminates {A : Type} (m : M S A) : returns m -> terminates m.
Proof. intros H s. destruct (H s) as (a & s' & ->). discriminate. Qed.

Lemma terminates_ret {A : Type} (a : A) : terminates (@ret S A a).
Proof. intros s. discriminate. Qed.

Lemma terminates_throw {A : Type} (e : error) : terminates (@throw S A e).
Proof. intros s. discriminate. Qed.

Lemma terminates_bind {A B : Type} (m : M S A) (k : A -> M S B) :
  terminates m -> (forall a, terminates (k a)) -> terminates (bind m k).
Proof.
  intros Hm Hk s. unfold bind. specialize (Hm s).
  destruct (m s) as [[a | e |] s1]; simpl in *.
  - apply Hk.
  - discriminate.
  - intros H. apply Hm. injection H as ->. reflexivity.
Qed.

Lemma terminates_mapM {A B : Type} (f : A -> M S B) (l : list A) :
  (forall x, In x l -> terminates (f x)) -> terminates (mapM f l).
Proof.
  induction l as [| x rest IH]; intros Hf; simpl.
  - apply terminates_ret.
  - apply terminates_bind; [apply Hf; left; reflexivity |]. intros y.
    apply terminates_bind.
    + apply IH. intros z Hz. apply Hf. right. exact Hz.
    + intros ys. apply terminates_ret.
Qed.

Lemma terminates_foldM {A B : Type} (f : B -> A -> M S B) (l : list A) (b : B) :
  (forall b' x, In x l -> terminates (f b' x)) -> terminates (foldM f l b).
Proof.
  revert b. induction l as [| x rest IH]; intros b Hf; simpl.
  - apply terminates_ret.
  - apply terminates_bind; [apply Hf; left; reflexivity |]. intros b'.
    apply IH. intros b'' z Hz. apply Hf. right. exact Hz.
Qed.

(** A [try] block that ends, with a value or an exception, makes the
    [try]/[catch] return. *)
Lemma try_catch_returns {A : Type} (body : M S A) (handler : A) :
  terminates body -> inside body -> returns (try_catch body handler).
Proof.
  intros H Hi s. unfold try_catch. specialize (H s). specialize (Hi s).
  destruct (body s) as [[a | e | h] s1]; simpl in *.
  - exists a, s1. reflexivity.
  - exists handler, s1. reflexivity.
  - exfalso. apply H. rewrite (Hi h eq_refl). reflexivity.
Qed.

Lemma returns_inside {A : Type} (m : M S A) : returns m -> inside m.
Proof. intros H s h Hh. destruct (H s) as (a & s' & E). rewrite E in Hh. discriminate Hh. Qed.

Lemma inside_ret {A : Type} (a : A) : inside (@ret S A a).
Proof. intros s h H. discriminate H. Qed.

Lemma inside_throw {A : Type} (e : error) : inside (@throw S A e).
Proof. intros s h H. discriminate H. Qed.

Lemma inside_out_of_fuel {A : Type} : inside (@out_of_fuel S A).
Proof. intros s h H. injection H as <-. reflexivity. Qed.

Lemma inside_bind {A B : Type} (m : M S A) (k : A -> M S B) :
  inside m -> (forall a, inside (k a)) -> inside (bind m k).
Proof.
  intros Hm Hk s h. unfold bind. specialize (Hm s).
  destruct (m s) as [[a | e | h'] s1]; simpl in *.
  - apply Hk.
  - discriminate.
  - intros H. injection H as <-. apply Hm. reflexivity.
Qed.

Lemma inside_mapM {A B : Type} (f : A -> M S B) (l : list A) :
  (forall x, inside (f x)) -> inside (mapM f l).
Proof.
  intros Hf. induction l as [| x rest IH]; simpl.
  - apply inside_ret.
  - apply inside_bind; [apply Hf |]. intros y.
    apply inside_bind; [exact IH |]. intros ys. apply inside_ret.
Qed.

Lemma inside_foldM {A B : Type} (f : B -> A -> M S B) (l : list A) (b : B) :
  (forall b' x, inside (f b' x)) -> inside (foldM f l b).
Proof.
  intros Hf. revert b. induction l as [| x rest IH]; intros b; simpl.
  - apply inside_ret.
  - apply inside_bind; [apply Hf |]. intros b'. apply IH.
Qed.

Lemma inside_try_catch {A : Type} (body : M S A) (handler : A) :
  inside body -> inside (try_catch body handler).
Proof.
  intros H s h. unfold try_catch. specialize (H s).
  destruct (body s) as [[a | e | h'] s1]; simpl in *; try discriminate.
  exact (H h).
Qed.

Lemma try_catch_no_throw {A : Type} (body : M S A) (handler : A) (s : S) (e : error) :
  fst (try_catch body handler s) <> Throw e.
Proof.
  unfold try_catch. destruct (body s) as [[a | e' |] s1]; discriminate.
Qed.

End Termination.

Lemma terminates_object_entries (v : jsval) : terminates (Coverage.object_entries v).
Proof. destruct v; intros st; discriminate. Qed.

Lemma terminates_in_operator (k : string) (v : jsval) :
  terminates (Coverage.in_operator k v).
Proof. destruct v; intros st; discriminate. Qed.

Lemma object_entries_ret (v : jsval) (l : list (string * jsval)) (s s' : coverage) :
  Coverage.object_entries v s = (Ret l, s') -> l = JS.entries v.
Proof. destruct v; simpl; intros H; try discriminate; injection H as <- _; reflexivity. Qed.

(** *** The diagnostic evaluator stays within the embedding *)

Lemma inside_object_entries (v : jsval) : inside (Coverage.object_entries v).
Proof. destruct v; intros st h H; discriminate H. Qed.

Lemma inside_in_operator (k : string) (v : jsval) : inside (Coverage.in_operator k v).
Proof. destruct v; intros st h H; discriminate H. Qed.

Lemma inside_fresh : inside Coverage.fresh.
Proof. intros st h H. discriminate H. Qed.

Lemma inside_markCovered (path : string) : inside (Coverage.markCovered path).
Proof. intros st h H. discriminate H. Qed.

Ltac inside_auto rec_inside :=
  repeat match goal with
         | |- inside (ret _) => apply inside_ret
         | |- inside (throw _) => apply inside_throw
         | |- inside (Coverage.in_operator _ _) => apply inside_in_operator
         | |- inside (Coverage.object_entries _) => apply inside_object_entries
         | |- inside (Coverage.markCovered _) => apply inside_markCovered
         | |- inside Coverage.fresh => apply inside_fresh
         | |- inside (try_catch _ _) => apply inside_try_catch
         | |- inside (bind _ _) => apply inside_bind; [| intros ?]
         | |- inside (mapM _ _) => apply inside_mapM; intros ?
         | |- inside (foldM _ _ _) => apply inside_foldM; intros ? ?
         | |- inside (if ?c then _ else _) => destruct c
         | |- inside (match ?e with _ => _ end) => destruct e
         | |- inside _ => apply rec_inside
         end.

Lemma visit_inside
    (rec : jsval -> gmap string jsval -> bool -> string -> M coverage jsval)
    (expr : jsval) (context : gmap string jsval) (tracker : bool) (p : string) :
  (forall e c t q, inside (rec e c t q)) ->
  inside (Coverage.visit rec expr context tracker p).
Proof.
  intros Hrec.
  unfold Coverage.visit, Coverage.reduce, Coverage.reduce_equals, Coverage.reduce_let_in.
  inside_auto Hrec.
Qed.

(** Nothing the diagnostic evaluator does is outside the embedding. *)
Lemma tryEvaluate_inside (fuel : nat) (expr : jsval) (context : gmap string jsval)
    (tracker : bool) (p : string) :
  inside (Coverage.tryEvaluate fuel expr context tracker p).
Proof.
  revert expr context tracker p. induction fuel as [| fuel IH]; intros; simpl.
  - apply inside_out_of_fuel.
  - apply visit_inside. exact IH.
Qed.

Section Completion.

Variable rec : jsval -> gmap string jsval -> bool -> string -> M coverage jsval.
Variable bound : nat.
Hypothesis rec_inside :
  forall (e : jsval) (context : gmap string jsval) (tracker : bool) (p : string),
    inside (rec e context tracker p).
Hypothesis rec_returns :
  forall (e : jsval) (context : gmap string jsval) (tracker : bool) (p : string),
    (depth e < bound)%nat -> returns (rec e context tracker p).

Lemma rec_terminates (e : jsval) (context : gmap string jsval) (tracker : bool)
    (p : string) :
  (depth e < bound)%nat -> terminates (rec e context tracker p).
Proof. intros H. apply returns_terminates. apply rec_returns. exact H. Qed.

Lemma reduce_let_in_terminates (r : ref) (fields : list (string * jsval))
    (key : string) (keys : list string) (context : gmap string jsval)
    (tracker : bool) (pathPrefix : string) :
  (depth (JObj r fields) <= bound)%nat ->
  terminates (Coverage.reduce_let_in rec (JObj r fields) key keys context tracker pathPrefix).
Proof.
  intros Hd. unfold Coverage.reduce_let_in.
  pose proof (depth_get_prop_object "let" r fields) as Hlet.
  pose proof (depth_get_prop_object "in" r fields) as Hin.
  destruct (JS.includes "let" keys && JS.includes "in" keys); [| apply terminates_ret].
  apply terminates_bind.
  - destruct (JS.typeof_object (JS.get_prop "let" (JObj r fields))
              && negb (JS.isArray (JS.get_prop "let" (JObj r fields))));
      [| apply terminates_ret].
    intros s. unfold bind.
    destruct (Coverage.object_entries (JS.get_prop "let" (JObj r fields)) s)
      as [[bindings | e |] s1] eqn:He; simpl; try discriminate.
    + apply object_entries_ret in He. subst bindings.
      apply terminates_foldM. intros ctx [bindName bindValue] Hb.
      apply terminates_bind; [| intros v; apply terminates_ret].
      apply rec_terminates. simpl. apply depth_entry in Hb. lia.
    + pose proof (terminates_object_entries (JS.get_prop "let" (JObj r fields)) s) as Ht.
      rewrite He in Ht. intros Hh. apply Ht. simpl in *. injection Hh as ->. reflexivity.
  - intros newContext. apply rec_terminates. lia.
Qed.

Lemma reduce_equals_terminates (r : ref) (fields : list (string * jsval))
    (key : string) (value : jsval) (keys : list string)
    (context : gmap string jsval) (tracker : bool) (pathPrefix : string) :
  (depth (JObj r fields) <= bound)%nat ->
  (depth value < depth (JObj r fields))%nat ->
  terminates (Coverage.reduce_equals rec (JObj r fields) key value keys context tracker
                pathPrefix).
Proof.
  intros Hd Hv. unfold Coverage.reduce_equals.
  pose proof (reduce_let_in_terminates r fields key keys context tracker pathPrefix Hd)
    as Hrest.
  destruct (String.eqb key "equals" && JS.typeof_object value); [| exact Hrest].
  apply terminates_bind; [apply terminates_in_operator |]. intros hasLeft.
  apply terminates_bind.
  - destruct hasLeft; [apply terminates_in_operator | apply terminates_ret].
  - intros hasRight. destruct (hasLeft && hasRight); [| exact Hrest].
    pose proof (depth_get_prop "left" value) as Hl.
    pose proof (depth_get_prop "right" value) as Hr.
    apply terminates_bind; [apply rec_terminates; lia |]. intros left.
    apply terminates_bind; [apply rec_terminates; lia |]. intros right.
    apply terminates_ret.
Qed.

Lemma reduce_terminates (expr : jsval) (context : gmap string jsval) (tracker : bool)
    (pathPrefix : string) :
  (depth expr <= bound)%nat ->
  terminates (Coverage.reduce rec expr context tracker pathPrefix).
Proof.
  intros Hd.
  destruct expr as [| | b | x | s | r items | r fields]; try apply terminates_ret.
  - unfold Coverage.reduce.
    apply terminates_bind; [intros s; discriminate |]. intros r'.
    apply terminates_bind; [| intros vs; apply terminates_ret].
    apply terminates_mapM. intros [i x] Hx. apply rec_terminates.
    apply indexed_from_In in Hx. pose proof (depth_item r items x Hx). simpl in *. lia.
  - unfold Coverage.reduce. destruct fields as [| [key value] others] eqn:Hf;
      [apply terminates_ret |].
    rewrite <- Hf in *.
    assert (Hv : (depth value < depth (JObj r fields))%nat).
    { apply (depth_field r fields key value). rewrite Hf. left. reflexivity. }
    pose proof (depth_get_prop_object "if" r fields) as Hif.
    pose proof (depth_get_prop_object "then" r fields) as Hthen.
    pose proof (depth_get_prop_object "else" r fields) as Helse.
    destruct (String.eqb key "get" && JS.typeof_string value).
    { destruct (context !! JS.to_string value) as [v |];
        [destruct (JS.is_undefined v) |]; apply terminates_ret. }
    destruct (String.eqb key "concat" && JS.isArray value) eqn:Hc.
    { apply terminates_bind; [| intros parts; apply terminates_ret].
      apply terminates_mapM. intros [i x] Hx. apply rec_terminates.
      apply indexed_from_In in Hx.
      destruct value as [| | ? | ? | ? | r' items | ? ?]; simpl in Hx; try contradiction.
      pose proof (depth_item r' items x Hx). simpl in *. lia. }
    destruct (String.eqb key "uppercase").
    { apply terminates_bind; [apply rec_terminates; lia |].
      intros v. apply terminates_ret. }
    destruct (String.eqb key "lowercase").
    { apply terminates_bind; [apply rec_terminates; lia |].
      intros v. apply terminates_ret. }
    destruct (JS.includes "if" (JS.keys fields)
              && (JS.includes "then" (JS.keys fields) || JS.includes "else" (JS.keys fields))).
    { apply terminates_bind; [apply rec_terminates; lia |]. intros condition.
      destruct (JS.truthy condition).
      - destruct (JS.is_undefined (JS.get_prop "then" (JObj r fields)));
          [apply terminates_ret | apply rec_terminates; lia].
      - destruct (JS.is_undefined (JS.get_prop "else" (JObj r fields)));
          [apply terminates_ret | apply rec_terminates; lia]. }
    apply reduce_equals_terminates; assumption.
Qed.

Lemma visit_returns (expr : jsval) (context : gmap string jsval) (tracker : bool)
    (pathPrefix : string) :
  (depth expr <= bound)%nat ->
  returns (Coverage.visit rec expr context tracker pathPrefix).
Proof.
  intros Hd s. unfold Coverage.visit.
  set (m := if tracker then Coverage.markCovered _ else ret tt).
  assert (Hm : exists s1, m s = (Ret tt, s1)).
  { subst m. destruct tracker; eexists; reflexivity. }
  destruct Hm as [s1 Hm]. rewrite (bind_ret _ _ _ _ _ Hm).
  apply try_catch_returns; [apply reduce_terminates; exact Hd |].
  unfold Coverage.reduce, Coverage.reduce_equals, Coverage.reduce_let_in.
  inside_auto rec_inside.
Qed.

End Completion.

(** With a recursion bound above the depth of the expression, the
    diagnostic evaluator returns a value. *)
Lemma tryEvaluate_returns (fuel : nat) (expr : jsval) (context : gmap string jsval)
    (tracker : bool) (pathPrefix : string) :
  (depth expr < fuel)%nat ->
  returns (Coverage.tryEvaluate fuel expr context tracker pathPrefix).
Proof.
  revert expr context tracker pathPrefix.
  induction fuel as [| fuel IH]; intros expr context tracker pathPrefix Hd; [lia |].
  simpl. apply visit_returns with (bound := fuel);
    [apply tryEvaluate_inside | exact IH | lia].
Qed.

Lemma visit_no_throw (rec : jsval -> gmap string jsval -> bool -> string -> M coverage jsval)
    (expr : jsval) (context : gmap string jsval) (tracker : bool) (pathPrefix : string)
    (s : coverage) (e : error) :
  fst (Coverage.visit rec expr context tracker pathPrefix s) <> Throw e.
Proof.
  unfold Coverage.visit.
  set (m := if tracker then Coverage.markCovered _ else ret tt).
  assert (Hm : exists s1, m s = (Ret tt, s1)).
  { subst m. destruct tracker; eexists; reflexivity. }
  destruct Hm as [s1 Hm]. rewrite (bind_ret _ _ _ _ _ Hm).
  apply try_catch_no_throw.
Qed.

(** C3.  The diagnostic evaluator throws nothing to its caller, and with a
    recursion bound above the depth of the expression it returns a value.
    An exception thrown while a node is reduced, by the node or below it,
    is caught by that node's own call, which returns the placeholder
    [<error>]; the elements after a failing element are still evaluated. *)
Theorem diagnostic_never_raises :
  (forall (fuel : nat) (expr : jsval) (context : gmap string jsval) (tracker : bool)
          (pathPrefix : string) (s : coverage) (e : error),
      fst (Coverage.tryEvaluate fuel expr context tracker pathPrefix s) <> Throw e)
  /\ (forall (fuel : nat) (expr : jsval) (context : gmap string jsval) (tracker : bool)
             (pathPrefix : string) (s : coverage),
         (depth expr < fuel)%nat ->
         exists (v : jsval) (s' : coverage),
           Coverage.tryEvaluate fuel expr context tracker pathPrefix s = (Ret v, s'))
  /\ (forall (fuel : nat) (expr : jsval) (context : gmap string jsval) (tracker : bool)
             (pathPrefix : string) (s s1 s' : coverage) (e : error),
         (if tracker
          then Coverage.markCovered (Coverage.generatePathId expr pathPrefix)
          else ret tt) s = (Ret tt, s1) ->
         Coverage.reduce (Coverage.tryEvaluate fuel) expr context tracker pathPrefix s1
         = (Throw e, s') ->
         Coverage.tryEvaluate (S fuel) expr context tracker pathPrefix s
         = (Ret (JStr "<error>"), s'))
  /\ (forall (context : gmap string jsval) (top : ref),
         fst (Coverage.evaluateWithCoverage 3 Examples.failing_sibling context top)
         = Ret (JArr top [JStr "<error>"; Examples.num 1])).
Proof.
  split; [| split; [| split]].
  - intros fuel expr context tracker pathPrefix s e.
    destruct fuel as [| fuel]; [discriminate |]. apply visit_no_throw.
  - intros fuel expr context tracker pathPrefix s Hd.
    apply tryEvaluate_returns. exact Hd.
  - intros fuel expr context tracker pathPrefix s s1 s' e Hm Hr.
    simpl. unfold Coverage.visit. rewrite (bind_ret _ _ _ _ _ Hm).
    unfold try_catch. rewrite Hr. reflexivity.
  - intros context top. reflexivity.
Qed.

Lemma diagnostic_never_raises_witness :
  exists (v : jsval) (s' : coverage),
    Coverage.tryEvaluate 3 Examples.failing_sibling ∅ true "root" Examples.new_tracker
    = (Ret v, s').
Proof.
  apply (proj1 (proj2 diagnostic_never_raises)). simpl. lia.
Defined.

(** ** Which paths a diagnostic pass records *)

Lemma append_cons (x : ascii) (a b : string) :
  String x a ++ b = String x (a ++ b).
Proof. reflexivity. Qed.

Lemma append_empty (b : string) : EmptyString ++ b = b.
Proof. reflexivity. Qed.

Lemma append_assoc (a b c : string) : (a ++ b) ++ c = a ++ (b ++ c).
Proof.
  induction a as [| x a IH]; [reflexivity |].
  rewrite !append_cons, IH. reflexivity.
Qed.

Lemma append_inj_l (p a b : string) : p ++ a = p ++ b -> a = b.
Proof.
  induction p as [| x p IH]; intros H; [exact H |].
  rewrite !append_cons in H. injection H as H. exact (IH H).
Qed.

Lemma grows_below_refl (p : string) (s : coverage) : grows_below p s s.
Proof. intros x Hx. left. exact Hx. Qed.

Lemma grows_below_trans (p : string) (s1 s2 s3 : coverage) :
  grows_below p s1 s2 -> grows_below p s2 s3 -> grows_below p s1 s3.
Proof.
  intros H12 H23 x Hx. destruct (H23 x Hx) as [H | H]; [exact (H12 x H) | right; exact H].
Qed.

Lemma grows_below_weaken (p q : string) (s s' : coverage) :
  grows_below (p ++ q) s s' -> grows_below p s s'.
Proof.
  intros H x Hx. destruct (H x Hx) as [Hs | [t ->]]; [left; exact Hs |].
  right. exists (q ++ t). apply append_assoc.
Qed.

Lemma records_ret {A : Type} (p : string) (a : A) : records_below p (ret a).
Proof. intros s. apply grows_below_refl. Qed.

Lemma records_throw {A : Type} (p : string) (e : error) : records_below p (@throw coverage A e).
Proof. intros s. apply grows_below_refl. Qed.

Lemma records_out_of_fuel {A : Type} (p : string) : records_below p (@out_of_fuel coverage A).
Proof. intros s. apply grows_below_refl. Qed.

Lemma records_bind {A B : Type} (p : string) (m : M coverage A) (k : A -> M coverage B) :
  records_below p m -> (forall a, records_below p (k a)) -> records_below p (bind m k).
Proof.
  intros Hm Hk s. unfold bind. specialize (Hm s).
  destruct (m s) as [[a | e |] s1]; simpl in *; try exact Hm.
  exact (grows_below_trans p s s1 _ Hm (Hk a s1)).
Qed.

Lemma records_weaken {A : Type} (p q : string) (m : M coverage A) :
  records_below (p ++ q) m -> records_below p m.
Proof. intros H s. apply grows_below_weaken with (q := q). apply H. Qed.

Lemma records_try_catch {A : Type} (p : string) (body : M coverage A) (handler : A) :
  records_below p body -> records_below p (try_catch body handler).
Proof.
  intros H s. unfold try_catch. specialize (H s).
  destruct (body s) as [[a | e |] s1]; exact H.
Qed.

Lemma records_mapM {A B : Type} (p : string) (f : A -> M coverage B) (l : list A) :
  (forall x, records_below p (f x)) -> records_below p (mapM f l).
Proof.
  intros Hf. induction l as [| x rest IH]; simpl.
  - intros s. apply grows_below_refl.
  - apply records_bind; [apply Hf |]. intros y.
    apply records_bind; [exact IH |]. intros ys s. apply grows_below_refl.
Qed.

Lemma records_foldM {A B : Type} (p : string) (f : B -> A -> M coverage B) (l : list A) (b : B) :
  (forall b' x, records_below p (f b' x)) -> records_below p (foldM f l b).
Proof.
  intros Hf. revert b. induction l as [| x rest IH]; intros b; simpl.
  - intros s. apply grows_below_refl.
  - apply records_bind; [apply Hf |]. intros b'. apply IH.
Qed.

Lemma records_fresh (p : string) : records_below p Coverage.fresh.
Proof. intros s x Hx. left. exact Hx. Qed.

Lemma records_object_entries (p : string) (v : jsval) :
  records_below p (Coverage.object_entries v).
Proof. destruct v; intros st; apply grows_below_refl. Qed.

Lemma records_in_operator (p k : string) (v : jsval) :
  records_below p (Coverage.in_operator k v).
Proof. destruct v; intros st; apply grows_below_refl. Qed.

(** The path identifier of a node begins with the prefix of the node. *)
Lemma generatePathId_prefix (expr : jsval) (p : string) :
  exists t : string, Coverage.generatePathId expr p = p ++ t.
Proof. destruct expr; simpl; eexists; reflexivity. Qed.

Lemma records_markCovered (expr : jsval) (p : string) :
  records_below p (Coverage.markCovered (Coverage.generatePathId expr p)).
Proof.
  intros s x Hx. simpl in Hx. apply elem_of_union in Hx as [Hx | Hx].
  - apply elem_of_singleton in Hx. right. subst x. apply generatePathId_prefix.
  - left. exact Hx.
Qed.

Section RecordingNode.

Variable rec : jsval -> gmap string jsval -> bool -> string -> M coverage jsval.
Hypothesis rec_records :
  forall (e : jsval) (context : gmap string jsval) (tracker : bool) (q : string),
    records_below q (rec e context tracker q).

Lemma rec_records_child (e : jsval) (context : gmap string jsval) (tracker : bool)
    (p q : string) :
  records_below p (rec e context tracker (p ++ q)).
Proof. apply records_weaken with (q := q). apply rec_records. Qed.

Ltac records_auto :=
  repeat match goal with
         | |- records_below _ (ret _) => apply records_ret
         | |- records_below _ (throw _) => apply records_throw
         | |- records_below _ (rec _ _ _ (_ ++ _)) => apply rec_records_child
         | |- records_below _ (Coverage.in_operator _ _) => apply records_in_operator
         | |- records_below _ (Coverage.object_entries _) => apply records_object_entries
         | |- records_below _ Coverage.fresh => apply records_fresh
         | |- records_below _ (bind _ _) => apply records_bind; [| intros ?]
         | |- records_below _ (mapM _ _) => apply records_mapM; intros ?
         | |- records_below _ (foldM _ _ _) => apply records_foldM; intros ? ?
         | |- records_below _ (if ?c then _ else _) => destruct c
         | |- records_below _ (match ?e with _ => _ end) => destruct e
         end.

Lemma reduce_records (expr : jsval) (context : gmap string jsval) (tracker : bool)
    (p : string) :
  records_below p (Coverage.reduce rec expr context tracker p).
Proof.
  unfold Coverage.reduce, Coverage.reduce_equals, Coverage.reduce_let_in,
    Coverage.index_path.
  records_auto.
Qed.

Lemma visit_records (expr : jsval) (context : gmap string jsval) (tracker : bool)
    (p : string) :
  records_below p (Coverage.visit rec expr context tracker p).
Proof.
  unfold Coverage.visit. apply records_bind.
  - destruct tracker; [apply records_markCovered | apply records_ret].
  - intros _. apply records_try_catch. apply reduce_records.
Qed.

End RecordingNode.

(** Every path a call of [tryEvaluate] records begins with the prefix the
    call was given. *)
Lemma tryEvaluate_records (fuel : nat) (expr : jsval) (context : gmap string jsval)
    (tracker : bool) (p : string) :
  records_below p (Coverage.tryEvaluate fuel expr context tracker p).
Proof.
  revert expr context tracker p. induction fuel as [| fuel IH]; intros; simpl.
  - apply records_out_of_fuel.
  - apply visit_records. exact IH.
Qed.

Lemma try_catch_state {S A : Type} (body : M S A) (handler : A) (s : S) :
  snd (try_catch body handler s) = snd (body s).
Proof. unfold try_catch. destruct (body s) as [[a | e |] s1]; reflexivity. Qed.

(** Paths below different keys of one node are different. *)
Ltac paths_differ H :=
  rewrite ?append_assoc in H; apply append_inj_l in H;
  rewrite ?append_cons in H; discriminate H.

(** The reduction of a mapping read as a conditional: the condition, then
    one branch. *)
Lemma reduce_reads_as_if
    (rec : jsval -> gmap string jsval -> bool -> string -> M coverage jsval)
    (r : ref) (fields : list (string * jsval)) (context : gmap string jsval)
    (tracker : bool) (p : string) :
  reads_as_if fields = true ->
  Coverage.reduce rec (JObj r fields) context tracker p
  = (condition <- rec (JS.get_prop "if" (JObj r fields)) context tracker (p ++ ".if") ;;
     if JS.truthy condition then
       if JS.is_undefined (JS.get_prop "then" (JObj r fields)) then ret JNull
       else rec (JS.get_prop "then" (JObj r fields)) context tracker (p ++ ".then")
     else
       if JS.is_undefined (JS.get_prop "else" (JObj r fields)) then ret JNull
       else rec (JS.get_prop "else" (JObj r fields)) context tracker (p ++ ".else")).
Proof.
  intros H. destruct fields as [| [key value] others] eqn:Hf; [discriminate H |].
  rewrite <- Hf in *. unfold reads_as_if in H. rewrite Hf in H. rewrite <- Hf in H.
  cbv zeta in H.
  repeat (apply andb_true_iff in H as [H ?]).
  repeat match goal with
         | Hn : negb _ = true |- _ => apply negb_true_iff in Hn
         end.
  unfold Coverage.reduce. rewrite Hf. rewrite <- Hf. cbv zeta.
  repeat match goal with
         | Hc : ?c = _ |- context [if ?c then _ else _] => rewrite Hc
         end.
  reflexivity.
Qed.

Lemma entered_paths (expr : jsval) (tracker : bool) (p : string) (s : coverage)
    (x : string) :
  x ∈ coveredPaths (entered expr tracker p s) ->
  x ∈ coveredPaths s \/ x = Coverage.generatePathId expr p.
Proof.
  unfold entered. destruct tracker; simpl; [| intros H; left; exact H].
  intros H. apply elem_of_union in H as [H | H]; [| left; exact H].
  apply elem_of_singleton in H. right. exact H.
Qed.

Lemma tryEvaluate_enters (fuel : nat) (expr : jsval) (context : gmap string jsval)
    (tracker : bool) (p : string) (s : coverage) :
  Coverage.tryEvaluate (S fuel) expr context tracker p s
  = try_catch (Coverage.reduce (Coverage.tryEvaluate fuel) expr context tracker p)
      (JStr "<error>") (entered expr tracker p s).
Proof. unfold entered. destruct tracker; reflexivity. Qed.

(** The paths a branch adds lie below the prefix of the branch. *)
Lemma branch_records (fuel : nat) (b : jsval) (context : gmap string jsval)
    (tracker : bool) (q : string) :
  records_below q
    (if JS.is_undefined b then ret JNull
     else Coverage.tryEvaluate fuel b context tracker q).
Proof. destruct (JS.is_undefined b); [apply records_ret | apply tryEvaluate_records]. Qed.

(** What a conditional adds to the tracker: the path of the node, paths below
    the condition and, when the condition has returned, paths below the
    branch it selects. *)
Lemma conditional_paths (fuel : nat) (r : ref) (fields : list (string * jsval))
    (context : gmap string jsval) (tracker : bool) (p : string) (s : coverage)
    (x : string) :
  reads_as_if fields = true ->
  x ∈ coveredPaths (snd (Coverage.tryEvaluate (S fuel) (JObj r fields) context tracker p s)) ->
  x ∈ coveredPaths s
  \/ x = Coverage.generatePathId (JObj r fields) p
  \/ below (p ++ ".if") x
  \/ exists (vc : jsval) (s1 : coverage),
       Coverage.tryEvaluate fuel (JS.get_prop "if" (JObj r fields)) context tracker
         (p ++ ".if") (entered (JObj r fields) tracker p s)
       = (Ret vc, s1)
       /\ below (p ++ (if JS.truthy vc then ".then" else ".else")) x.
Proof.
  intros Hshape Hx.
  rewrite tryEvaluate_enters, try_catch_state in Hx.
  rewrite (reduce_reads_as_if _ _ _ _ _ _ Hshape) in Hx.
  set (s0 := entered (JObj r fields) tracker p s) in *.
  pose proof (tryEvaluate_records fuel (JS.get_prop "if" (JObj r fields)) context tracker
                (p ++ ".if") s0) as Hcond.
  assert (Hs1 : forall s1 : coverage,
             snd (Coverage.tryEvaluate fuel (JS.get_prop "if" (JObj r fields)) context
                    tracker (p ++ ".if") s0) = s1 ->
             x ∈ coveredPaths s1 ->
             x ∈ coveredPaths s
             \/ x = Coverage.generatePathId (JObj r fields) p
             \/ below (p ++ ".if") x).
  { intros s1 E H1. rewrite E in Hcond. destruct (Hcond x H1) as [H0 | H0].
    - destruct (entered_paths _ _ _ _ _ H0) as [H | H]; [left | right; left]; exact H.
    - right. right. exact H0. }
  unfold bind in Hx.
  destruct (Coverage.tryEvaluate fuel (JS.get_prop "if" (JObj r fields)) context tracker
              (p ++ ".if") s0) as [[vc | e | h] s1] eqn:E.
  - destruct (JS.truthy vc) eqn:Hvc.
    + destruct (branch_records fuel (JS.get_prop "then" (JObj r fields)) context tracker
                  (p ++ ".then") s1 x Hx) as [H1 | H1].
      * destruct (Hs1 s1 eq_refl H1) as [H | [H | H]]; auto.
      * right. right. right. exists vc, s1. split; [reflexivity |]. rewrite Hvc. exact H1.
    + destruct (branch_records fuel (JS.get_prop "else" (JObj r fields)) context tracker
                  (p ++ ".else") s1 x Hx) as [H1 | H1].
      * destruct (Hs1 s1 eq_refl H1) as [H | [H | H]]; auto.
      * right. right. right. exists vc, s1. split; [reflexivity |]. rewrite Hvc. exact H1.
  - destruct (Hs1 s1 eq_refl Hx) as [H | [H | H]]; auto.
  - destruct (Hs1 s1 eq_refl Hx) as [H | [H | H]]; auto.
Qed.

(** The path of a mapping does not lie below the prefix of one of its
    keys, and the prefixes of two keys that differ in their first character
    have no path in common. *)
Lemma node_not_below_key (r : ref) (fields : list (string * jsval)) (p : string)
    (c : ascii) (k : string) :
  ~ below (p ++ String "." (String c k)) (Coverage.generatePathId (JObj r fields) p).
Proof.
  intros [t H]. unfold Coverage.generatePathId in H. paths_differ H.
Qed.

Lemma keys_apart (p x : string) (c1 c2 : ascii) (k1 k2 : string) :
  c1 <> c2 ->
  below (p ++ String "." (String c1 k1)) x ->
  below (p ++ String "." (String c2 k2)) x -> False.
Proof.
  intros Hc [t1 H1] [t2 H2]. rewrite H1 in H2.
  rewrite !append_assoc in H2. apply append_inj_l in H2.
  rewrite !append_cons in H2. injection H2 as H2 _. exact (Hc H2).
Qed.

(** With the payload encoding of the strict evaluator the pass records the
    root and nothing else: the path of the [then] branch is not in the
    set, whether the route is taken through the payload or not. *)
Lemma nested_if_records_no_branch :
  (coveredPaths (snd (Coverage.evaluateWithCoverage 5 Examples.if_nested ∅ 100))
   = {["root:{if}"]})
  /\ (Coverage.generatePathId (JStr "A") "root.if.then"
        ∉ coveredPaths (snd (Coverage.evaluateWithCoverage 5 Examples.if_nested ∅ 100)))
  /\ (Coverage.generatePathId (JStr "A") "root.then"
        ∉ coveredPaths (snd (Coverage.evaluateWithCoverage 5 Examples.if_nested ∅ 100))).
Proof.
  split; [reflexivity |].
  split; apply (bool_decide_unpack _); vm_compute; exact I.
Qed.

(** C5, as the code has it.  The diagnostic evaluator reads a conditional
    in the flat encoding: a mapping with the key [if] beside [then] or
    [else].  For [{if: true, then: A, else: B}] the pass records the path of
    [then] and not the path of [else].  For every mapping read as a
    conditional, with or without a tracker, at any prefix: a path below the
    prefix of a branch gets into the set only when the condition has
    returned a value that selects that branch; so the evaluation inserts no
    path of the side it does not take, and none of either side when it takes
    none.  A mapping whose first key is [if] and that has neither [then] nor
    [else], as the encoding [{if: {condition, then, else}}] of the strict
    evaluator, is not read as a conditional: the call records the path of
    the mapping and nothing else, and returns [<if>]. *)
Theorem untaken_branch_not_recorded :
  (forall (n : nat) (context : gmap string jsval) (top : ref),
      Coverage.generatePathId (JStr "A") "root.then"
        ∈ coveredPaths (snd (Coverage.evaluateWithCoverage (S (S n)) Examples.if_flat
                               context top))
      /\ Coverage.generatePathId (JStr "B") "root.else"
           ∉ coveredPaths (snd (Coverage.evaluateWithCoverage (S (S n)) Examples.if_flat
                                  context top)))
  /\ (forall (fuel : nat) (r : ref) (fields : list (string * jsval))
             (context : gmap string jsval) (tracker : bool) (p : string) (s : coverage)
             (x : string),
         reads_as_if fields = true ->
         x ∈ coveredPaths (snd (Coverage.tryEvaluate (S fuel) (JObj r fields) context
                                  tracker p s)) ->
         x ∉ coveredPaths s ->
         (below (p ++ ".then") x ->
          exists (vc : jsval) (s1 : coverage),
            Coverage.tryEvaluate fuel (JS.get_prop "if" (JObj r fields)) context tracker
              (p ++ ".if") (entered (JObj r fields) tracker p s)
            = (Ret vc, s1)
            /\ JS.truthy vc = true)
         /\ (below (p ++ ".else") x ->
             exists (vc : jsval) (s1 : coverage),
               Coverage.tryEvaluate fuel (JS.get_prop "if" (JObj r fields)) context tracker
                 (p ++ ".if") (entered (JObj r fields) tracker p s)
               = (Ret vc, s1)
               /\ JS.truthy vc = false))
  /\ (forall (fuel : nat) (r : ref) (fields : list (string * jsval))
             (context : gmap string jsval) (tracker : bool) (p : string)
             (s s1 : coverage) (vc : jsval),
         reads_as_if fields = true ->
         Coverage.tryEvaluate fuel (JS.get_prop "if" (JObj r fields)) context tracker
           (p ++ ".if") (entered (JObj r fields) tracker p s)
         = (Ret vc, s1) ->
         (JS.truthy vc = true ->
          Coverage.generatePathId (JS.get_prop "else" (JObj r fields)) (p ++ ".else")
            ∉ coveredPaths s ->
          Coverage.generatePathId (JS.get_prop "else" (JObj r fields)) (p ++ ".else")
            ∉ coveredPaths (snd (Coverage.tryEvaluate (S fuel) (JObj r fields) context
                                   tracker p s)))
         /\ (JS.truthy vc = false ->
             Coverage.generatePathId (JS.get_prop "then" (JObj r fields)) (p ++ ".then")
               ∉ coveredPaths s ->
             Coverage.generatePathId (JS.get_prop "then" (JObj r fields)) (p ++ ".then")
               ∉ coveredPaths (snd (Coverage.tryEvaluate (S fuel) (JObj r fields) context
                                      tracker p s))))
  /\ (forall (n : nat) (r : ref) (payload : jsval) (others : list (string * jsval))
             (context : gmap string jsval) (tracker : bool) (p : string) (s : coverage),
         JS.includes "then" (JS.keys others) = false ->
         JS.includes "else" (JS.keys others) = false ->
         JS.includes "let" (JS.keys others) && JS.includes "in" (JS.keys others) = false ->
         Coverage.tryEvaluate (S n) (JObj r (("if", payload) :: others)) context tracker p s
         = (Ret (JStr "<if>"), entered (JObj r (("if", payload) :: others)) tracker p s))
  /\ (forall (n : nat) (context : gmap string jsval) (top : ref),
         Coverage.evaluateWithCoverage (S n) Examples.if_nested context top
         = (Ret (JStr "<if>"), MkCoverage ({["root:{if}"]} ∪ ∅) top)).
Proof.
  assert (Hgeneral :
            forall (fuel : nat) (r : ref) (fields : list (string * jsval))
                   (context : gmap string jsval) (tracker : bool) (p : string)
                   (s : coverage) (x : string) (c : ascii) (k : string),
              c <> "i"%char ->
              reads_as_if fields = true ->
              x ∈ coveredPaths (snd (Coverage.tryEvaluate (S fuel) (JObj r fields) context
                                       tracker p s)) ->
              x ∉ coveredPaths s ->
              below (p ++ String "." (String c k)) x ->
              exists (vc : jsval) (s1 : coverage),
                Coverage.tryEvaluate fuel (JS.get_prop "if" (JObj r fields)) context tracker
                  (p ++ ".if") (entered (JObj r fields) tracker p s)
                = (Ret vc, s1)
                /\ below (p ++ (if JS.truthy vc then ".then" else ".else")) x).
  { intros fuel r fields context tracker p s x c k Hi Hshape Hx Hnew Hbelow.
    destruct (conditional_paths fuel r fields context tracker p s x Hshape Hx)
      as [H | [H | [H | H]]].
    - contradiction.
    - exfalso. subst x. exact (node_not_below_key _ _ _ _ _ Hbelow).
    - exfalso. exact (keys_apart p x c "i" k "f" Hi Hbelow H).
    - exact H. }
  assert (Hte : "t"%char <> "e"%char) by discriminate.
  assert (Het : "e"%char <> "t"%char) by discriminate.
  assert (Hti : "t"%char <> "i"%char) by discriminate.
  assert (Hei : "e"%char <> "i"%char) by discriminate.
  split; [| split; [| split; [| split]]].
  - intros n context top. split.
    + apply (bool_decide_unpack _). vm_compute. exact I.
    + apply (bool_decide_unpack _). vm_compute. exact I.
  - intros fuel r fields context tracker p s x Hshape Hx Hnew. split; intros Hbelow.
    + destruct (Hgeneral fuel r fields context tracker p s x "t"%char "hen" Hti
                  Hshape Hx Hnew Hbelow) as (vc & s1 & E & Hb).
      exists vc, s1. split; [exact E |].
      destruct (JS.truthy vc); [reflexivity |].
      exfalso. exact (keys_apart p x "t" "e" "hen" "lse" Hte Hbelow Hb).
    + destruct (Hgeneral fuel r fields context tracker p s x "e"%char "lse" Hei
                  Hshape Hx Hnew Hbelow) as (vc & s1 & E & Hb).
      exists vc, s1. split; [exact E |].
      destruct (JS.truthy vc); [| reflexivity].
      exfalso. exact (keys_apart p x "e" "t" "lse" "hen" Het Hbelow Hb).
  - intros fuel r fields context tracker p s s1 vc Hshape Hc. split.
    + intros Htrue Hnew Hin.
      destruct (Hgeneral fuel r fields context tracker p s _ "e"%char "lse" Hei
                  Hshape Hin Hnew (generatePathId_prefix _ _)) as (vc' & s1' & E & Hb).
      rewrite Hc in E. injection E as <- <-. rewrite Htrue in Hb.
      exact (keys_apart p _ "e" "t" "lse" "hen" Het (generatePathId_prefix _ _) Hb).
    + intros Hfalse Hnew Hin.
      destruct (Hgeneral fuel r fields context tracker p s _ "t"%char "hen" Hti
                  Hshape Hin Hnew (generatePathId_prefix _ _)) as (vc' & s1' & E & Hb).
      rewrite Hc in E. injection E as <- <-. rewrite Hfalse in Hb.
      exact (keys_apart p _ "t" "e" "hen" "lse" Hte (generatePathId_prefix _ _) Hb).
  - intros n r payload others context tracker p s Hthen Helse Hlet.
    rewrite tryEvaluate_enters.
    unfold try_catch, Coverage.reduce. simpl.
    rewrite Hthen, Helse. simpl.
    unfold Coverage.reduce_equals. simpl.
    unfold Coverage.reduce_let_in. simpl. rewrite Hlet. reflexivity.
  - intros n context top. reflexivity.
Qed.

Lemma untaken_branch_not_recorded_witness :
  Coverage.generatePathId (JStr "B") ("root" ++ ".else")
    ∉ coveredPaths (snd (Coverage.tryEvaluate 2
                           (JObj 1 [("else", JStr "B"); ("note", JNull);
                                    ("if", JBool true); ("then", JStr "A")])
                           ∅ true "root" Examples.new_tracker)).
Proof.
  edestruct (proj1 (proj2 (proj2 untaken_branch_not_recorded)) 1 1
               [("else", JStr "B"); ("note", JNull); ("if", JBool true); ("then", JStr "A")]
               ∅ true "root" Examples.new_tracker)
    as [H _].
  - reflexivity.
  - reflexivity.
  - apply H.
    + reflexivity.
    + apply (bool_decide_unpack _). vm_compute. exact I.
Defined.

(** ** The coverage flag of a display node *)

Lemma flags_ret (c : option bool) (l t v : string) (e : jsval)
    (children : list TreeNode) :
  flags c (ret (Node (MkData l t v e c) children)).
Proof. intros s s' n H. injection H as <- _. reflexivity. Qed.

Lemma flags_throw (c : option bool) (e : error) : flags c (throw e).
Proof. intros s s' n H. discriminate H. Qed.

Lemma flags_bind {A : Type} (c : option bool) (m : M coverage A)
    (k : A -> M coverage TreeNode) :
  (forall a, flags c (k a)) -> flags c (bind m k).
Proof.
  intros Hk s s' n H. apply bind_ret_inv in H as (a & s1 & _ & H).
  exact (Hk a _ _ _ H).
Qed.

Section Flag.

Variable tryEvaluate : jsval -> gmap string jsval -> bool -> string -> M coverage jsval.
Variable buildLogicTree :
  jsval -> gmap string jsval -> string -> bool -> string -> M coverage TreeNode.

Ltac flags_auto :=
  repeat match goal with
         | |- flags _ (ret (Node _ _)) => apply flags_ret
         | |- flags _ (throw _) => apply flags_throw
         | |- flags _ (bind _ _) => apply flags_bind; intros ?
         | |- flags _ (if ?c then _ else _) => destruct c
         | |- flags _ (match ?e with _ => _ end) => destruct e
         | |- flags _ (let _ := _ in _) => cbv zeta
         end.

Lemma build_multi_flags (expr : jsval) (keys : list string)
    (context : gmap string jsval) (label : string) (tracker : bool)
    (pathPrefix : string) (c : option bool) :
  flags c (Display.build_multi tryEvaluate buildLogicTree expr keys context label tracker
             pathPrefix c).
Proof.
  unfold Display.build_multi, Display.build_let_in, Display.build_generic.
  flags_auto.
Qed.

Lemma build_single_flags (expr : jsval) (key : string) (value : jsval)
    (context : gmap string jsval) (tracker : bool) (pathPrefix : string)
    (c : option bool) (otherwise : M coverage TreeNode) :
  flags c otherwise ->
  flags c (Display.build_single tryEvaluate buildLogicTree expr key value context tracker
             pathPrefix c otherwise).
Proof.
  intros Ho. unfold Display.build_single, Display.build_wrapper.
  flags_auto; exact Ho.
Qed.

(** The node a call of [buildLogicTree] returns is flagged with the answer
    of [isCovered] for the node's path at the moment of the call. *)
Lemma build_flag (expr : jsval) (context : gmap string jsval) (label : string)
    (pathPrefix : string) (s s' : coverage) (n : TreeNode) :
  Display.build tryEvaluate buildLogicTree expr context label true pathPrefix s
  = (Ret n, s') ->
  covered (data n)
  = Some (bool_decide (Coverage.generatePathId expr pathPrefix ∈ coveredPaths s)).
Proof.
  unfold Display.build. intros H.
  apply bind_ret_inv in H as (c & s0 & Hc & H).
  apply bind_ret_inv in Hc as (b & s1 & Hb & Hc).
  injection Hb as <- <-. injection Hc as <- <-.
  match type of H with
  | ?m _ = _ =>
      assert (Hf : flags (Some (bool_decide (Coverage.generatePathId expr pathPrefix
                                              ∈ coveredPaths s))) m)
  end.
  { destruct expr as [| | b | x | str | r items | r [| [key value] [| field others]]];
      flags_auto.
    - apply build_single_flags. apply build_multi_flags.
    - apply build_multi_flags. }
  exact (Hf _ _ _ H).
Qed.

Lemma build_no_flag (expr : jsval) (context : gmap string jsval) (label : string)
    (pathPrefix : string) (s s' : coverage) (n : TreeNode) :
  Display.build tryEvaluate buildLogicTree expr context label false pathPrefix s
  = (Ret n, s') ->
  covered (data n) = None.
Proof.
  unfold Display.build. intros H.
  apply bind_ret_inv in H as (c & s0 & Hc & H).
  injection Hc as <- <-.
  match type of H with
  | ?m _ = _ => assert (Hf : flags None m)
  end.
  { destruct expr as [| | b | x | str | r items | r [| [key value] [| field others]]];
      flags_auto.
    - apply build_single_flags. apply build_multi_flags.
    - apply build_multi_flags. }
  exact (Hf _ _ _ H).
Qed.

End Flag.

(** *** Path identifiers depend on the shape only *)

Lemma same_content_length (r r' : ref) (xs ys : list jsval) :
  same_content (JArr r xs) (JArr r' ys) = true -> List.length xs = List.length ys.
Proof.
  simpl. revert ys. induction xs as [| x xs IH]; intros [| y ys] H;
    try discriminate H; [reflexivity |].
  apply andb_true_iff in H as [_ H]. simpl. f_equal. exact (IH ys H).
Qed.

Lemma same_content_keys (r r' : ref) (fs gs : list (string * jsval)) :
  same_content (JObj r fs) (JObj r' gs) = true -> JS.keys fs = JS.keys gs.
Proof.
  simpl. revert gs. induction fs as [| [k x] fs IH]; intros [| [k' y] gs] H;
    try discriminate H; [reflexivity |].
  apply andb_true_iff in H as [H1 H]. apply andb_true_iff in H1 as [Hk _].
  apply String.eqb_eq in Hk. subst k'. simpl. f_equal. exact (IH gs H).
Qed.

Lemma number_same_eq (a b : number) : number_same a b = true -> a = b.
Proof.
  destruct a as [x | | x], b as [y | | y]; simpl; intros H; try discriminate H.
  - apply Z.eqb_eq in H. congruence.
  - reflexivity.
  - apply Bool.eqb_prop in H. congruence.
Qed.

Lemma generatePathId_shape (e1 e2 : jsval) (p : string) :
  same_content e1 e2 = true ->
  Coverage.generatePathId e1 p = Coverage.generatePathId e2 p.
Proof.
  intros H.
  destruct e1 as [| | b1 | x1 | s1 | r1 xs | r1 fs], e2 as [| | b2 | x2 | s2 | r2 ys | r2 gs];
    try discriminate H; try reflexivity.
  - simpl in H. apply Bool.eqb_prop in H. subst. reflexivity.
  - simpl in H. apply number_same_eq in H. subst. reflexivity.
  - simpl in H. apply String.eqb_eq in H. subst. reflexivity.
  - unfold Coverage.generatePathId. rewrite (same_content_length _ _ _ _ H). reflexivity.
  - unfold Coverage.generatePathId. rewrite (same_content_keys _ _ _ _ H). reflexivity.
Qed.

(** C4.  A node is to be flagged covered exactly when its path is in the
    set of the diagnostic pass.  In [{if: false, then: {uppercase: a}, else:
    B}] the pass does not enter the [then] branch, and the builder flags the
    [then] node as not covered; but it then evaluates that node for display
    with the same tracker, which records the path of the argument, and the
    argument is flagged covered although its path is not in the set the
    pass produced. *)
Lemma display_flags_unvisited_node :
  (Coverage.generatePathId (JStr "a") "root.then.uppercase"
     ∉ coveredPaths (snd (Coverage.evaluateWithCoverage 5 Examples.if_untaken_uppercase
                            ∅ 100)))
  /\ exists (root cond then_ arg else_ : TreeNodeData) (s' : coverage),
      Display.buildLogicTree 5 Examples.if_untaken_uppercase ∅ "root" true "root"
        (snd (Coverage.evaluateWithCoverage 5 Examples.if_untaken_uppercase ∅ 100))
      = (Ret (Node root [Node cond []; Node then_ [Node arg []]; Node else_ []]), s')
      /\ covered then_ = Some false
      /\ raw arg = JStr "a"
      /\ covered arg = Some true.
Proof.
  split.
  - apply (bool_decide_unpack _). vm_compute. exact I.
  - eexists _, _, _, _, _, _. split; [vm_compute; reflexivity |].
    split; [reflexivity | split; reflexivity].
Qed.

(** What the builder does: the evaluator and the tree builder compute path
    identifiers with the same function, which looks at the route and at the
    shape of the node only, so that expressions with the same content get
    the same identifier on the same route.  The node a call of
    [buildLogicTree] returns is flagged with the answer of the tracker at
    the moment of that call; without a tracker the flag is absent. *)
Theorem display_flag_is_membership :
  (forall (fuel : nat) (expr : jsval) (context : gmap string jsval) (label : string)
          (pathPrefix : string) (s s' : coverage) (n : TreeNode),
      Display.buildLogicTree fuel expr context label true pathPrefix s = (Ret n, s') ->
      covered (data n)
      = Some (bool_decide (Coverage.generatePathId expr pathPrefix ∈ coveredPaths s)))
  /\ (forall (fuel : nat) (expr : jsval) (context : gmap string jsval) (label : string)
             (pathPrefix : string) (s s' : coverage) (n : TreeNode),
         Display.buildLogicTree fuel expr context label false pathPrefix s = (Ret n, s') ->
         covered (data n) = None)
  /\ (forall (e1 e2 : jsval) (p : string),
         same_content e1 e2 = true ->
         Coverage.generatePathId e1 p = Coverage.generatePathId e2 p).
Proof.
  split; [| split].
  - intros [| fuel] expr context label pathPrefix s s' n H; [discriminate H |].
    simpl in H. exact (build_flag _ _ _ _ _ _ _ _ _ H).
  - intros [| fuel] expr context label pathPrefix s s' n H; [discriminate H |].
    simpl in H. exact (build_no_flag _ _ _ _ _ _ _ _ _ H).
  - exact generatePathId_shape.
Qed.

Lemma display_flag_is_membership_witness :
  covered (data (Node (MkData "root" "string" (JS.dq ++ "B" ++ JS.dq) (JStr "B")
                         (Some false)) []))
  = Some (bool_decide (Coverage.generatePathId (JStr "B") "root"
                         ∈ coveredPaths Examples.new_tracker)).
Proof.
  apply (proj1 display_flag_is_membership 1 (JStr "B") ∅ "root" "root"
           Examples.new_tracker Examples.new_tracker).
  reflexivity.
Defined.

(** ** Where the two evaluators agree *)

(** [not] is evaluated by the strict evaluator and replaced by a
    placeholder by the diagnostic one. *)
Lemma evaluators_differ_on_not :
  fst (Strict.evaluate 5 Examples.not_true Examples.empty_interp) = Ret (JBool false)
  /\ fst (Coverage.tryEvaluate 5 Examples.not_true ∅ true "root" Examples.new_tracker)
     = Ret (JStr "<not>").
Proof. split; reflexivity. Qed.

Lemma stringy_no_value (e : jsval) : stringy e -> JS.has_prop "value" e = false.
Proof. intros H. inversion H; reflexivity. Qed.

Lemma evaluate_literal (n : nat) (e : jsval) (st : interp) :
  match e with
  | JNull | JUndefined | JBool _ | JNum _ => True
  | JStr s => JS.starts_with_dollar s = false
  | _ => False
  end ->
  Strict.evaluate (S n) e st = (Ret e, st).
Proof.
  destruct e; simpl; intros H; try contradiction; try reflexivity.
  rewrite H. reflexivity.
Qed.

Lemma evaluate_concat (n : nat) (r r' : ref) (items : list jsval) (st : interp) :
  Strict.evaluate (S n) (JObj r [("concat", JArr r' items)]) st
  = (vs <- mapM (Strict.evaluate n) items ;; ret (JStr (JS.join EmptyString vs))) st.
Proof. reflexivity. Qed.

Lemma evaluate_uppercase (n : nat) (r : ref) (e : jsval) (st : interp) :
  JS.has_prop "value" e = false ->
  Strict.evaluate (S n) (JObj r [("uppercase", e)]) st
  = (value <- Strict.evaluate n e ;;
     ret (JStr (JS.toUpperCase (JS.to_string value)))) st.
Proof.
  intros H. simpl. unfold Strict.dispatch. simpl. unfold Strict.executeUppercase.
  rewrite (extractValue_direct _ e H). reflexivity.
Qed.

Lemma evaluate_lowercase (n : nat) (r : ref) (e : jsval) (st : interp) :
  JS.has_prop "value" e = false ->
  Strict.evaluate (S n) (JObj r [("lowercase", e)]) st
  = (value <- Strict.evaluate n e ;;
     ret (JStr (JS.toLowerCase (JS.to_string value)))) st.
Proof.
  intros H. simpl. unfold Strict.dispatch. simpl. unfold Strict.executeLowercase.
  rewrite (extractValue_direct _ e H). reflexivity.
Qed.

Lemma evaluate_equals (n : nat) (r r' : ref) (fields : list (string * jsval))
    (l rt : jsval) (st : interp) :
  JS.lookup_field "left" fields = Some l ->
  JS.lookup_field "right" fields = Some rt ->
  Strict.evaluate (S n) (JObj r [("equals", JObj r' fields)]) st
  = (left <- Strict.evaluate n l ;;
     right <- Strict.evaluate n rt ;;
     ret (JBool (JS.strict_equals left right))) st.
Proof.
  intros Hl Hr. simpl. unfold Strict.dispatch. simpl. unfold Strict.executeEquals.
  simpl. rewrite Hl, Hr. reflexivity.
Qed.

(** A [stringy] expression evaluates to a string. *)
Lemma stringy_value (fuel : nat) (e v : jsval) (st st' : interp) :
  stringy e -> Strict.evaluate fuel e st = (Ret v, st') -> exists s, v = JStr s.
Proof.
  intros He H. destruct fuel as [| n]; [discriminate H |].
  inversion He as [s Hs | r r' items _ _ | r e' He' | r e' He']; subst e.
  - rewrite evaluate_literal in H by exact Hs. injection H as <- _. eauto.
  - rewrite evaluate_concat in H.
    apply bind_ret_inv in H as (vs & s1 & _ & H). injection H as <- _. eauto.
  - rewrite evaluate_uppercase in H by (apply stringy_no_value; exact He').
    apply bind_ret_inv in H as (w & s1 & _ & H). injection H as <- _. eauto.
  - rewrite evaluate_lowercase in H by (apply stringy_no_value; exact He').
    apply bind_ret_inv in H as (w & s1 & _ & H). injection H as <- _. eauto.
Qed.

(** A [shared] expression other than the literals null and undefined does
    not evaluate to null or undefined. *)
Lemma shared_value_defined (fuel : nat) (e v : jsval) (st st' : interp) :
  shared e -> JS.is_null e = false -> JS.is_undefined e = false ->
  Strict.evaluate fuel e st = (Ret v, st') ->
  JS.join_elem v = JS.to_string v.
Proof.
  intros He Hn Hu H. destruct fuel as [| n]; [discriminate H |].
  inversion He as [| | b | x | r items _ | r r' fields l rt Hl Hr _ _ | e' Hs]; subst e;
    try discriminate.
  - injection H as <- _. reflexivity.
  - injection H as <- _. reflexivity.
  - simpl in H. apply bind_ret_inv in H as (r1 & s1 & _ & H).
    apply bind_ret_inv in H as (vs & s2 & _ & H). injection H as <- _. reflexivity.
  - rewrite (evaluate_equals _ _ _ _ _ _ _ Hl Hr) in H.
    apply bind_ret_inv in H as (a & s1 & _ & H).
    apply bind_ret_inv in H as (b & s2 & _ & H). injection H as <- _. reflexivity.
  - destruct (stringy_value _ _ _ _ _ Hs H) as [s ->]. reflexivity.
Qed.

Lemma string_of_part_to_string (v : jsval) : Coverage.string_of_part v = JS.to_string v.
Proof. destruct v; reflexivity. Qed.

Section Agreement.

Variable n : nat.
Hypothesis IH : forall e : jsval, shared e -> agree_on n e.

(** The elements of a sequence, evaluated in order by both. *)
Lemma mapM_agree (context : gmap string jsval) (tracker : bool) (path : nat -> string)
    (items : list jsval) :
  Forall shared items ->
  forall (i : nat) (st st' : interp) (s : coverage) (vs : list jsval),
    heap_top s = next_ref st ->
    mapM (Strict.evaluate n) items st = (Ret vs, st') ->
    exists s' : coverage,
      mapM (fun ix : nat * jsval =>
              Coverage.tryEvaluate n (snd ix) context tracker (path (fst ix)))
           (JS.indexed_from i items) s
      = (Ret vs, s')
      /\ heap_top s' = next_ref st'
      /\ Forall2 (fun e v => exists st0 st1, Strict.evaluate n e st0 = (Ret v, st1))
           items vs.
Proof.
  induction 1 as [| e rest He _ IHrest]; intros i st st' s vs Htop H.
  - injection H as <- <-. exists s. split; [reflexivity | split; [exact Htop | constructor]].
  - simpl in H.
    apply bind_ret_inv in H as (v & st1 & Hv & H).
    apply bind_ret_inv in H as (ws & st2 & Hws & H).
    injection H as <- <-.
    destruct (IH e He st st1 s context tracker (path i) v Htop Hv) as (s1 & Hd & Htop1).
    destruct (IHrest (S i) st1 st2 s1 ws Htop1 Hws) as (s2 & Hds & Htop2 & Hall).
    exists s2. split; [| split; [exact Htop2 |]].
    + simpl. rewrite (bind_ret _ _ _ _ _ Hd). rewrite (bind_ret _ _ _ _ _ Hds).
      reflexivity.
    + constructor; [exists st, st1; exact Hv | exact Hall].
Qed.

End Agreement.

Lemma try_catch_ret {S A : Type} (body : M S A) (handler a : A) (s s' : S) :
  body s = (Ret a, s') -> try_catch body handler s = (Ret a, s').
Proof. intros H. unfold try_catch. rewrite H. reflexivity. Qed.

(** A call of [tryEvaluate] records the path, which leaves the next array
    identity alone, and runs the [try] block. *)
Lemma tryEvaluate_unfold (n : nat) (expr : jsval) (context : gmap string jsval)
    (tracker : bool) (pathPrefix : string) (s : coverage) :
  exists s0 : coverage,
    heap_top s0 = heap_top s
    /\ Coverage.tryEvaluate (S n) expr context tracker pathPrefix s
       = try_catch (Coverage.reduce (Coverage.tryEvaluate n) expr context tracker pathPrefix)
           (JStr "<error>") s0.
Proof.
  destruct tracker.
  - eexists. split; [| reflexivity]. reflexivity.
  - exists s. split; reflexivity.
Qed.

Lemma reduce_equals_shape
    (rec : jsval -> gmap string jsval -> bool -> string -> M coverage jsval)
    (r r' : ref) (fields : list (string * jsval)) (l rt : jsval)
    (context : gmap string jsval) (tracker : bool) (p : string) :
  JS.lookup_field "left" fields = Some l ->
  JS.lookup_field "right" fields = Some rt ->
  Coverage.reduce rec (JObj r [("equals", JObj r' fields)]) context tracker p
  = (left <- rec l context tracker (p ++ ".equals.left") ;;
     right <- rec rt context tracker (p ++ ".equals.right") ;;
     ret (JBool (JS.strict_equals left right))).
Proof.
  intros Hl Hr. unfold Coverage.reduce. simpl.
  unfold Coverage.reduce_equals. simpl. rewrite Hl, Hr. reflexivity.
Qed.

Lemma join_parts (items vs : list jsval) (n : nat) :
  Forall shared items ->
  Forall (fun e => JS.is_null e = false /\ JS.is_undefined e = false) items ->
  Forall2 (fun e v => exists st0 st1, Strict.evaluate n e st0 = (Ret v, st1)) items vs ->
  JS.join EmptyString vs
  = String.concat EmptyString (List.map Coverage.string_of_part vs).
Proof.
  intros Hs Hd Hv. unfold JS.join. f_equal.
  induction Hv as [| e v items vs (st0 & st1 & He) _ IHv]; [reflexivity |].
  inversion Hs as [| ? ? Hse Hsrest]; subst.
  inversion Hd as [| ? ? [Hn Hu] Hdrest]; subst.
  simpl. rewrite (IHv Hsrest Hdrest). f_equal.
  rewrite string_of_part_to_string.
  exact (shared_value_defined _ _ _ _ _ Hse Hn Hu He).
Qed.

Lemma agree_step (n : nat) :
  (forall e : jsval, shared e -> agree_on n e) ->
  forall e : jsval, shared e -> agree_on (S n) e.
Proof.
  intros IH e He st st' s context tracker pathPrefix v Htop H.
  destruct (tryEvaluate_unfold n e context tracker pathPrefix s) as (s0 & Htop0 & ->).
  rewrite <- Htop0 in Htop. clear Htop0 s.
  enough (exists s' : coverage,
             Coverage.reduce (Coverage.tryEvaluate n) e context tracker pathPrefix s0
             = (Ret v, s')
             /\ heap_top s' = next_ref st') as (s' & Hr & Ht).
  { exists s'. split; [apply try_catch_ret; exact Hr | exact Ht]. }
  assert (Hstr : forall str : string,
             JS.starts_with_dollar str = false ->
             Strict.evaluate (S n) (JStr str) st = (Ret v, st') ->
             exists s' : coverage,
               Coverage.reduce (Coverage.tryEvaluate n) (JStr str) context tracker
                 pathPrefix s0 = (Ret v, s')
               /\ heap_top s' = next_ref st').
  { intros str Hd Hev. rewrite evaluate_literal in Hev by exact Hd.
    injection Hev as <- <-. exists s0. split; [reflexivity | exact Htop]. }
  inversion He as [| | b | x | r items Hitems | r r' fields l rt Hl Hr Hsl Hsr | e' Hs];
    subst e.
  - injection H as <- <-. exists s0. split; [reflexivity | exact Htop].
  - injection H as <- <-. exists s0. split; [reflexivity | exact Htop].
  - injection H as <- <-. exists s0. split; [reflexivity | exact Htop].
  - injection H as <- <-. exists s0. split; [reflexivity | exact Htop].
  - simpl in H.
    apply bind_ret_inv in H as (r1 & st1 & Hf & H).
    apply bind_ret_inv in H as (vs & st2 & Hvs & H).
    injection Hf as <- <-. injection H as <- <-.
    destruct (mapM_agree n IH context tracker
                (Coverage.index_path pathPrefix EmptyString) items Hitems 0
                (MkInterp (variables st) (S (next_ref st))) st2
                (MkCoverage (coveredPaths s0) (S (heap_top s0))) vs)
      as (s2 & Hd & Htop2 & _).
    + simpl. rewrite Htop. reflexivity.
    + exact Hvs.
    + exists s2. split; [| exact Htop2].
      unfold Coverage.reduce.
      unfold bind at 1. unfold Coverage.fresh.
      unfold JS.indexed. rewrite (bind_ret _ _ _ _ _ Hd).
      unfold ret. rewrite Htop. reflexivity.
  - rewrite (evaluate_equals _ _ _ _ _ _ _ Hl Hr) in H.
    apply bind_ret_inv in H as (a & st1 & Ha & H).
    apply bind_ret_inv in H as (b & st2 & Hb & H).
    injection H as <- <-.
    destruct (IH l Hsl st st1 s0 context tracker (pathPrefix ++ ".equals.left") a Htop Ha)
      as (s1 & Hda & Htop1).
    destruct (IH rt Hsr st1 st2 s1 context tracker (pathPrefix ++ ".equals.right") b
                Htop1 Hb) as (s2 & Hdb & Htop2).
    exists s2. split; [| exact Htop2].
    rewrite (reduce_equals_shape _ _ _ _ _ _ _ _ _ Hl Hr).
    rewrite (bind_ret _ _ _ _ _ Hda). rewrite (bind_ret _ _ _ _ _ Hdb). reflexivity.
  - inversion Hs as [str Hd | r r' items Hitems Hdef | r e Hse | r e Hse]; subst e'.
    + exact (Hstr str Hd H).
    + rewrite evaluate_concat in H.
      apply bind_ret_inv in H as (vs & st1 & Hvs & H). injection H as <- <-.
      destruct (mapM_agree n IH context tracker
                  (Coverage.index_path pathPrefix ".concat") items Hitems 0
                  st st1 s0 vs Htop Hvs) as (s1 & Hd & Htop1 & Hall).
      exists s1. split; [| exact Htop1].
      unfold Coverage.reduce. simpl. unfold JS.indexed.
      rewrite (bind_ret _ _ _ _ _ Hd).
      rewrite (join_parts items vs n Hitems Hdef Hall). reflexivity.
    + rewrite evaluate_uppercase in H by (apply stringy_no_value; exact Hse).
      apply bind_ret_inv in H as (w & st1 & Hw & H). injection H as <- <-.
      destruct (stringy_value _ _ _ _ _ Hse Hw) as [str ->].
      destruct (IH e (shared_stringy e Hse) st st1 s0 context tracker
                  (pathPrefix ++ ".uppercase") (JStr str) Htop Hw) as (s1 & Hd & Htop1).
      exists s1. split; [| exact Htop1].
      unfold Coverage.reduce. simpl. rewrite (bind_ret _ _ _ _ _ Hd). reflexivity.
    + rewrite evaluate_lowercase in H by (apply stringy_no_value; exact Hse).
      apply bind_ret_inv in H as (w & st1 & Hw & H). injection H as <- <-.
      destruct (stringy_value _ _ _ _ _ Hse Hw) as [str ->].
      destruct (IH e (shared_stringy e Hse) st st1 s0 context tracker
                  (pathPrefix ++ ".lowercase") (JStr str) Htop Hw) as (s1 & Hd & Htop1).
      exists s1. split; [| exact Htop1].
      unfold Coverage.reduce. simpl. rewrite (bind_ret _ _ _ _ _ Hd). reflexivity.
Qed.

(** C2, as the code has it.  On the expressions both evaluators read the
    same way (literals other than references, sequences, [concat] of a
    sequence without null literals, [uppercase] and [lowercase] of a string
    expression, [equals]) and from the same next array identity, the
    diagnostic evaluator returns the value the strict evaluator returns. *)
Theorem evaluators_agree_on_shared :
  forall (fuel : nat) (e : jsval) (st st' : interp) (s : coverage)
         (context : gmap string jsval) (tracker : bool) (pathPrefix : string)
         (v : jsval),
    shared e ->
    heap_top s = next_ref st ->
    Strict.evaluate fuel e st = (Ret v, st') ->
    exists s' : coverage,
      Coverage.tryEvaluate fuel e context tracker pathPrefix s = (Ret v, s')
      /\ heap_top s' = next_ref st'.
Proof.
  intros fuel. induction fuel as [| n IH];
    intros e st st' s context tracker pathPrefix v He Htop H.
  - discriminate H.
  - apply (agree_step n) with (st := st); try assumption.
    intros e' He' st0 st0' s0 context0 tracker0 pathPrefix0 v0 Htop0 H0.
    exact (IH e' st0 st0' s0 context0 tracker0 pathPrefix0 v0 He' Htop0 H0).
Qed.

Lemma evaluators_agree_on_shared_witness :
  exists s' : coverage,
    Coverage.tryEvaluate 4
      (JObj 1 [("uppercase", JObj 2 [("concat", JArr 3 [JStr "a"; Examples.num 5])])])
      ∅ true "root" Examples.new_tracker
    = (Ret (JStr "A5"), s')
    /\ heap_top s' = next_ref Examples.empty_interp.
Proof.
  apply (evaluators_agree_on_shared 4
           (JObj 1 [("uppercase", JObj 2 [("concat", JArr 3 [JStr "a"; Examples.num 5])])])
           Examples.empty_interp Examples.empty_interp).
  - apply shared_stringy. apply stringy_uppercase. apply stringy_concat.
    + repeat constructor.
    + repeat constructor.
  - reflexivity.
  - reflexivity.
Defined.

(** ** The strict evaluator ends *)

Lemma terminates_forM {S A : Type} (f : A -> M S unit) (l : list A) :
  (forall x, In x l -> terminates (f x)) -> terminates (forM f l).
Proof.
  induction l as [| x rest IH]; intros Hf; simpl.
  - apply terminates_ret.
  - apply terminates_bind; [apply Hf; left; reflexivity |]. intros _.
    apply IH. intros z Hz. apply Hf. right. exact Hz.
Qed.

Lemma terminates_gets {S A : Type} (f : S -> A) : terminates (gets f).
Proof. intros s. discriminate. Qed.

Lemma terminates_modify {S : Type} (f : S -> S) : terminates (modify f).
Proof. intros s. discriminate. Qed.

Lemma terminates_halts {S A : Type} (h : halt) :
  h <> OutOfFuel -> terminates (@halts S A h).
Proof. intros H s E. apply H. injection E as ->. reflexivity. Qed.

Lemma terminates_set_variable (key : string) (v : jsval) :
  terminates (Strict.set_variable key v).
Proof.
  unfold Strict.set_variable.
  apply terminates_bind; [apply terminates_gets |]. intros vars.
  destruct (vars !! key); [apply terminates_modify |].
  destruct (String.eqb key "__proto__"); [| apply terminates_modify].
  destruct (JS.typeof_object v); [apply terminates_halts; discriminate | apply terminates_ret].
Qed.

Lemma terminates_restore (saved : gmap string jsval) : terminates (Strict.restore saved).
Proof.
  unfold Strict.restore.
  destruct (saved !! "__proto__") as [v |]; [| apply terminates_modify].
  destruct (JS.typeof_object v); [apply terminates_halts; discriminate | apply terminates_modify].
Qed.

Section StrictTermination.

Variable ev : jsval -> M interp jsval.
Variable args : jsval.
Hypothesis ev_terminates :
  forall e : jsval, (depth e <= depth args)%nat -> terminates (ev e).

Lemma ev_prop_terminates (k : string) : terminates (ev (JS.get_prop k args)).
Proof. apply ev_terminates. apply depth_get_prop. Qed.

Lemma extractValue_terminates : terminates (Strict.extractValue ev args).
Proof.
  unfold Strict.extractValue.
  destruct (JS.typeof_object args && negb (JS.is_null args) && negb (JS.isArray args)
            && JS.has_prop "value" args);
    [apply ev_prop_terminates | apply ev_terminates; lia].
Qed.

Lemma values_terminates (operation : string) (k : list jsval -> M interp jsval) :
  (forall vs, terminates (k vs)) ->
  terminates (values <- Strict.values_of operation args ;;
              vs <- Strict.map_values ev values ;;
              k vs).
Proof.
  intros Hk. intros s. unfold bind at 1. unfold Strict.values_of.
  assert (Hmap : forall values : jsval,
             (depth values <= depth args)%nat ->
             terminates (vs <- Strict.map_values ev values ;; k vs)).
  { intros values Hd. apply terminates_bind; [| exact Hk].
    destruct values as [| | b | x | str | r items | r fields]; simpl;
      try apply terminates_throw.
    apply terminates_mapM. intros x Hx. apply ev_terminates.
    pose proof (depth_item r items x Hx). lia. }
  destruct (JS.isArray args).
  - apply Hmap. lia.
  - destruct (JS.truthy args && JS.typeof_object args && JS.has_prop "values" args).
    + apply Hmap. apply depth_get_prop.
    + discriminate.
Qed.

Lemma executeLet_terminates : terminates (Strict.executeLet ev args).
Proof.
  unfold Strict.executeLet.
  destruct (negb (JS.truthy args) || negb (JS.typeof_object args));
    [apply terminates_throw |].
  apply terminates_bind; [apply terminates_gets |]. intros saved.
  destruct (negb (JS.truthy (JS.get_prop "in" args))); [apply terminates_throw |].
  apply terminates_bind.
  - apply terminates_forM. intros [key value] Hin. unfold Strict.bind_entry.
    destruct (negb (String.eqb key "in")); [| apply terminates_ret].
    apply terminates_bind.
    + apply ev_terminates. apply depth_entry in Hin. lia.
    + intros v. apply terminates_set_variable.
  - intros _. apply terminates_bind; [apply ev_prop_terminates |]. intros result.
    apply terminates_bind; [apply terminates_restore |]. intros _. apply terminates_ret.
Qed.

Ltac terminates_auto :=
  repeat match goal with
         | |- terminates (ret _) => apply terminates_ret
         | |- terminates (throw _) => apply terminates_throw
         | |- terminates (halts _) => apply terminates_halts; discriminate
         | |- terminates (ev (JS.get_prop _ args)) => apply ev_prop_terminates
         | |- terminates (Strict.extractValue ev args) => apply extractValue_terminates
         | |- terminates (bind (Strict.values_of _ _) _) => apply values_terminates; intros ?
         | |- terminates (bind _ _) => apply terminates_bind; [| intros ?]
         | |- terminates (if ?c then _ else _) => destruct c
         end.

Lemma dispatch_terminates (operationName : string) :
  terminates (Strict.dispatch ev operationName args).
Proof.
  unfold Strict.dispatch.
  repeat match goal with
         | |- terminates (if ?c then _ else _) => destruct c
         end;
    try apply executeLet_terminates;
    try apply terminates_throw;
    unfold Strict.executeConcat, Strict.executeUppercase, Strict.executeLowercase,
      Strict.executeLength, Strict.executeSubstring, Strict.executeAnd,
      Strict.executeOr, Strict.executeNot, Strict.executeEquals, Strict.executeIf;
    terminates_auto.
Qed.

End StrictTermination.

(** With a recursion bound above the depth of the expression, the bound is
    not reached by the strict evaluator. *)
Lemma evaluate_terminates (fuel : nat) (expression : jsval) :
  (depth expression < fuel)%nat -> terminates (Strict.evaluate fuel expression).
Proof.
  revert expression. induction fuel as [| fuel IH]; intros expression Hd; [lia |].
  destruct expression as [| | b | x | s | r items | r [| [name args] others]]; simpl;
    try apply terminates_ret.
  - destruct (JS.starts_with_dollar s); [| apply terminates_ret].
    apply terminates_bind; [apply terminates_gets |]. intros vars.
    destruct (vars !! JS.drop_first s); [apply terminates_ret |].
    destruct (JS.inherits (JS.drop_first s));
      [apply terminates_halts; discriminate | apply terminates_throw].
  - apply terminates_bind; [intros st; discriminate |]. intros r'.
    apply terminates_bind; [| intros vs; apply terminates_ret].
    apply terminates_mapM. intros x Hx. apply IH.
    pose proof (depth_item r items x Hx). lia.
  - apply dispatch_terminates. intros e He. apply IH.
    pose proof (depth_field r ((name, args) :: others) name args (or_introl eq_refl)).
    lia.
Qed.

(** * Further properties of the strict evaluator *)

(** ** Errors *)

Lemma dispatch_unknown (ev : jsval -> M interp jsval) (name : string) (args : jsval)
    (st : interp) :
  ~ In name operations ->
  Strict.dispatch ev name args st = (Throw (Error ("Unknown operation: " ++ name)), st).
Proof.
  intros H. unfold Strict.dispatch.
  repeat match goal with
         | |- context [String.eqb name ?k] =>
             destruct (String.eqb_spec name k) as [-> | _];
             [exfalso; apply H; simpl; tauto |]
         end.
  reflexivity.
Qed.

(** X1.  A mapping whose first key is none of the eleven operation names
    makes [evaluate] throw [Unknown operation: name]; the payload is not
    looked at and the interpreter is left as it was. *)
Theorem unknown_operation_throws :
  forall (fuel : nat) (r : ref) (name : string) (args : jsval)
         (others : list (string * jsval)) (st : interp),
    ~ In name operations ->
    Strict.evaluate (S fuel) (JObj r ((name, args) :: others)) st
    = (Throw (Error ("Unknown operation: " ++ name)), st).
Proof.
  intros fuel r name args others st H. simpl. apply dispatch_unknown. exact H.
Qed.

Lemma unknown_operation_throws_witness :
  Strict.evaluate 1 (JObj 1 [("get", JStr "a")]) Examples.empty_interp
  = (Throw (Error ("Unknown operation: " ++ "get")), Examples.empty_interp).
Proof.
  apply (unknown_operation_throws 0 1 "get" (JStr "a") [] Examples.empty_interp).
  simpl. intros H. repeat (destruct H as [H | H]; [discriminate H |]). exact H.
Defined.

(** X2.  In an interpreter that has no variable named [__proto__], every
    evaluation that returns a value, of any expression, leaves the
    variables exactly as they were. *)
Theorem evaluation_keeps_variables :
  forall (fuel : nat) (expression v : jsval) (st st' : interp),
    plain_variables st ->
    Strict.evaluate fuel expression st = (Ret v, st') ->
    variables st' = variables st.
Proof.
  intros fuel expression v st st' Hplain H.
  exact (evaluate_preserves fuel expression st st' v Hplain H).
Qed.

Lemma evaluation_keeps_variables_witness :
  variables (snd (Strict.evaluate 4 Examples.let_shadowing_then_outer
                    Examples.empty_interp))
  = variables Examples.empty_interp.
Proof.
  apply (evaluation_keeps_variables 4 Examples.let_shadowing_then_outer
           (JArr 100 [Examples.num 2; Examples.num 1])).
  - reflexivity.
  - reflexivity.
Defined.

(** ** Sequences *)

Lemma mapM_ret_Forall2 {S A B : Type} (f : A -> M S B) (l : list A) (s s' : S)
    (ys : list B) :
  mapM f l s = (Ret ys, s') ->
  Forall2 (fun x y => exists s0 s1, f x s0 = (Ret y, s1)) l ys.
Proof.
  revert s s' ys. induction l as [| x rest IH]; intros s s' ys H.
  - injection H as <- _. constructor.
  - simpl in H. apply bind_ret_inv in H as (y & s1 & Hy & H).
    apply bind_ret_inv in H as (zs & s2 & Hzs & H). injection H as <- _.
    constructor; [exists s, s1; exact Hy | exact (IH _ _ _ Hzs)].
Qed.

Lemma mapM_throw_at {S A B : Type} (f : A -> M S B) (pre post : list A) (x : A)
    (s s1 s2 : S) (ys : list B) (e : error) :
  mapM f pre s = (Ret ys, s1) ->
  f x s1 = (Throw e, s2) ->
  mapM f (pre ++ x :: post) s = (Throw e, s2).
Proof.
  revert s ys. induction pre as [| p pre IH]; intros s ys Hpre Hx.
  - injection Hpre as _ <-. simpl. unfold bind at 1. rewrite Hx. reflexivity.
  - simpl in Hpre. apply bind_ret_inv in Hpre as (y & s' & Hy & Hpre).
    apply bind_ret_inv in Hpre as (zs & s'' & Hzs & Hpre). injection Hpre as _ <-.
    simpl. rewrite (bind_ret _ _ _ _ _ Hy).
    unfold bind at 1. rewrite (IH _ _ Hzs Hx). reflexivity.
Qed.

(** *** Identities are not reused *)

Lemma advances_ret {A : Type} (a : A) : advances (ret a).
Proof. intros s. simpl. lia. Qed.

Lemma advances_throw {A : Type} (e : error) : advances (@throw interp A e).
Proof. intros s. simpl. lia. Qed.

Lemma advances_bind {A B : Type} (m : M interp A) (k : A -> M interp B) :
  advances m -> (forall a, advances (k a)) -> advances (bind m k).
Proof.
  intros Hm Hk s. unfold bind. specialize (Hm s).
  destruct (m s) as [[a | e |] s1]; simpl in *; try exact Hm.
  specialize (Hk a s1). lia.
Qed.

Lemma advances_mapM {A B : Type} (f : A -> M interp B) (l : list A) :
  (forall x, advances (f x)) -> advances (mapM f l).
Proof.
  intros Hf. induction l as [| x rest IH]; simpl.
  - apply advances_ret.
  - apply advances_bind; [apply Hf |]. intros y.
    apply advances_bind; [exact IH |]. intros ys. apply advances_ret.
Qed.

Lemma advances_forM {A : Type} (f : A -> M interp unit) (l : list A) :
  (forall x, advances (f x)) -> advances (forM f l).
Proof.
  intros Hf. induction l as [| x rest IH]; simpl.
  - apply advances_ret.
  - apply advances_bind; [apply Hf |]. intros _. exact IH.
Qed.

Lemma advances_fresh : advances Strict.fresh.
Proof. intros s. simpl. lia. Qed.

Lemma advances_values_of (operation : string) (args : jsval) :
  advances (Strict.values_of operation args).
Proof.
  unfold Strict.values_of.
  destruct (JS.isArray args); [apply advances_ret |].
  destruct (JS.truthy args && JS.typeof_object args && JS.has_prop "values" args);
    [apply advances_ret | apply advances_throw].
Qed.

Lemma advances_halts {A : Type} (h : halt) : advances (@halts interp A h).
Proof. intros s. simpl. lia. Qed.

Lemma advances_set_variable (key : string) (v : jsval) :
  advances (Strict.set_variable key v).
Proof.
  unfold Strict.set_variable.
  apply advances_bind; [intros s; simpl; lia |]. intros vars.
  destruct (vars !! key); [intros s; simpl; lia |].
  destruct (String.eqb key "__proto__"); [| intros s; simpl; lia].
  destruct (JS.typeof_object v); [apply advances_halts | apply advances_ret].
Qed.

Lemma advances_restore (saved : gmap string jsval) : advances (Strict.restore saved).
Proof.
  unfold Strict.restore.
  destruct (saved !! "__proto__") as [v |]; [| intros s; simpl; lia].
  destruct (JS.typeof_object v); [apply advances_halts | intros s; simpl; lia].
Qed.

Section Advancing.

Variable ev : jsval -> M interp jsval.
Hypothesis ev_advances : forall e : jsval, advances (ev e).

Ltac advances_auto :=
  repeat match goal with
         | |- advances (ret _) => apply advances_ret
         | |- advances (throw _) => apply advances_throw
         | |- advances (halts _) => apply advances_halts
         | |- advances (ev _) => apply ev_advances
         | |- advances (gets _) => intros ?; simpl; lia
         | |- advances (modify _) => intros ?; simpl; lia
         | |- advances (Strict.restore _) => apply advances_restore
         | |- advances (Strict.set_variable _ _) => apply advances_set_variable
         | |- advances (Strict.values_of _ _) => apply advances_values_of
         | |- advances (mapM _ _) => apply advances_mapM; intros ?
         | |- advances (forM _ _) => apply advances_forM; intros ?
         | |- advances (bind _ _) => apply advances_bind; [| intros ?]
         | |- advances (if ?c then _ else _) => destruct c
         | |- advances (match ?v with _ => _ end) => destruct v
         | |- advances (let (_, _) := ?p in _) => destruct p
         end.

Lemma dispatch_advances (operationName : string) (operationArgs : jsval) :
  advances (Strict.dispatch ev operationName operationArgs).
Proof.
  unfold Strict.dispatch, Strict.executeLet, Strict.executeConcat,
    Strict.executeUppercase, Strict.executeLowercase, Strict.executeLength,
    Strict.executeSubstring, Strict.executeAnd, Strict.executeOr, Strict.executeNot,
    Strict.executeEquals, Strict.executeIf, Strict.extractValue, Strict.map_values,
    Strict.bind_entry.
  advances_auto.
Qed.

End Advancing.

Lemma evaluate_advances (fuel : nat) (expression : jsval) :
  advances (Strict.evaluate fuel expression).
Proof.
  revert expression. induction fuel as [| fuel IH]; intros expression.
  - intros s. simpl. lia.
  - destruct expression as [| | b | x | s | r items | r [| [name args] others]]; simpl;
      try apply advances_ret.
    + destruct (JS.starts_with_dollar s); [| apply advances_ret].
      apply advances_bind; [intros st; simpl; lia |]. intros vars.
      destruct (vars !! JS.drop_first s); [apply advances_ret |].
      destruct (JS.inherits (JS.drop_first s)); [apply advances_halts | apply advances_throw].
    + apply advances_bind; [apply advances_fresh |]. intros r'.
      apply advances_bind; [apply advances_mapM; exact IH |]. intros vs.
      apply advances_ret.
    + apply dispatch_advances. exact IH.
Qed.

(** ** New sequences are new objects *)

Lemma jsval_induction (P : jsval -> Prop) :
  P JNull -> P JUndefined -> (forall b, P (JBool b)) -> (forall n, P (JNum n)) ->
  (forall s, P (JStr s)) ->
  (forall r items, Forall P items -> P (JArr r items)) ->
  (forall r fields, Forall (fun kv => P (snd kv)) fields -> P (JObj r fields)) ->
  forall v : jsval, P v.
Proof.
  intros Hnull Hundef Hbool Hnum Hstr Harr Hobj. fix IH 1.
  intros [| | b | n | s | r items | r fields];
    [exact Hnull | exact Hundef | apply Hbool | apply Hnum | apply Hstr | |].
  - apply Harr. induction items as [| x items IHitems]; constructor; [apply IH | exact IHitems].
  - apply Hobj. induction fields as [| kv fields IHfields]; constructor;
      [apply IH | exact IHfields].
Qed.

Lemma allocated_mono (top top' : ref) (v : jsval) :
  (top <= top')%nat -> allocated top v = true -> allocated top' v = true.
Proof.
  intros Hle. induction v as [| | b | n | s | r items IH | r fields IH] using jsval_induction;
    simpl; auto; intros H; apply andb_true_iff in H as [Hr Hall];
    apply andb_true_iff; (split; [apply Nat.ltb_lt in Hr; apply Nat.ltb_lt; lia |]).
  - rewrite forallb_forall in *. rewrite List.Forall_forall in IH.
    intros x Hx. apply IH; [exact Hx | apply Hall; exact Hx].
  - rewrite forallb_forall in *. rewrite List.Forall_forall in IH.
    intros kv Hkv. apply IH; [exact Hkv | apply (Hall kv); exact Hkv].
Qed.

Lemma allocated_map_mono (top top' : ref) (vars : gmap string jsval) :
  (top <= top')%nat -> allocated_map top vars -> allocated_map top' vars.
Proof. intros Hle H k v Hk. exact (allocated_mono _ _ _ Hle (H k v Hk)). Qed.

Lemma allocated_item (top r : ref) (items : list jsval) (x : jsval) :
  allocated top (JArr r items) = true -> In x items -> allocated top x = true.
Proof.
  simpl. intros H Hx. apply andb_true_iff in H as [_ H].
  rewrite forallb_forall in H. exact (H x Hx).
Qed.

Lemma allocated_field (top r : ref) (fields : list (string * jsval)) (k : string)
    (x : jsval) :
  allocated top (JObj r fields) = true -> In (k, x) fields -> allocated top x = true.
Proof.
  simpl. intros H Hx. apply andb_true_iff in H as [_ H].
  rewrite forallb_forall in H. exact (H (k, x) Hx).
Qed.

Lemma allocated_get_prop (top : ref) (k : string) (o : jsval) :
  allocated top o = true -> allocated top (JS.get_prop k o) = true.
Proof.
  intros H. destruct o as [| | b | n | s | r items | r fields]; try reflexivity.
  unfold JS.get_prop. destruct (JS.lookup_field k fields) as [x |] eqn:E; [| reflexivity].
  destruct (lookup_field_In _ _ _ E) as [k' Hin]. exact (allocated_field _ _ _ _ _ H Hin).
Qed.

Lemma allocated_entry (top : ref) (o : jsval) (k : string) (x : jsval) :
  allocated top o = true -> In (k, x) (JS.entries o) -> allocated top x = true.
Proof.
  intros H Hin. destruct o as [| | b | n | s | r items | r fields]; simpl in Hin;
    try contradiction.
  - apply in_map_iff in Hin as [[i y] [Heq Hin]]. injection Heq as _ ->.
    apply indexed_from_In in Hin. exact (allocated_item _ _ _ _ H Hin).
  - exact (allocated_field _ _ _ _ _ H Hin).
Qed.

Lemma allocates_ret {A : Type} (top : ref) (P : ref -> A -> Prop) (a : A) :
  (forall top', (top <= top')%nat -> P top' a) -> allocates top P (ret a).
Proof.
  intros H s s' a' Htop Hs E. injection E as <- <-.
  split; [lia | split; [exact Hs | apply H; exact Htop]].
Qed.

Lemma allocates_throw {A : Type} (top : ref) (P : ref -> A -> Prop) (e : error) :
  allocates top P (throw e).
Proof. intros s s' a _ _ E. discriminate E. Qed.

Lemma allocates_halts {A : Type} (top : ref) (P : ref -> A -> Prop) (h : halt) :
  allocates top P (halts h).
Proof. intros s s' a _ _ E. discriminate E. Qed.

Lemma allocates_bind {A B : Type} (top : ref) (P : ref -> A -> Prop)
    (Q : ref -> B -> Prop) (m : M interp A) (k : A -> M interp B) :
  allocates top P m ->
  (forall (a : A) (top' : ref), (top <= top')%nat -> P top' a -> allocates top' Q (k a)) ->
  allocates top Q (bind m k).
Proof.
  intros Hm Hk s s' b Htop Hs E.
  apply bind_ret_inv in E as (a & s1 & E1 & E2).
  destruct (Hm _ _ _ Htop Hs E1) as (Hle & Hs1 & Pa).
  destruct (Hk a (next_ref s1) ltac:(lia) Pa _ _ _ (Nat.le_refl _) Hs1 E2)
    as (Hle' & Hs' & Qb).
  split; [lia | split; assumption].
Qed.

Lemma allocates_weaken {A : Type} (top : ref) (P Q : ref -> A -> Prop) (m : M interp A) :
  (forall top' a, P top' a -> Q top' a) -> allocates top P m -> allocates top Q m.
Proof.
  intros H Hm s s' a Htop Hs E. destruct (Hm _ _ _ Htop Hs E) as (Hle & Hs' & Pa).
  split; [exact Hle | split; [exact Hs' | apply H; exact Pa]].
Qed.

Lemma allocates_mapM (top : ref) (f : jsval -> M interp jsval) (l : list jsval) :
  (forall (x : jsval) (top' : ref),
      In x l -> (top <= top')%nat -> allocates top' allocated_value (f x)) ->
  allocates top allocated_values (mapM f l).
Proof.
  revert top. induction l as [| x rest IH]; intros top Hf; simpl.
  - apply allocates_ret. intros top' _. constructor.
  - eapply allocates_bind; [apply Hf; [left; reflexivity | lia] |].
    intros y top1 Htop1 Hy.
    eapply allocates_bind.
    + apply IH. intros z top2 Hz Htop2. apply Hf; [right; exact Hz | lia].
    + intros ys top2 Htop2 Hys. apply allocates_ret. intros top3 Htop3.
      constructor.
      * apply (allocated_mono top1); [lia | exact Hy].
      * unfold allocated_values in *. rewrite List.Forall_forall in *.
        intros z Hz. exact (allocated_mono _ _ _ Htop3 (Hys z Hz)).
Qed.

Lemma allocates_forM {A : Type} (top : ref) (f : A -> M interp unit) (l : list A) :
  (forall (x : A) (top' : ref),
      In x l -> (top <= top')%nat -> allocates top' anything (f x)) ->
  allocates top anything (forM f l).
Proof.
  revert top. induction l as [| x rest IH]; intros top Hf; simpl.
  - apply allocates_ret. intros top' _. exact I.
  - eapply allocates_bind; [apply Hf; [left; reflexivity | lia] |].
    intros _ top1 Htop1 _. apply IH. intros z top2 Hz Htop2.
    apply Hf; [right; exact Hz | lia].
Qed.

Lemma allocates_fresh (top : ref) :
  allocates top (fun top' r => (r < top')%nat) Strict.fresh.
Proof.
  intros s s' r _ Hs E. unfold Strict.fresh in E. injection E as Er Es. subst r s'.
  simpl. split; [lia | split; [| lia]].
  unfold well_allocated. simpl.
  apply (allocated_map_mono (next_ref s)); [lia | exact Hs].
Qed.

Lemma allocates_variables (top : ref) : allocates top allocated_map (gets variables).
Proof.
  intros s s' vars _ Hs E. injection E as <- <-.
  split; [lia | split; exact Hs].
Qed.

Lemma well_allocated_insert (s : interp) (key : string) (v : jsval) :
  well_allocated s -> allocated (next_ref s) v = true ->
  well_allocated (MkInterp (<[key := v]> (variables s)) (next_ref s)).
Proof.
  intros Hs Hv k x. simpl. destruct (decide (key = k)) as [-> | Hne].
  - rewrite lookup_insert_eq. intros E. injection E as <-. exact Hv.
  - rewrite lookup_insert_ne by exact Hne. apply Hs.
Qed.

Lemma allocates_set_variable (top : ref) (key : string) (v : jsval) :
  allocated top v = true -> allocates top anything (Strict.set_variable key v).
Proof.
  intros Hv s s' u Htop Hs E. unfold Strict.set_variable, bind, gets in E.
  assert (Hins : well_allocated (MkInterp (<[key := v]> (variables s)) (next_ref s))).
  { apply well_allocated_insert; [exact Hs | exact (allocated_mono _ _ _ Htop Hv)]. }
  destruct (variables s !! key).
  - injection E as _ <-. split; [simpl; lia | split; [exact Hins | exact I]].
  - destruct (String.eqb key "__proto__").
    + destruct (JS.typeof_object v); [discriminate E |].
      injection E as _ <-. split; [lia | split; [exact Hs | exact I]].
    + injection E as _ <-. split; [simpl; lia | split; [exact Hins | exact I]].
Qed.

Lemma allocates_restore (top : ref) (saved : gmap string jsval) :
  allocated_map top saved -> allocates top anything (Strict.restore saved).
Proof.
  intros Hsaved s s' u Htop Hs E. unfold Strict.restore in E.
  destruct (saved !! "__proto__") as [v |].
  - destruct (JS.typeof_object v); [discriminate E |].
    injection E as _ <-. split; [simpl; lia | split; [| exact I]].
    intros k x. simpl. intros Hk. apply lookup_delete_Some in Hk as [_ Hk].
    exact (allocated_mono _ _ _ Htop (Hsaved k x Hk)).
  - injection E as _ <-. split; [simpl; lia | split; [| exact I]].
    intros k x. simpl. intros Hk. exact (allocated_mono _ _ _ Htop (Hsaved k x Hk)).
Qed.

Section Allocation.

Variable ev : jsval -> M interp jsval.
Hypothesis ev_allocates :
  forall (e : jsval) (top : ref), allocated top e = true -> allocates top allocated_value (ev e).

Lemma allocates_extractValue (top : ref) (args : jsval) :
  allocated top args = true -> allocates top allocated_value (Strict.extractValue ev args).
Proof.
  intros H. unfold Strict.extractValue.
  destruct (JS.typeof_object args && negb (JS.is_null args) && negb (JS.isArray args)
            && JS.has_prop "value" args);
    apply ev_allocates; [apply allocated_get_prop |]; exact H.
Qed.

(** An operation that evaluates its payload and returns a value without
    objects in it. *)
Lemma allocates_then_primitive {A : Type} (top : ref) (P : ref -> A -> Prop)
    (m : M interp A) (f : A -> jsval) :
  allocates top P m ->
  (forall (a : A) (top' : ref), allocated top' (f a) = true) ->
  allocates top allocated_value (a <- m ;; ret (f a)).
Proof.
  intros Hm Hf. eapply allocates_bind; [exact Hm |].
  intros a top' _ _. apply allocates_ret. intros top2 _. apply Hf.
Qed.

(** The operations on a sequence: the payload is evaluated element by
    element and the result carries no object. *)
Lemma allocates_values (top : ref) (operation : string) (args : jsval)
    (f : list jsval -> jsval) :
  allocated top args = true ->
  (forall (vs : list jsval) (top' : ref), allocated top' (f vs) = true) ->
  allocates top allocated_value
    (values <- Strict.values_of operation args ;;
     vs <- Strict.map_values ev values ;;
     ret (f vs)).
Proof.
  intros H Hf.
  assert (Hmap : forall (values : jsval) (top' : ref),
             (top <= top')%nat -> allocated top values = true ->
             allocates top' allocated_value
               (vs <- Strict.map_values ev values ;; ret (f vs))).
  { intros values top' Htop' Hv.
    apply allocates_then_primitive with (P := allocated_values); [| exact Hf].
    destruct values as [| | b | n | s | r items | r fields]; simpl;
      try apply allocates_throw.
    apply allocates_mapM. intros x top2 Hx Htop2. apply ev_allocates.
    apply (allocated_mono top); [lia |]. exact (allocated_item _ _ _ _ Hv Hx). }
  unfold Strict.values_of.
  destruct (JS.isArray args).
  - eapply allocates_bind; [apply (allocates_ret top (fun top' v => v = args)); reflexivity |].
    intros values top' Htop' ->. apply Hmap; assumption.
  - destruct (JS.truthy args && JS.typeof_object args && JS.has_prop "values" args).
    + eapply allocates_bind;
        [apply (allocates_ret top (fun top' v => v = JS.get_prop "values" args)); reflexivity |].
      intros values top' Htop' ->. apply Hmap; [exact Htop' |].
      apply allocated_get_prop. exact H.
    + intros s s' a _ _ E. discriminate E.
Qed.

Lemma allocates_executeLet (top : ref) (args : jsval) :
  allocated top args = true -> allocates top allocated_value (Strict.executeLet ev args).
Proof.
  intros H. unfold Strict.executeLet.
  destruct (negb (JS.truthy args) || negb (JS.typeof_object args));
    [apply allocates_throw |].
  eapply allocates_bind; [apply allocates_variables |].
  intros saved top1 Htop1 Hsaved.
  destruct (negb (JS.truthy (JS.get_prop "in" args))); [apply allocates_throw |].
  eapply allocates_bind.
  - apply allocates_forM. intros [key value] top2 Hin Htop2. unfold Strict.bind_entry.
    destruct (negb (String.eqb key "in")).
    + eapply allocates_bind.
      * apply ev_allocates. apply (allocated_mono top); [lia |].
        exact (allocated_entry _ _ _ _ H Hin).
      * intros v top3 Htop3 Hv. apply allocates_set_variable. exact Hv.
    + apply allocates_ret. intros top3 _. exact I.
  - intros _ top2 Htop2 _.
    eapply allocates_bind.
    + apply ev_allocates. apply (allocated_mono top); [lia |].
      apply allocated_get_prop. exact H.
    + intros result top3 Htop3 Hresult.
      eapply allocates_bind.
      * apply allocates_restore. apply (allocated_map_mono top1); [lia | exact Hsaved].
      * intros _ top4 Htop4 _. apply allocates_ret. intros top5 Htop5.
        apply (allocated_mono top3); [lia | exact Hresult].
Qed.

Lemma allocates_prop (top top' : ref) (k : string) (args : jsval) :
  allocated top args = true -> (top <= top')%nat ->
  allocates top' allocated_value (ev (JS.get_prop k args)).
Proof.
  intros H Hle. apply ev_allocates. apply (allocated_mono top); [exact Hle |].
  apply allocated_get_prop. exact H.
Qed.

Lemma allocates_dispatch (top : ref) (operationName : string) (operationArgs : jsval) :
  allocated top operationArgs = true ->
  allocates top allocated_value (Strict.dispatch ev operationName operationArgs).
Proof.
  intros H. unfold Strict.dispatch.
  repeat match goal with
         | |- allocates _ _ (if ?c then _ else _) => destruct c
         end;
    try apply allocates_throw.
  - apply allocates_executeLet. exact H.
  - unfold Strict.executeConcat. apply allocates_values; [exact H | reflexivity].
  - unfold Strict.executeUppercase.
    apply allocates_then_primitive with (P := allocated_value);
      [apply allocates_extractValue; exact H | reflexivity].
  - unfold Strict.executeLowercase.
    apply allocates_then_primitive with (P := allocated_value);
      [apply allocates_extractValue; exact H | reflexivity].
  - unfold Strict.executeLength.
    apply allocates_then_primitive with (P := allocated_value);
      [apply allocates_extractValue; exact H | reflexivity].
  - unfold Strict.executeSubstring.
    destruct (negb (JS.truthy operationArgs) || negb (JS.typeof_object operationArgs)
              || negb (JS.has_prop "value" operationArgs)
              || negb (JS.has_prop "start" operationArgs));
      [apply allocates_throw |].
    eapply allocates_bind; [apply (allocates_prop top); [exact H | lia] |].
    intros value top1 Htop1 _.
    eapply allocates_bind; [apply (allocates_prop top); [exact H | lia] |].
    intros start top2 Htop2 _.
    eapply allocates_bind with (P := allocated_value).
    + destruct (JS.is_undefined (JS.get_prop "end" operationArgs)).
      * apply allocates_ret. reflexivity.
      * apply (allocates_prop top); [exact H | lia].
    + intros end_ top3 Htop3 _.
      destruct (JS.reads_number start && JS.reads_number end_);
        [apply allocates_ret; reflexivity | apply allocates_halts].
  - unfold Strict.executeAnd. apply allocates_values; [exact H | reflexivity].
  - unfold Strict.executeOr. apply allocates_values; [exact H | reflexivity].
  - unfold Strict.executeNot.
    apply allocates_then_primitive with (P := allocated_value);
      [apply allocates_extractValue; exact H | reflexivity].
  - unfold Strict.executeEquals.
    destruct (negb (JS.truthy operationArgs) || negb (JS.typeof_object operationArgs)
              || negb (JS.has_prop "left" operationArgs)
              || negb (JS.has_prop "right" operationArgs));
      [apply allocates_throw |].
    eapply allocates_bind; [apply (allocates_prop top); [exact H | lia] |].
    intros left top1 Htop1 _.
    apply allocates_then_primitive with (P := allocated_value); [| reflexivity].
    apply (allocates_prop top); [exact H | lia].
  - unfold Strict.executeIf.
    destruct (negb (JS.truthy operationArgs) || negb (JS.typeof_object operationArgs)
              || negb (JS.has_prop "condition" operationArgs));
      [apply allocates_throw |].
    eapply allocates_bind; [apply (allocates_prop top); [exact H | lia] |].
    intros condition top1 Htop1 _.
    destruct (JS.truthy condition).
    + destruct (JS.is_undefined (JS.get_prop "then" operationArgs));
        [apply allocates_ret; reflexivity | apply (allocates_prop top); [exact H | lia]].
    + destruct (JS.is_undefined (JS.get_prop "else" operationArgs));
        [apply allocates_ret; reflexivity | apply (allocates_prop top); [exact H | lia]].
Qed.

End Allocation.

(** Every evaluation keeps the next identity new, and returns a value
    whose objects have identities below it. *)
Lemma evaluate_allocates (fuel : nat) (expression : jsval) (top : ref) :
  allocated top expression = true ->
  allocates top allocated_value (Strict.evaluate fuel expression).
Proof.
  revert expression top. induction fuel as [| fuel IH]; intros expression top H.
  - apply allocates_halts.
  - assert (Hself : allocates top allocated_value (ret expression)).
    { apply allocates_ret. intros top' Htop'. exact (allocated_mono _ _ _ Htop' H). }
    destruct expression as [| | b | x | s | r items | r [| [name args] others]]; simpl;
      try exact Hself.
    + destruct (JS.starts_with_dollar s); [| exact Hself].
      eapply allocates_bind; [apply allocates_variables |].
      intros vars top1 Htop1 Hvars.
      destruct (vars !! JS.drop_first s) as [v |] eqn:E.
      * apply allocates_ret. intros top2 Htop2.
        exact (allocated_mono _ _ _ Htop2 (Hvars _ _ E)).
      * destruct (JS.inherits (JS.drop_first s));
          [apply allocates_halts | apply allocates_throw].
    + eapply allocates_bind; [apply allocates_fresh |].
      intros r' top1 Htop1 Hr'.
      eapply allocates_bind.
      * apply allocates_mapM. intros x top2 Hx Htop2. apply IH.
        apply (allocated_mono top); [lia |]. exact (allocated_item _ _ _ _ H Hx).
      * intros vs top2 Htop2 Hvs. apply allocates_ret. intros top3 Htop3.
        unfold allocated_value. simpl. apply andb_true_iff. split.
        -- apply Nat.ltb_lt. cbv beta in Hr'. lia.
        -- apply forallb_forall. intros x Hx.
           unfold allocated_values in Hvs. rewrite List.Forall_forall in Hvs.
           exact (allocated_mono _ _ _ Htop3 (Hvs x Hx)).
    + apply allocates_dispatch; [exact IH |].
      exact (allocated_field _ _ _ name args H (or_introl eq_refl)).
Qed.

(** An object with an identity below [top] is not the array created at
    [top]. *)
Lemma strict_equals_new (top : ref) (vs : list jsval) (w : jsval) :
  allocated top w = true ->
  JS.strict_equals (JArr top vs) w = false /\ JS.strict_equals w (JArr top vs) = false.
Proof.
  intros H. destruct w as [| | b | n | s | r items | r fields]; try (split; reflexivity).
  simpl in *. apply andb_true_iff in H as [H _]. apply Nat.ltb_lt in H.
  split; apply Nat.eqb_neq; lia.
Qed.

(** X3.  A sequence evaluates to a new sequence with one value per element
    in the order of the elements; the first element that throws makes the
    whole sequence throw.  The new sequence is a different object from every
    one there was: when the next identity of the interpreter is new, that
    is, above the identities of the objects in the variables and in the
    expression, the result is not [===] to any object with an identity
    below it.  Every evaluation that returns keeps the next identity new,
    above the objects of the variables and of the value returned. *)
Theorem sequence_evaluates_elementwise :
  (forall (fuel : nat) (r : ref) (items : list jsval) (v : jsval) (st st' : interp),
      Strict.evaluate (S fuel) (JArr r items) st = (Ret v, st') ->
      exists vs : list jsval,
        v = JArr (next_ref st) vs
        /\ List.length vs = List.length items
        /\ Forall2 (fun e w => exists s0 s1, Strict.evaluate fuel e s0 = (Ret w, s1))
             items vs
        /\ (next_ref st < next_ref st')%nat)
  /\ (forall (fuel : nat) (r : ref) (pre post : list jsval) (x : jsval)
             (vs : list jsval) (st st1 st2 : interp) (e : error),
         mapM (Strict.evaluate fuel) pre
           (MkInterp (variables st) (S (next_ref st))) = (Ret vs, st1) ->
         Strict.evaluate fuel x st1 = (Throw e, st2) ->
         Strict.evaluate (S fuel) (JArr r (pre ++ x :: post)) st = (Throw e, st2))
  /\ (forall (fuel : nat) (r : ref) (items : list jsval) (v : jsval) (st st' : interp),
         well_allocated st ->
         allocated (next_ref st) (JArr r items) = true ->
         Strict.evaluate (S fuel) (JArr r items) st = (Ret v, st') ->
         (forall w : jsval,
             allocated (next_ref st) w = true ->
             JS.strict_equals v w = false /\ JS.strict_equals w v = false)
         /\ (forall (k : string) (w : jsval),
                variables st !! k = Some w -> JS.strict_equals v w = false)
         /\ JS.strict_equals v (JArr r items) = false)
  /\ (forall (fuel : nat) (expression v : jsval) (st st' : interp),
         well_allocated st ->
         allocated (next_ref st) expression = true ->
         Strict.evaluate fuel expression st = (Ret v, st') ->
         well_allocated st' /\ allocated (next_ref st') v = true).
Proof.
  split; [| split; [| split]].
  - intros fuel r items v st st' H. simpl in H.
    apply bind_ret_inv in H as (r1 & st1 & Hf & H).
    apply bind_ret_inv in H as (vs & st2 & Hvs & H).
    injection Hf as <- <-. injection H as <- <-.
    exists vs. split; [reflexivity |].
    pose proof (mapM_ret_Forall2 _ _ _ _ _ Hvs) as Hall.
    split; [symmetry; eapply Forall2_length; exact Hall | split; [exact Hall |]].
    pose proof (advances_mapM _ items (evaluate_advances fuel)
                  (MkInterp (variables st) (S (next_ref st)))) as Hadv.
    rewrite Hvs in Hadv. simpl in Hadv. lia.
  - intros fuel r pre post x vs st st1 st2 e Hpre Hx. simpl.
    unfold bind at 1. unfold Strict.fresh.
    unfold bind at 1. rewrite (mapM_throw_at _ _ _ _ _ _ _ _ _ Hpre Hx). reflexivity.
  - intros fuel r items v st st' Hst Hexpr H.
    assert (Hv : exists vs, v = JArr (next_ref st) vs).
    { simpl in H. apply bind_ret_inv in H as (r1 & st1 & Hf & H).
      apply bind_ret_inv in H as (vs & st2 & _ & H).
      injection Hf as <- <-. injection H as <- _. exists vs. reflexivity. }
    destruct Hv as [vs ->].
    split; [| split].
    + intros w Hw. exact (strict_equals_new _ vs w Hw).
    + intros k w Hk. exact (proj1 (strict_equals_new _ vs w (Hst k w Hk))).
    + exact (proj1 (strict_equals_new _ vs _ Hexpr)).
  - intros fuel expression v st st' Hst Hexpr H.
    destruct (evaluate_allocates fuel expression (next_ref st) Hexpr st st' v
                (Nat.le_refl _) Hst H) as (_ & Hst' & Hv).
    split; [exact Hst' | exact Hv].
Qed.

Lemma sequence_evaluates_elementwise_witness :
  JS.strict_equals (JArr 100 [Examples.num 2; Examples.num 1])
    (JArr 5 [Examples.let_inner; Examples.num 1])
  = false.
Proof.
  refine (proj2 (proj2 (proj1 (proj2 (proj2 sequence_evaluates_elementwise))
                          3 5 [Examples.let_inner; Examples.num 1]
                          (JArr 100 [Examples.num 2; Examples.num 1])
                          Examples.empty_interp (MkInterp ∅ 101) _ _ _))).
  - intros k w H. discriminate H.
  - reflexivity.
  - reflexivity.
Defined.

(** ** Conditionals *)

Lemma evaluate_if (fuel : nat) (r r' : ref) (fields others : list (string * jsval))
    (c : jsval) (st : interp) :
  JS.lookup_field "condition" fields = Some c ->
  Strict.evaluate (S fuel) (JObj r (("if", JObj r' fields) :: others)) st
  = (condition <- Strict.evaluate fuel c ;;
     if JS.truthy condition then
       if JS.is_undefined (JS.get_prop "then" (JObj r' fields)) then ret JNull
       else Strict.evaluate fuel (JS.get_prop "then" (JObj r' fields))
     else
       if JS.is_undefined (JS.get_prop "else" (JObj r' fields)) then ret JNull
       else Strict.evaluate fuel (JS.get_prop "else" (JObj r' fields))) st.
Proof.
  intros Hc. simpl. unfold Strict.dispatch. simpl. unfold Strict.executeIf. simpl.
  rewrite Hc. reflexivity.
Qed.

(** X4.  [if] evaluates the condition and then the selected branch only.
    When the condition is false the result is that of [else] evaluated after
    the condition, whatever stands in [then]; when it is true the result is
    that of [then], whatever stands in [else].  A branch that would throw is
    harmless when it is not selected. *)
Theorem if_is_lazy :
  forall (fuel : nat) (r r' : ref) (c t t' e e' vc : jsval) (st st1 : interp),
    Strict.evaluate fuel c st = (Ret vc, st1) ->
    (JS.truthy vc = false ->
     Strict.evaluate (S fuel) (if_expression r r' c t e) st
     = Strict.evaluate (S fuel) (if_expression r r' c t' e) st
     /\ (JS.is_undefined e = false ->
         Strict.evaluate (S fuel) (if_expression r r' c t e) st
         = Strict.evaluate fuel e st1))
    /\ (JS.truthy vc = true ->
        Strict.evaluate (S fuel) (if_expression r r' c t e) st
        = Strict.evaluate (S fuel) (if_expression r r' c t e') st
        /\ (JS.is_undefined t = false ->
            Strict.evaluate (S fuel) (if_expression r r' c t e) st
            = Strict.evaluate fuel t st1)).
Proof.
  intros fuel r r' c t t' e e' vc st st1 Hc.
  assert (H : forall a b : jsval,
             Strict.evaluate (S fuel) (if_expression r r' c a b) st
             = (if JS.truthy vc then
                  if JS.is_undefined a then ret JNull else Strict.evaluate fuel a
                else
                  if JS.is_undefined b then ret JNull else Strict.evaluate fuel b) st1).
  { intros a b. unfold if_expression.
    rewrite (evaluate_if fuel r r' [("condition", c); ("then", a); ("else", b)] [] c st
               eq_refl).
    rewrite (bind_ret _ _ _ _ _ Hc). reflexivity. }
  rewrite !H.
  split; intros Hv; rewrite Hv; (split; [reflexivity |]); intros Hu; rewrite Hu; reflexivity.
Qed.

Lemma if_is_lazy_witness :
  Strict.evaluate 2
    (if_expression 1 2 (JBool false) (JObj 3 [("boom", JNull)]) (JStr "ok"))
    Examples.empty_interp
  = Strict.evaluate 1 (JStr "ok") Examples.empty_interp.
Proof.
  destruct (if_is_lazy 1 1 2 (JBool false) (JObj 3 [("boom", JNull)]) JNull (JStr "ok")
              JNull (JBool false) Examples.empty_interp Examples.empty_interp eq_refl)
    as [Hfalse _].
  destruct (Hfalse eq_refl) as [_ H]. apply H. reflexivity.
Defined.

(** ** More on [let] *)

(** X5.  A [let] whose [in] expression is missing, or is one of the
    literals null, false, 0, NaN and the empty string, throws before any
    binding is evaluated: the interpreter is left as it was. *)
Theorem let_rejects_falsy_body :
  forall (fuel : nat) (r : ref) (args : jsval) (others : list (string * jsval))
         (st : interp),
    JS.truthy (JS.get_prop "in" args) = false ->
    exists message : string,
      Strict.evaluate (S fuel) (JObj r (("let", args) :: others)) st
      = (Throw (Error message), st).
Proof.
  intros fuel r args others st H. rewrite evaluate_let. unfold Strict.executeLet.
  destruct (negb (JS.truthy args) || negb (JS.typeof_object args)).
  - eexists. reflexivity.
  - unfold bind, gets. rewrite H. simpl. eexists. reflexivity.
Qed.

Lemma let_rejects_falsy_body_witness :
  exists message : string,
    Strict.evaluate 3
      (JObj 1 [("let", JObj 2 [("a", JStr "$missing"); ("in", Examples.num 0)])])
      Examples.empty_interp
    = (Throw (Error message), Examples.empty_interp).
Proof.
  apply (let_rejects_falsy_body 2 1
           (JObj 2 [("a", JStr "$missing"); ("in", Examples.num 0)]) []
           Examples.empty_interp).
  reflexivity.
Defined.

Lemma bind_assoc {S A B C : Type} (m : M S A) (k : A -> M S B) (h : B -> M S C)
    (s : S) :
  bind (bind m k) h s = bind m (fun a => bind (k a) h) s.
Proof. unfold bind. destruct (m s) as [[a | e |] s1]; reflexivity. Qed.

Lemma forM_app {S A : Type} (f : A -> M S unit) (l1 l2 : list A) (s : S) :
  forM f (l1 ++ l2) s = (_ <- forM f l1 ;; forM f l2) s.
Proof.
  revert s. induction l1 as [| x rest IH]; intros s; simpl.
  - reflexivity.
  - rewrite bind_assoc. apply bind_ext. intros a s1. apply IH.
Qed.

Lemma forM_bind_entry_move (ev : jsval -> M interp jsval) (body : jsval)
    (l1 l2 : list (string * jsval)) (st : interp) :
  forM (Strict.bind_entry ev) (l1 ++ ("in", body) :: l2) st
  = forM (Strict.bind_entry ev) (("in", body) :: l1 ++ l2) st.
Proof.
  change (forM (Strict.bind_entry ev) (("in", body) :: l1 ++ l2) st)
    with (forM (Strict.bind_entry ev) (l1 ++ l2) st).
  rewrite !forM_app. apply bind_ext. intros [] s1. reflexivity.
Qed.

Lemma lookup_field_skip (k : string) (l1 l2 : list (string * jsval)) :
  Forall (fun kv => fst kv <> k) l1 ->
  JS.lookup_field k (l1 ++ l2) = JS.lookup_field k l2.
Proof.
  induction 1 as [| [k' v] rest Hk _ IH]; [reflexivity |].
  simpl in *. apply String.eqb_neq in Hk. rewrite Hk. exact IH.
Qed.

(** X6.  Where the [in] key stands among the keys of a [let] makes no
    difference: the bindings written after it are installed before the [in]
    expression is evaluated, like those written before it. *)
Theorem let_body_position_is_irrelevant :
  forall (fuel : nat) (r r1 r2 : ref) (before after : list (string * jsval))
         (body : jsval) (st : interp),
    Forall (fun kv => fst kv <> "in") before ->
    Strict.evaluate (S fuel) (JObj r [("let", JObj r1 (before ++ ("in", body) :: after))]) st
    = Strict.evaluate (S fuel) (JObj r [("let", JObj r2 (("in", body) :: before ++ after))])
        st.
Proof.
  intros fuel r r1 r2 before after body st Hb.
  rewrite !evaluate_let. unfold Strict.executeLet. simpl.
  rewrite (lookup_field_skip "in" before _ Hb). simpl.
  apply bind_ext. intros saved s1.
  destruct (negb (JS.truthy body)); [reflexivity |].
  unfold bind at 1. rewrite forM_bind_entry_move. reflexivity.
Qed.

Lemma let_body_position_is_irrelevant_witness :
  Strict.evaluate 2
    (JObj 1 [("let", JObj 2 ([("a", Examples.num 1)] ++ ("in", JStr "$b")
                             :: [("b", JStr "$a")]))])
    Examples.empty_interp
  = Strict.evaluate 2
      (JObj 1 [("let", JObj 3 (("in", JStr "$b")
                               :: [("a", Examples.num 1)] ++ [("b", JStr "$a")]))])
      Examples.empty_interp.
Proof.
  apply (let_body_position_is_irrelevant 1 1 2 3 [("a", Examples.num 1)]
           [("b", JStr "$a")] (JStr "$b") Examples.empty_interp).
  repeat constructor. discriminate.
Defined.

(** ** Logical operations *)

Lemma evaluate_and (fuel : nat) (r r' : ref) (items : list jsval)
    (others : list (string * jsval)) (st : interp) :
  Strict.evaluate (S fuel) (JObj r (("and", JArr r' items) :: others)) st
  = (vs <- mapM (Strict.evaluate fuel) items ;; ret (JBool (forallb JS.truthy vs))) st.
Proof. reflexivity. Qed.

Lemma evaluate_or (fuel : nat) (r r' : ref) (items : list jsval)
    (others : list (string * jsval)) (st : interp) :
  Strict.evaluate (S fuel) (JObj r (("or", JArr r' items) :: others)) st
  = (vs <- mapM (Strict.evaluate fuel) items ;; ret (JBool (existsb JS.truthy vs))) st.
Proof. reflexivity. Qed.

(** X7.  [and] and [or] evaluate every element before they combine the
    values: there is no short circuit.  When all elements evaluate, [and] is
    true exactly when every value is truthy and [or] exactly when some value
    is; when an element throws, the operation throws, even after a false
    element for [and] or a true one for [or]. *)
Theorem and_or_evaluate_everything :
  (forall (fuel : nat) (r r' : ref) (items vs : list jsval) (st st' : interp),
      mapM (Strict.evaluate fuel) items st = (Ret vs, st') ->
      Strict.evaluate (S fuel) (operation r "and" (JArr r' items)) st
      = (Ret (JBool (forallb JS.truthy vs)), st')
      /\ Strict.evaluate (S fuel) (operation r "or" (JArr r' items)) st
         = (Ret (JBool (existsb JS.truthy vs)), st'))
  /\ (forall (fuel : nat) (r r' : ref) (pre post vs : list jsval) (x : jsval)
             (st st1 st2 : interp) (e : error),
         mapM (Strict.evaluate fuel) pre st = (Ret vs, st1) ->
         Strict.evaluate fuel x st1 = (Throw e, st2) ->
         Strict.evaluate (S fuel) (operation r "and" (JArr r' (pre ++ x :: post))) st
         = (Throw e, st2)
         /\ Strict.evaluate (S fuel) (operation r "or" (JArr r' (pre ++ x :: post))) st
            = (Throw e, st2)).
Proof.
  split.
  - intros fuel r r' items vs st st' H. unfold operation.
    rewrite evaluate_and, evaluate_or. rewrite !(bind_ret _ _ _ _ _ H).
    split; reflexivity.
  - intros fuel r r' pre post vs x st st1 st2 e Hpre Hx. unfold operation.
    rewrite evaluate_and, evaluate_or.
    unfold bind. rewrite (mapM_throw_at _ _ _ _ _ _ _ _ _ Hpre Hx).
    split; reflexivity.
Qed.

Lemma and_or_evaluate_everything_witness :
  Strict.evaluate 2
    (operation 1 "and" (JArr 2 ([JBool false] ++ JStr "$missing" :: [])))
    Examples.empty_interp
  = (Throw (Error "Undefined variable: missing"), Examples.empty_interp).
Proof.
  apply (proj2 and_or_evaluate_everything 1 1 2 [JBool false] [] [JBool false]
           (JStr "$missing") Examples.empty_interp Examples.empty_interp
           Examples.empty_interp (Error "Undefined variable: missing")
           eq_refl eq_refl).
Defined.

(** X8.  [not] applied twice gives the truth value of the argument:
    [{not: {not: x}}] is [Boolean(x)]. *)
Theorem not_not_is_truthiness :
  forall (fuel : nat) (r r' : ref) (x v : jsval) (st st' : interp),
    JS.has_prop "value" x = false ->
    Strict.evaluate fuel x st = (Ret v, st') ->
    Strict.evaluate (S (S fuel)) (operation r "not" (operation r' "not" x)) st
    = (Ret (JBool (JS.truthy v)), st').
Proof.
  intros fuel r r' x v st st' Hx H. unfold operation.
  change (Strict.evaluate (S (S fuel)) (JObj r [("not", JObj r' [("not", x)])]) st)
    with ((value <- Strict.extractValue (Strict.evaluate (S fuel)) (JObj r' [("not", x)]) ;;
           ret (JBool (negb (JS.truthy value)))) st).
  rewrite extractValue_direct by reflexivity.
  change (Strict.evaluate (S fuel) (JObj r' [("not", x)]))
    with (value <- Strict.extractValue (Strict.evaluate fuel) x ;;
          ret (JBool (negb (JS.truthy value)))).
  rewrite (extractValue_direct _ x Hx).
  rewrite bind_assoc. rewrite (bind_ret _ _ _ _ _ H).
  unfold bind, ret. simpl. rewrite negb_involutive. reflexivity.
Qed.

Lemma not_not_is_truthiness_witness :
  Strict.evaluate 3 (operation 1 "not" (operation 2 "not" (JStr "x")))
    Examples.empty_interp
  = (Ret (JBool (JS.truthy (JStr "x"))), Examples.empty_interp).
Proof.
  apply (not_not_is_truthiness 1 1 2 (JStr "x") (JStr "x")
           Examples.empty_interp Examples.empty_interp); reflexivity.
Defined.

(** ** Missing arguments *)

(** X9.  [equals] without [left] or [right], [if] without [condition] and
    [substring] without [value] or [start] throw at once: nothing of the
    payload is evaluated and the interpreter is left as it was. *)
Theorem required_fields_are_checked_first :
  forall (fuel : nat) (r : ref) (args : jsval) (others : list (string * jsval))
         (st : interp),
    (JS.has_prop "left" args && JS.has_prop "right" args = false ->
     exists message : string,
       Strict.evaluate (S fuel) (JObj r (("equals", args) :: others)) st
       = (Throw (Error message), st))
    /\ (JS.has_prop "condition" args = false ->
        exists message : string,
          Strict.evaluate (S fuel) (JObj r (("if", args) :: others)) st
          = (Throw (Error message), st))
    /\ (JS.has_prop "value" args && JS.has_prop "start" args = false ->
        exists message : string,
          Strict.evaluate (S fuel) (JObj r (("substring", args) :: others)) st
          = (Throw (Error message), st)).
Proof.
  intros fuel r args others st. split; [| split]; intros H; simpl;
    unfold Strict.dispatch; simpl;
    unfold Strict.executeEquals, Strict.executeIf, Strict.executeSubstring.
  - apply andb_false_iff in H as [H | H]; rewrite H; simpl;
      rewrite ?orb_true_r; eexists; reflexivity.
  - rewrite H; simpl; rewrite ?orb_true_r; eexists; reflexivity.
  - apply andb_false_iff in H as [H | H]; rewrite H; simpl;
      rewrite ?orb_true_r; eexists; reflexivity.
Qed.

Lemma required_fields_are_checked_first_witness :
  exists message : string,
    Strict.evaluate 2 (JObj 1 [("equals", JObj 2 [("left", JStr "$missing")])])
      Examples.empty_interp
    = (Throw (Error message), Examples.empty_interp).
Proof.
  apply (proj1 (required_fields_are_checked_first 1 1
                  (JObj 2 [("left", JStr "$missing")]) [] Examples.empty_interp)).
  reflexivity.
Defined.

(** X10.  [concat], [and] and [or] accept a sequence or a mapping with a
    [values] key and nothing else: on any other payload (a string, a number,
    null, a mapping without [values]) they throw at once and the interpreter
    is left as it was.  A [values] that is not a sequence is accepted by the
    test and fails when its [map] is called. *)
Theorem sequence_payload_is_checked :
  (forall (fuel : nat) (r : ref) (name : string) (args : jsval)
          (others : list (string * jsval)) (st : interp),
      sequence_operation name ->
      JS.isArray args = false ->
      JS.has_prop "values" args = false ->
      exists message : string,
        Strict.evaluate (S fuel) (JObj r ((name, args) :: others)) st
        = (Throw (Error message), st))
  /\ (forall (fuel : nat) (r r' : ref) (name : string) (values : jsval)
             (fields others : list (string * jsval)) (st : interp),
         sequence_operation name ->
         JS.lookup_field "values" fields = Some values ->
         JS.isArray values = false ->
         exists message : string,
           Strict.evaluate (S fuel) (JObj r ((name, JObj r' fields) :: others)) st
           = (Throw (TypeError message), st)).
Proof.
  split.
  - intros fuel r name args others st Hop Ha Hv.
    destruct Hop as [-> | [-> | ->]]; simpl; unfold Strict.dispatch; simpl;
      unfold Strict.executeConcat, Strict.executeAnd, Strict.executeOr,
        Strict.values_of, bind;
      rewrite Ha, Hv, andb_false_r; eexists; reflexivity.
  - intros fuel r r' name values fields others st Hop Hl Ha.
    destruct Hop as [-> | [-> | ->]]; simpl; unfold Strict.dispatch; simpl;
      unfold Strict.executeConcat, Strict.executeAnd, Strict.executeOr,
        Strict.values_of, bind; simpl; rewrite Hl;
      destruct values; try discriminate Ha; eexists; reflexivity.
Qed.

Lemma sequence_payload_is_checked_witness :
  exists message : string,
    Strict.evaluate 2 (JObj 1 [("concat", JStr "ab")]) Examples.empty_interp
    = (Throw (Error message), Examples.empty_interp).
Proof.
  apply (proj1 sequence_payload_is_checked 1 1 "concat" (JStr "ab") []
           Examples.empty_interp).
  - left. reflexivity.
  - reflexivity.
  - reflexivity.
Defined.

(** ** Strings *)

Lemma length_substring (n m : nat) (s : string) :
  (n + m <= String.length s)%nat -> String.length (String.substring n m s) = m.
Proof.
  revert n m. induction s as [| c s IH]; intros n m H; simpl in H.
  - assert (n = 0 /\ m = 0)%nat as [-> ->] by lia. reflexivity.
  - destruct n as [| n]; simpl.
    + destruct m as [| m]; [reflexivity |]. simpl. f_equal. apply IH. simpl. lia.
    + apply IH. lia.
Qed.

Lemma clamp_index_le (len : nat) (n : number) : (JS.clamp_index len n <= len)%nat.
Proof. destruct n as [z | | []]; simpl; lia. Qed.

Lemma substring_number_indices (s : string) (a b : number) :
  JS.substring s (JNum a) (JNum b)
  = String.substring (Nat.min (JS.clamp_index (String.length s) a)
                        (JS.clamp_index (String.length s) b))
      (Nat.max (JS.clamp_index (String.length s) a) (JS.clamp_index (String.length s) b)
       - Nat.min (JS.clamp_index (String.length s) a)
           (JS.clamp_index (String.length s) b))
      s.
Proof. reflexivity. Qed.

Lemma evaluate_substring_numbers (n : nat) (r r' : ref) (v w : jsval) (a b : number)
    (st st1 : interp) :
  Strict.evaluate (S n) v st = (Ret w, st1) ->
  Strict.evaluate (S (S n)) (substring_expression r r' v (JNum a) (JNum b)) st
  = (Ret (JStr (JS.substring (JS.to_string w) (JNum a) (JNum b))), st1).
Proof.
  intros H. unfold substring_expression.
  change (Strict.evaluate (S (S n))
            (JObj r [("substring", JObj r' [("value", v); ("start", JNum a);
                                            ("end", JNum b)])]) st)
    with ((value <- Strict.evaluate (S n) v ;;
           start <- Strict.evaluate (S n) (JNum a) ;;
           end_ <- Strict.evaluate (S n) (JNum b) ;;
           if JS.reads_number start && JS.reads_number end_
           then ret (JStr (JS.substring (JS.to_string value) start end_))
           else halts NumericString) st).
  rewrite (bind_ret _ _ _ _ _ H). reflexivity.
Qed.

(** X11.  [substring] with number indices takes the indices into the range
    from 0 to the length of the string, starts at the smaller and stops
    before the larger: the result is never longer than the string, swapping
    [start] and [end] changes nothing, and for [0 <= start <= end <= length]
    it is the characters from [start] to just before [end]. *)
Theorem substring_clamps_and_orders :
  forall (n : nat) (r r' : ref) (v w : jsval) (a b : number) (st st1 : interp),
    Strict.evaluate (S n) v st = (Ret w, st1) ->
    exists out : string,
      Strict.evaluate (S (S n)) (substring_expression r r' v (JNum a) (JNum b)) st
      = (Ret (JStr out), st1)
      /\ Strict.evaluate (S (S n)) (substring_expression r r' v (JNum b) (JNum a)) st
         = (Ret (JStr out), st1)
      /\ (String.length out <= String.length (JS.to_string w))%nat
      /\ (forall x y : Z,
             a = NInt x -> b = NInt y ->
             (0 <= x <= y)%Z -> (y <= Z.of_nat (String.length (JS.to_string w)))%Z ->
             out = String.substring (Z.to_nat x) (Z.to_nat (y - x)) (JS.to_string w)).
Proof.
  intros n r r' v w a b st st1 H.
  exists (JS.substring (JS.to_string w) (JNum a) (JNum b)).
  split; [apply evaluate_substring_numbers; exact H |].
  split; [| split].
  - rewrite (evaluate_substring_numbers n r r' v w b a st st1 H).
    rewrite !substring_number_indices. rewrite Nat.min_comm, Nat.max_comm. reflexivity.
  - rewrite substring_number_indices.
    pose proof (clamp_index_le (String.length (JS.to_string w)) a).
    pose proof (clamp_index_le (String.length (JS.to_string w)) b).
    rewrite length_substring; lia.
  - intros x y -> -> Hxy Hy. rewrite substring_number_indices. simpl.
    replace (Z.to_nat (Z.min (Z.max x 0) (Z.of_nat (String.length (JS.to_string w)))))
      with (Z.to_nat x) by lia.
    replace (Z.to_nat (Z.min (Z.max y 0) (Z.of_nat (String.length (JS.to_string w)))))
      with (Z.to_nat y) by lia.
    f_equal; lia.
Qed.

Lemma substring_clamps_and_orders_witness :
  exists out : string,
    Strict.evaluate 2
      (substring_expression 1 2 (JStr "hello") (Examples.num 1) (Examples.num 3))
      Examples.empty_interp
    = (Ret (JStr out), Examples.empty_interp)
    /\ out = String.substring 1 2 "hello".
Proof.
  destruct (substring_clamps_and_orders 0 1 2 (JStr "hello") (JStr "hello")
              (NInt 1) (NInt 3) Examples.empty_interp Examples.empty_interp eq_refl)
    as (out & H1 & _ & _ & H4).
  exists out. split; [exact H1 |].
  apply (H4 1%Z 3%Z); [reflexivity | reflexivity | lia | simpl; lia].
Defined.

Lemma upper_char_idempotent (c : ascii) : JS.upper_char (JS.upper_char c) = JS.upper_char c.
Proof. destruct c as [[] [] [] [] [] [] [] []]; reflexivity. Qed.

Lemma lower_upper_char (c : ascii) : JS.lower_char (JS.upper_char c) = JS.lower_char c.
Proof. destruct c as [[] [] [] [] [] [] [] []]; reflexivity. Qed.

Lemma map_chars_compose (f g h : ascii -> ascii) (s : string) :
  (forall c, f (g c) = h c) ->
  JS.map_chars f (JS.map_chars g s) = JS.map_chars h s.
Proof.
  intros H. induction s as [| c s IH]; simpl; [reflexivity |]. rewrite H, IH. reflexivity.
Qed.

Lemma map_chars_length (f : ascii -> ascii) (s : string) :
  String.length (JS.map_chars f s) = String.length s.
Proof. induction s as [| c s IH]; simpl; [reflexivity | rewrite IH; reflexivity]. Qed.

Lemma evaluate_single_value (fuel : nat) (r : ref) (name : string) (x w : jsval)
    (st st' : interp) :
  JS.has_prop "value" x = false ->
  Strict.evaluate fuel x st = (Ret w, st') ->
  Strict.evaluate (S fuel) (operation r "uppercase" x) st
  = (Ret (JStr (JS.toUpperCase (JS.to_string w))), st')
  /\ Strict.evaluate (S fuel) (operation r "lowercase" x) st
     = (Ret (JStr (JS.toLowerCase (JS.to_string w))), st')
  /\ Strict.evaluate (S fuel) (operation r "length" x) st
     = (Ret (JNum (NInt (Z.of_nat (String.length (JS.to_string w))))), st').
Proof.
  intros Hx H. unfold operation. simpl. unfold Strict.dispatch. simpl.
  unfold Strict.executeUppercase, Strict.executeLowercase, Strict.executeLength.
  rewrite (extractValue_direct _ x Hx). rewrite !(bind_ret _ _ _ _ _ H).
  repeat split.
Qed.

(** X12.  On strings of ASCII characters the case operations compose: of
    an argument [x] that is not a mapping with a [value] key and whose value
    has an ASCII string, [uppercase] of [uppercase] is [uppercase],
    [lowercase] of [uppercase] is [lowercase], and [length] of [uppercase]
    is [length].  (Beyond ASCII a string can grow under [toUpperCase], and
    its lower case change.) *)
Theorem case_operations_compose :
  forall (fuel : nat) (r r' : ref) (x w : jsval) (st st' : interp),
    JS.has_prop "value" x = false ->
    Strict.evaluate fuel x st = (Ret w, st') ->
    JS.ascii_only (JS.to_string w) = true ->
    Strict.evaluate (S (S fuel)) (operation r "uppercase" (operation r' "uppercase" x)) st
    = Strict.evaluate (S fuel) (operation r "uppercase" x) st
    /\ Strict.evaluate (S (S fuel)) (operation r "lowercase" (operation r' "uppercase" x)) st
       = Strict.evaluate (S fuel) (operation r "lowercase" x) st
    /\ Strict.evaluate (S (S fuel)) (operation r "length" (operation r' "uppercase" x)) st
       = Strict.evaluate (S fuel) (operation r "length" x) st.
Proof.
  intros fuel r r' x w st st' Hx H _.
  destruct (evaluate_single_value fuel r' "uppercase" x w st st' Hx H) as [Hinner _].
  destruct (evaluate_single_value fuel r "uppercase" x w st st' Hx H) as (-> & -> & ->).
  destruct (evaluate_single_value (S fuel) r "uppercase" (operation r' "uppercase" x)
              (JStr (JS.toUpperCase (JS.to_string w))) st st' eq_refl Hinner)
    as (-> & -> & ->).
  simpl. unfold JS.toUpperCase, JS.toLowerCase.
  rewrite (map_chars_compose _ _ _ _ upper_char_idempotent).
  rewrite (map_chars_compose _ _ _ _ lower_upper_char).
  rewrite map_chars_length. repeat split.
Qed.

Lemma case_operations_compose_witness :
  Strict.evaluate 3 (operation 1 "uppercase" (operation 2 "uppercase" (JStr "aB")))
    Examples.empty_interp
  = Strict.evaluate 2 (operation 1 "uppercase" (JStr "aB")) Examples.empty_interp.
Proof.
  apply (case_operations_compose 1 1 2 (JStr "aB") (JStr "aB")
           Examples.empty_interp Examples.empty_interp); reflexivity.
Defined.

(** ** Concatenation *)

Lemma append_empty_r (s : string) : s ++ EmptyString = s.
Proof.
  induction s as [| c s IH]; [reflexivity |]. rewrite append_cons, IH. reflexivity.
Qed.

Lemma concat_empty_app (l1 l2 : list string) :
  String.concat EmptyString (l1 ++ l2)
  = String.concat EmptyString l1 ++ String.concat EmptyString l2.
Proof.
  induction l1 as [| x l1 IH]; [reflexivity |].
  assert (Hcons : forall (y : string) (l : list string),
             String.concat EmptyString (y :: l) = y ++ String.concat EmptyString l).
  { intros y [| z l]; [symmetry; apply append_empty_r | reflexivity]. }
  change ((x :: l1) ++ l2)%list with (x :: (l1 ++ l2))%list.
  rewrite !Hcons, IH. symmetry. apply append_assoc.
Qed.

Lemma join_app (vs1 vs2 : list jsval) :
  JS.join EmptyString (vs1 ++ vs2) = JS.join EmptyString vs1 ++ JS.join EmptyString vs2.
Proof. unfold JS.join. rewrite List.map_app. apply concat_empty_app. Qed.

Lemma mapM_app_ret {S A B : Type} (f : A -> M S B) (l1 l2 : list A) (s s' : S)
    (ys : list B) :
  mapM f (l1 ++ l2) s = (Ret ys, s') ->
  exists (ys1 ys2 : list B) (s1 : S),
    mapM f l1 s = (Ret ys1, s1) /\ mapM f l2 s1 = (Ret ys2, s') /\ ys = (ys1 ++ ys2)%list.
Proof.
  revert s ys. induction l1 as [| x l1 IH]; intros s ys H.
  - exists [], ys, s. repeat split. exact H.
  - simpl in H. apply bind_ret_inv in H as (y & s1 & Hy & H).
    apply bind_ret_inv in H as (zs & s2 & Hzs & H). injection H as <- <-.
    destruct (IH _ _ Hzs) as (ys1 & ys2 & s3 & H1 & H2 & ->).
    exists (y :: ys1), ys2, s3. split; [| split; [exact H2 | reflexivity]].
    simpl. rewrite (bind_ret _ _ _ _ _ Hy). rewrite (bind_ret _ _ _ _ _ H1). reflexivity.
Qed.

(** X13.  [concat] of two [concat]s is the [concat] of the two sequences
    put together: when [concat] of [xs ++ ys] returns a string, [concat] of
    [[{concat: xs}, {concat: ys}]] returns the same string and leaves the
    same state. *)
Theorem concat_of_concats :
  forall (fuel : nat) (r r1 r2 r3 r4 r5 r6 r7 : ref) (xs ys : list jsval) (v : jsval)
         (st st' : interp),
    Strict.evaluate (S fuel) (operation r "concat" (JArr r1 (xs ++ ys))) st = (Ret v, st') ->
    Strict.evaluate (S (S fuel))
      (operation r2 "concat"
         (JArr r3 [operation r4 "concat" (JArr r5 xs); operation r6 "concat" (JArr r7 ys)]))
      st
    = (Ret v, st').
Proof.
  intros fuel r r1 r2 r3 r4 r5 r6 r7 xs ys v st st' H. unfold operation in *.
  rewrite evaluate_concat in H.
  apply bind_ret_inv in H as (vs & s1 & Hvs & H). injection H as <- <-.
  destruct (mapM_app_ret _ _ _ _ _ _ Hvs) as (vs1 & vs2 & s2 & H1 & H2 & ->).
  assert (Hx : Strict.evaluate (S fuel) (JObj r4 [("concat", JArr r5 xs)]) st
               = (Ret (JStr (JS.join EmptyString vs1)), s2)).
  { rewrite evaluate_concat. rewrite (bind_ret _ _ _ _ _ H1). reflexivity. }
  assert (Hy : Strict.evaluate (S fuel) (JObj r6 [("concat", JArr r7 ys)]) s2
               = (Ret (JStr (JS.join EmptyString vs2)), s1)).
  { rewrite evaluate_concat. rewrite (bind_ret _ _ _ _ _ H2). reflexivity. }
  rewrite evaluate_concat. simpl mapM.
  rewrite bind_assoc. rewrite (bind_ret _ _ _ _ _ Hx).
  rewrite bind_assoc. rewrite bind_assoc. rewrite (bind_ret _ _ _ _ _ Hy).
  unfold bind, ret. rewrite join_app. reflexivity.
Qed.

Lemma concat_of_concats_witness :
  Strict.evaluate 3
    (operation 1 "concat"
       (JArr 2 [operation 3 "concat" (JArr 4 [JStr "a"]);
                operation 5 "concat" (JArr 6 [JStr "b"; Examples.num 1])]))
    Examples.empty_interp
  = (Ret (JStr "ab1"), Examples.empty_interp).
Proof.
  apply (concat_of_concats 1 1 2 1 2 3 4 5 6 [JStr "a"] [JStr "b"; Examples.num 1]
           (JStr "ab1") Examples.empty_interp Examples.empty_interp).
  reflexivity.
Defined.

(** * Further properties of the diagnostic evaluator *)

(** ** The tracker only grows *)

Lemma keeps_ret {A : Type} (a : A) : keeps (ret a).
Proof. intros s x H. exact H. Qed.

Lemma keeps_throw {A : Type} (e : error) : keeps (@throw coverage A e).
Proof. intros s x H. exact H. Qed.

Lemma keeps_bind {A B : Type} (m : M coverage A) (k : A -> M coverage B) :
  keeps m -> (forall a, keeps (k a)) -> keeps (bind m k).
Proof.
  intros Hm Hk s x H. unfold bind. specialize (Hm s x H).
  destruct (m s) as [[a | e |] s1]; simpl in *; try exact Hm.
  exact (Hk a s1 x Hm).
Qed.

Lemma keeps_try_catch {A : Type} (body : M coverage A) (handler : A) :
  keeps body -> keeps (try_catch body handler).
Proof. intros H s x Hx. rewrite try_catch_state. exact (H s x Hx). Qed.

Lemma keeps_mapM {A B : Type} (f : A -> M coverage B) (l : list A) :
  (forall a, keeps (f a)) -> keeps (mapM f l).
Proof.
  intros Hf. induction l as [| a rest IH]; simpl.
  - apply keeps_ret.
  - apply keeps_bind; [apply Hf |]. intros y.
    apply keeps_bind; [exact IH |]. intros ys. apply keeps_ret.
Qed.

Lemma keeps_foldM {A B : Type} (f : B -> A -> M coverage B) (l : list A) (b : B) :
  (forall b' a, keeps (f b' a)) -> keeps (foldM f l b).
Proof.
  intros Hf. revert b. induction l as [| a rest IH]; intros b; simpl.
  - apply keeps_ret.
  - apply keeps_bind; [apply Hf |]. intros b'. apply IH.
Qed.

Lemma keeps_fresh : keeps Coverage.fresh.
Proof. intros s x H. exact H. Qed.

Lemma keeps_markCovered (path : string) : keeps (Coverage.markCovered path).
Proof. intros s x H. simpl. apply elem_of_union. right. exact H. Qed.

Lemma keeps_isCovered (path : string) : keeps (Coverage.isCovered path).
Proof. intros s x H. exact H. Qed.

Lemma keeps_object_entries (v : jsval) : keeps (Coverage.object_entries v).
Proof. destruct v; intros st x H; exact H. Qed.

Lemma keeps_in_operator (k : string) (v : jsval) : keeps (Coverage.in_operator k v).
Proof. destruct v; intros st x H; exact H. Qed.

Ltac keeps_auto rec_keeps :=
  repeat match goal with
         | |- keeps (ret _) => apply keeps_ret
         | |- keeps (throw _) => apply keeps_throw
         | |- keeps (Coverage.in_operator _ _) => apply keeps_in_operator
         | |- keeps (Coverage.object_entries _) => apply keeps_object_entries
         | |- keeps (Coverage.markCovered _) => apply keeps_markCovered
         | |- keeps (Coverage.isCovered _) => apply keeps_isCovered
         | |- keeps Coverage.fresh => apply keeps_fresh
         | |- keeps (try_catch _ _) => apply keeps_try_catch
         | |- keeps (bind _ _) => apply keeps_bind; [| intros ?]
         | |- keeps (mapM _ _) => apply keeps_mapM; intros ?
         | |- keeps (foldM _ _ _) => apply keeps_foldM; intros ? ?
         | |- keeps (if ?c then _ else _) => destruct c
         | |- keeps (match ?e with _ => _ end) => destruct e
         | |- keeps _ => apply rec_keeps
         end.

Lemma visit_keeps
    (rec : jsval -> gmap string jsval -> bool -> string -> M coverage jsval)
    (expr : jsval) (context : gmap string jsval) (tracker : bool) (p : string) :
  (forall e c t q, keeps (rec e c t q)) ->
  keeps (Coverage.visit rec expr context tracker p).
Proof.
  intros Hrec.
  unfold Coverage.visit, Coverage.reduce, Coverage.reduce_equals, Coverage.reduce_let_in.
  keeps_auto Hrec.
Qed.

Lemma tryEvaluate_keeps (fuel : nat) (expr : jsval) (context : gmap string jsval)
    (tracker : bool) (p : string) :
  keeps (Coverage.tryEvaluate fuel expr context tracker p).
Proof.
  revert expr context tracker p. induction fuel as [| fuel IH]; intros; simpl.
  - intros s x H. exact H.
  - apply visit_keeps. exact IH.
Qed.

(** X14.  The tracker is append-only during a diagnostic pass: a path that
    is in it before a call of [tryEvaluate] is in it after the call, however
    the call ends. *)
Theorem coverage_is_append_only :
  forall (fuel : nat) (expr : jsval) (context : gmap string jsval) (tracker : bool)
         (pathPrefix : string) (s : coverage) (x : string),
    x ∈ coveredPaths s ->
    x ∈ coveredPaths (snd (Coverage.tryEvaluate fuel expr context tracker pathPrefix s)).
Proof.
  intros fuel expr context tracker pathPrefix s x H.
  exact (tryEvaluate_keeps fuel expr context tracker pathPrefix s x H).
Qed.

Lemma coverage_is_append_only_witness :
  "seen" ∈ coveredPaths (snd (Coverage.tryEvaluate 3 Examples.if_flat ∅ true "root"
                                (MkCoverage {["seen"]} 100))).
Proof.
  apply (coverage_is_append_only 3 Examples.if_flat ∅ true "root"
           (MkCoverage {["seen"]} 100) "seen").
  apply (bool_decide_unpack _). vm_compute. exact I.
Defined.

(** X15.  A call of [tryEvaluate] with a tracker records the path of the
    expression it is called on, whatever the expression is and even when its
    reduction fails: the root of a diagnostic pass is always in the set. *)
Theorem visited_node_is_recorded :
  forall (fuel : nat) (expr : jsval) (context : gmap string jsval)
         (pathPrefix : string) (s : coverage),
    Coverage.generatePathId expr pathPrefix
      ∈ coveredPaths (snd (Coverage.tryEvaluate (S fuel) expr context true pathPrefix s)).
Proof.
  intros fuel expr context pathPrefix s. simpl. unfold Coverage.visit.
  unfold bind at 1. simpl.
  apply keeps_try_catch.
  - unfold Coverage.reduce, Coverage.reduce_equals, Coverage.reduce_let_in.
    keeps_auto (tryEvaluate_keeps fuel).
  - simpl. apply elem_of_union. left. apply elem_of_singleton. reflexivity.
Qed.

(** X16.  Every path a diagnostic pass records begins with the path prefix
    the pass was started with; from a new tracker and the prefix [root],
    every path in the resulting set begins with [root]. *)
Theorem recorded_paths_extend_prefix :
  forall (fuel : nat) (expr : jsval) (context : gmap string jsval) (tracker : bool)
         (pathPrefix : string) (s : coverage) (x : string),
    x ∈ coveredPaths (snd (Coverage.tryEvaluate fuel expr context tracker pathPrefix s)) ->
    x ∈ coveredPaths s \/ exists t : string, x = pathPrefix ++ t.
Proof.
  intros fuel expr context tracker pathPrefix s x H.
  exact (tryEvaluate_records fuel expr context tracker pathPrefix s x H).
Qed.

Lemma recorded_paths_extend_prefix_witness :
  "root.then:" ++ JS.dq ++ "A" ++ JS.dq ∈ coveredPaths Examples.new_tracker
  \/ exists t : string, "root.then:" ++ JS.dq ++ "A" ++ JS.dq = "root" ++ t.
Proof.
  apply (recorded_paths_extend_prefix 3 Examples.if_flat ∅ true "root"
           Examples.new_tracker).
  apply (bool_decide_unpack _). vm_compute. exact I.
Defined.

(** ** Recording does not change the result *)

Lemma shadows_ret {A : Type} (a : A) : shadows (ret a) (ret a).
Proof. intros s1 s2 H. repeat split. exact H. Qed.

Lemma shadows_throw {A : Type} (e : error) :
  shadows (@throw coverage A e) (throw e).
Proof. intros s1 s2 H. repeat split. exact H. Qed.

Lemma shadows_out_of_fuel {A : Type} :
  shadows (@out_of_fuel coverage A) out_of_fuel.
Proof. intros s1 s2 H. repeat split. exact H. Qed.

Lemma shadows_bind {A B : Type} (m1 m2 : M coverage A) (k1 k2 : A -> M coverage B) :
  shadows m1 m2 -> (forall a, shadows (k1 a) (k2 a)) -> shadows (bind m1 k1) (bind m2 k2).
Proof.
  intros Hm Hk s1 s2 H. unfold bind. destruct (Hm s1 s2 H) as (Ho & Ht & Hc).
  destruct (m1 s1) as [o1 t1], (m2 s2) as [o2 t2]. simpl in *. subst o2.
  destruct o1 as [a | e |]; simpl; try (repeat split; assumption).
  destruct (Hk a t1 t2 Ht) as (Ho' & Ht' & Hc').
  split; [exact Ho' | split; [exact Ht' |]]. rewrite Hc'. exact Hc.
Qed.

Lemma shadows_try_catch {A : Type} (b1 b2 : M coverage A) (handler : A) :
  shadows b1 b2 -> shadows (try_catch b1 handler) (try_catch b2 handler).
Proof.
  intros Hb s1 s2 H. unfold try_catch. destruct (Hb s1 s2 H) as (Ho & Ht & Hc).
  destruct (b1 s1) as [o1 t1], (b2 s2) as [o2 t2]. simpl in *. subst o2.
  destruct o1; simpl; repeat split; assumption.
Qed.

Lemma shadows_mapM {A B : Type} (f1 f2 : A -> M coverage B) (l : list A) :
  (forall a, shadows (f1 a) (f2 a)) -> shadows (mapM f1 l) (mapM f2 l).
Proof.
  intros Hf. induction l as [| a rest IH]; simpl.
  - apply shadows_ret.
  - apply shadows_bind; [apply Hf |]. intros y.
    apply shadows_bind; [exact IH |]. intros ys. apply shadows_ret.
Qed.

Lemma shadows_foldM {A B : Type} (f1 f2 : B -> A -> M coverage B) (l : list A) (b : B) :
  (forall b' a, shadows (f1 b' a) (f2 b' a)) -> shadows (foldM f1 l b) (foldM f2 l b).
Proof.
  intros Hf. revert b. induction l as [| a rest IH]; intros b; simpl.
  - apply shadows_ret.
  - apply shadows_bind; [apply Hf |]. intros b'. apply IH.
Qed.

Lemma shadows_fresh : shadows Coverage.fresh Coverage.fresh.
Proof. intros s1 s2 H. simpl. rewrite H. repeat split. Qed.

Lemma shadows_object_entries (v : jsval) :
  shadows (Coverage.object_entries v) (Coverage.object_entries v).
Proof. destruct v; intros s1 s2 H; repeat split; exact H. Qed.

Lemma shadows_in_operator (k : string) (v : jsval) :
  shadows (Coverage.in_operator k v) (Coverage.in_operator k v).
Proof. destruct v; intros s1 s2 H; repeat split; exact H. Qed.

Section Shadowing.

Variable rec : jsval -> gmap string jsval -> bool -> string -> M coverage jsval.
Hypothesis rec_shadows :
  forall (e : jsval) (c : gmap string jsval) (t : bool) (q : string),
    shadows (rec e c t q) (rec e c false q).

Ltac shadows_auto :=
  repeat match goal with
         | |- shadows (ret _) (ret _) => apply shadows_ret
         | |- shadows (throw _) (throw _) => apply shadows_throw
         | |- shadows (rec _ _ _ _) (rec _ _ false _) => apply rec_shadows
         | |- shadows (Coverage.in_operator _ _) _ => apply shadows_in_operator
         | |- shadows (Coverage.object_entries _) _ => apply shadows_object_entries
         | |- shadows Coverage.fresh _ => apply shadows_fresh
         | |- shadows (bind _ _) (bind _ _) => apply shadows_bind; [| intros ?]
         | |- shadows (mapM _ _) (mapM _ _) => apply shadows_mapM; intros ?
         | |- shadows (foldM _ _ _) (foldM _ _ _) => apply shadows_foldM; intros ? ?
         | |- shadows (if ?c then _ else _) (if ?c then _ else _) => destruct c
         | |- shadows (match ?e with _ => _ end) (match ?e with _ => _ end) => destruct e
         end.

Lemma reduce_shadows (expr : jsval) (context : gmap string jsval) (tracker : bool)
    (p : string) :
  shadows (Coverage.reduce rec expr context tracker p)
    (Coverage.reduce rec expr context false p).
Proof.
  unfold Coverage.reduce, Coverage.reduce_equals, Coverage.reduce_let_in.
  shadows_auto.
Qed.

Lemma visit_shadows (expr : jsval) (context : gmap string jsval) (tracker : bool)
    (p : string) :
  shadows (Coverage.visit rec expr context tracker p)
    (Coverage.visit rec expr context false p).
Proof.
  unfold Coverage.visit. apply shadows_bind.
  - destruct tracker; [| apply shadows_ret].
    intros s1 s2 H. repeat split. exact H.
  - intros _. apply shadows_try_catch. apply reduce_shadows.
Qed.

End Shadowing.

Lemma tryEvaluate_shadows (fuel : nat) (expr : jsval) (context : gmap string jsval)
    (tracker : bool) (p : string) :
  shadows (Coverage.tryEvaluate fuel expr context tracker p)
    (Coverage.tryEvaluate fuel expr context false p).
Proof.
  revert expr context tracker p. induction fuel as [| fuel IH]; intros; simpl.
  - apply shadows_out_of_fuel.
  - apply visit_shadows. exact IH.
Qed.

(** X17.  Passing a tracker changes nothing but the tracker: with and
    without one, [tryEvaluate] returns the same value, and a call without a
    tracker leaves every set of paths as it is. *)
Theorem tracker_does_not_change_value :
  forall (fuel : nat) (expr : jsval) (context : gmap string jsval)
         (pathPrefix : string) (s : coverage),
    fst (Coverage.tryEvaluate fuel expr context true pathPrefix s)
    = fst (Coverage.tryEvaluate fuel expr context false pathPrefix s)
    /\ coveredPaths (snd (Coverage.tryEvaluate fuel expr context false pathPrefix s))
       = coveredPaths s.
Proof.
  intros fuel expr context pathPrefix s.
  destruct (tryEvaluate_shadows fuel expr context true pathPrefix s s eq_refl)
    as (H1 & _ & H2).
  split; assumption.
Qed.

(** ** Variables and [let] in the diagnostic evaluator *)

Lemma tryEvaluate_get (n : nat) (r : ref) (name : string)
    (others : list (string * jsval)) (context : gmap string jsval) (tracker : bool)
    (pathPrefix : string) (s : coverage) :
  fst (Coverage.tryEvaluate (S n) (JObj r (("get", JStr name) :: others)) context
         tracker pathPrefix s)
  = Ret (match context !! name with
         | Some v => if JS.is_undefined v then Coverage.placeholder name else v
         | None => Coverage.placeholder name
         end).
Proof.
  simpl. unfold Coverage.visit.
  set (m := if tracker then Coverage.markCovered _ else ret tt).
  assert (Hm : exists s1, m s = (Ret tt, s1)).
  { subst m. destruct tracker; eexists; reflexivity. }
  destruct Hm as [s1 Hm]. rewrite (bind_ret _ _ _ _ _ Hm).
  unfold try_catch, Coverage.reduce. simpl.
  destruct (context !! name) as [v |]; [destruct (JS.is_undefined v) |]; reflexivity.
Qed.

(** X18.  [{get: name}] reads the context and never fails.  It returns the
    value the context has for [name] as its own property, or the
    placeholder [<name>] when that value is undefined; for a name that is
    not an own property of the context and not one of the members every
    object inherits from [Object.prototype], it returns the placeholder
    [<name>]. *)
Theorem get_reads_context :
  (forall (n : nat) (r : ref) (name : string) (others : list (string * jsval))
          (context : gmap string jsval) (tracker : bool) (pathPrefix : string)
          (s : coverage) (v : jsval),
      context !! name = Some v ->
      fst (Coverage.tryEvaluate (S n) (JObj r (("get", JStr name) :: others)) context
             tracker pathPrefix s)
      = Ret (if JS.is_undefined v then Coverage.placeholder name else v))
  /\ (forall (n : nat) (r : ref) (name : string) (others : list (string * jsval))
             (context : gmap string jsval) (tracker : bool) (pathPrefix : string)
             (s : coverage),
         context !! name = None ->
         JS.inherits name = false ->
         fst (Coverage.tryEvaluate (S n) (JObj r (("get", JStr name) :: others)) context
                tracker pathPrefix s)
         = Ret (Coverage.placeholder name)).
Proof.
  split.
  - intros n r name others context tracker pathPrefix s v H.
    rewrite tryEvaluate_get, H. reflexivity.
  - intros n r name others context tracker pathPrefix s H _.
    rewrite tryEvaluate_get, H. reflexivity.
Qed.

Lemma get_reads_context_witness :
  fst (Coverage.tryEvaluate 1 (JObj 1 [("get", JStr "name")]) {["name" := JStr "Ada"]}
         true "root" Examples.new_tracker)
  = Ret (JStr "Ada")
  /\ fst (Coverage.tryEvaluate 1 (JObj 1 [("get", JStr "age")]) {["name" := JStr "Ada"]}
            true "root" Examples.new_tracker)
     = Ret (JStr "<age>").
Proof.
  split.
  - apply (proj1 get_reads_context 0 1 "name" [] {["name" := JStr "Ada"]} true "root"
             Examples.new_tracker (JStr "Ada")).
    reflexivity.
  - apply (proj2 get_reads_context 0 1 "age" [] {["name" := JStr "Ada"]} true "root"
             Examples.new_tracker).
    + reflexivity.
    + reflexivity.
Defined.

(** A loop that evaluates every binding in the same context and assigns
    the values one by one ends like the evaluations alone, with the
    assignments made. *)
Lemma foldM_assign {S : Type} (f : string * jsval -> M S jsval)
    (bindings : list (string * jsval)) (context : gmap string jsval) (s s' : S)
    (vs : list jsval) :
  mapM f bindings s = (Ret vs, s') ->
  foldM (fun (newContext : gmap string jsval) (binding : string * jsval) =>
           v <- f binding ;; ret (<[fst binding := v]> newContext))
        bindings context s
  = (Ret (assign_all context (List.map fst bindings) vs), s').
Proof.
  revert context s vs. induction bindings as [| b rest IH]; intros context s vs H.
  - injection H as <- <-. reflexivity.
  - simpl in H. apply bind_ret_inv in H as (v & s1 & Hv & H).
    apply bind_ret_inv in H as (ws & s2 & Hws & H). injection H as <- <-.
    simpl. rewrite bind_assoc. rewrite (bind_ret _ _ _ _ _ Hv).
    unfold bind at 1. unfold ret at 1. exact (IH _ _ _ Hws).
Qed.

(** The reduction of a mapping that is read as a [let]/[in]. *)
Lemma reduce_reads_as_let
    (rec : jsval -> gmap string jsval -> bool -> string -> M coverage jsval)
    (r : ref) (fields : list (string * jsval)) (context : gmap string jsval)
    (tracker : bool) (p : string) :
  reads_as_let fields = true ->
  Coverage.reduce rec (JObj r fields) context tracker p
  = Coverage.reduce_let_in rec (JObj r fields) "let" ["let"; "in"] context tracker p.
Proof.
  intros H. destruct fields as [| [key value] others] eqn:Hf; [discriminate H |].
  rewrite <- Hf in *. unfold reads_as_let in H. rewrite Hf in H. rewrite <- Hf in H.
  cbv zeta in H.
  repeat (apply andb_true_iff in H as [H ?]).
  repeat match goal with
         | Hn : negb _ = true |- _ => apply negb_true_iff in Hn
         end.
  unfold Coverage.reduce. rewrite Hf. rewrite <- Hf.
  cbv zeta.
  repeat match goal with
         | Hc : ?c = false |- context [if ?c then _ else _] => rewrite Hc
         end.
  unfold Coverage.reduce_equals.
  assert (Hlet : forall k : string,
             Coverage.reduce_let_in rec (JObj r fields) k (JS.keys fields) context tracker p
             = Coverage.reduce_let_in rec (JObj r fields) "let" ["let"; "in"] context
                 tracker p).
  { intros k. unfold Coverage.reduce_let_in. rewrite H0. reflexivity. }
  destruct (String.eqb key "equals" && JS.typeof_object value) eqn:Heq; [| apply Hlet].
  simpl in H1.
  destruct value as [| | b | x | str | r' items | r' fs];
    try (rewrite andb_false_r in Heq; discriminate Heq).
  - discriminate H1.
  - unfold bind, ret. simpl. apply Hlet.
  - unfold bind, ret. simpl. simpl in H1.
    destruct (match JS.lookup_field "left" fs with Some _ => true | None => false end);
      simpl in *; [rewrite H1 |]; apply Hlet.
Qed.

(** X19.  In the diagnostic evaluator the bindings of a [let] do not see
    one another.  For every mapping read as a [let]/[in], with any number
    of bindings, none named [__proto__], and with or without a tracker:
    every value expression is evaluated in the context of the [let] itself,
    in order, and the [in] expression is then evaluated in that context
    with all the values assigned. *)
Theorem diagnostic_let_binds_in_parallel :
  forall (n : nat) (r r' : ref) (fields bindings : list (string * jsval))
         (context : gmap string jsval) (tracker : bool) (pathPrefix : string)
         (s s1 : coverage) (vs : list jsval),
    reads_as_let fields = true ->
    JS.get_prop "let" (JObj r fields) = JObj r' bindings ->
    Forall (fun binding => fst binding <> "__proto__") bindings ->
    mapM (fun binding : string * jsval =>
            Coverage.tryEvaluate n (snd binding) context tracker
              (pathPrefix ++ ".let." ++ fst binding))
         bindings
         (snd ((if tracker
                then Coverage.markCovered (Coverage.generatePathId (JObj r fields) pathPrefix)
                else ret tt) s))
    = (Ret vs, s1) ->
    Coverage.tryEvaluate (S n) (JObj r fields) context tracker pathPrefix s
    = try_catch
        (Coverage.tryEvaluate n (JS.get_prop "in" (JObj r fields))
           (assign_all context (List.map fst bindings) vs) tracker (pathPrefix ++ ".in"))
        (JStr "<error>") s1.
Proof.
  intros n r r' fields bindings context tracker pathPrefix s s1 vs Hshape Hlet _ Hvs.
  set (s0 := snd ((if tracker
                   then Coverage.markCovered
                          (Coverage.generatePathId (JObj r fields) pathPrefix)
                   else ret tt) s)) in *.
  assert (Hvisit :
            Coverage.tryEvaluate (S n) (JObj r fields) context tracker pathPrefix s
            = try_catch
                (Coverage.reduce (Coverage.tryEvaluate n) (JObj r fields) context tracker
                   pathPrefix)
                (JStr "<error>") s0).
  { subst s0. destruct tracker; reflexivity. }
  rewrite Hvisit.
  assert (Hred :
            Coverage.reduce (Coverage.tryEvaluate n) (JObj r fields) context tracker
              pathPrefix s0
            = Coverage.tryEvaluate n (JS.get_prop "in" (JObj r fields))
                (assign_all context (List.map fst bindings) vs) tracker
                (pathPrefix ++ ".in") s1).
  { rewrite (reduce_reads_as_let _ _ _ _ _ _ Hshape).
    unfold Coverage.reduce_let_in.
    change (JS.includes "let" ["let"; "in"] && JS.includes "in" ["let"; "in"]) with true.
    rewrite Hlet.
    change (JS.typeof_object (JObj r' bindings) && negb (JS.isArray (JObj r' bindings)))
      with true.
    cbv iota. unfold Coverage.object_entries.
    change (JS.entries (JObj r' bindings)) with bindings.
    rewrite bind_assoc. unfold bind at 1. unfold ret at 1.
    rewrite (bind_ret _ _ _ _ _ (foldM_assign _ _ _ _ _ _ Hvs)). reflexivity. }
  unfold try_catch. rewrite Hred. reflexivity.
Qed.

Lemma diagnostic_let_binds_in_parallel_witness :
  Coverage.tryEvaluate 3
    (JObj 1 [("let", JObj 2 [("a", Examples.num 1); ("b", JObj 3 [("get", JStr "a")]);
                             ("c", JStr "z")]);
             ("in", JObj 4 [("get", JStr "b")])])
    ∅ true "root" Examples.new_tracker
  = (Ret (JStr "<a>"),
     snd (Coverage.tryEvaluate 3
            (JObj 1 [("let", JObj 2 [("a", Examples.num 1);
                                     ("b", JObj 3 [("get", JStr "a")]); ("c", JStr "z")]);
                     ("in", JObj 4 [("get", JStr "b")])])
            ∅ true "root" Examples.new_tracker)).
Proof.
  erewrite (diagnostic_let_binds_in_parallel 2 1 2
              [("let", JObj 2 [("a", Examples.num 1); ("b", JObj 3 [("get", JStr "a")]);
                               ("c", JStr "z")]);
               ("in", JObj 4 [("get", JStr "b")])]
              [("a", Examples.num 1); ("b", JObj 3 [("get", JStr "a")]); ("c", JStr "z")]
              ∅ true "root" Examples.new_tracker _
              [Examples.num 1; JStr "<a>"; JStr "z"]).
  - reflexivity.
  - reflexivity.
  - reflexivity.
  - repeat constructor; discriminate.
  - reflexivity.
Defined.

(** ** Path identifiers and the order of keys *)

Lemma key_le_iff (a b : string) :
  key_le a b <-> OrderedTypeEx.String_as_OT.lt a b \/ a = b.
Proof.
  unfold key_le, String.leb.
  destruct (String.compare a b) eqn:E.
  - apply OrderedTypeEx.String_as_OT.cmp_eq in E. split; [right; exact E | reflexivity].
  - apply OrderedTypeEx.String_as_OT.cmp_lt in E. split; [left; exact E | reflexivity].
  - split; [discriminate |]. intros [H | H].
    + apply OrderedTypeEx.String_as_OT.cmp_lt in H.
      unfold OrderedTypeEx.String_as_OT.cmp in H. congruence.
    + apply OrderedTypeEx.String_as_OT.cmp_eq in H.
      unfold OrderedTypeEx.String_as_OT.cmp in H. congruence.
Qed.

Lemma key_le_trans (a b c : string) : key_le a b -> key_le b c -> key_le a c.
Proof.
  rewrite !key_le_iff. intros [H1 | ->] [H2 | ->]; auto.
  left. exact (OrderedTypeEx.String_as_OT.lt_trans _ _ _ H1 H2).
Qed.

Lemma key_le_antisym : AntiSymm eq key_le.
Proof. intros a b H1 H2. exact (String.leb_antisym a b H1 H2). Qed.

Lemma insert_sorted_perm (k : string) (ks : list string) :
  JS.insert_sorted k ks ≡ₚ k :: ks.
Proof.
  induction ks as [| k' rest IH]; simpl; [reflexivity |].
  destruct (String.leb k k'); [reflexivity |].
  rewrite IH. apply Permutation_swap.
Qed.

Lemma insert_sorted_sorted (k : string) (ks : list string) :
  StronglySorted key_le ks -> StronglySorted key_le (JS.insert_sorted k ks).
Proof.
  induction 1 as [| k' rest Hs IH Hall]; simpl.
  - constructor; constructor.
  - destruct (String.leb k k') eqn:E.
    + constructor; [constructor; assumption |].
      constructor; [exact E |].
      eapply Forall_impl; [exact Hall |]. intros x Hx.
      exact (key_le_trans _ _ _ E Hx).
    + constructor; [exact IH |].
      rewrite insert_sorted_perm. constructor; [| exact Hall].
      destruct (String.leb_total k k') as [H | H]; [congruence | exact H].
Qed.

Lemma sort_perm (ks : list string) : JS.sort ks ≡ₚ ks.
Proof.
  induction ks as [| k rest IH]; simpl; [reflexivity |].
  rewrite insert_sorted_perm, IH. reflexivity.
Qed.

Lemma sort_sorted (ks : list string) : StronglySorted key_le (JS.sort ks).
Proof.
  induction ks as [| k rest IH]; simpl; [constructor |].
  apply insert_sorted_sorted. exact IH.
Qed.

Lemma sort_of_permutation (ks ks' : list string) : ks ≡ₚ ks' -> JS.sort ks = JS.sort ks'.
Proof.
  intros H.
  apply (@StronglySorted_unique _ key_le key_le_antisym); try apply sort_sorted.
  rewrite !sort_perm. exact H.
Qed.

(** X20.  The path identifier of a mapping is made of the prefix and the
    sorted keys: mappings with the same keys in any order, whatever their
    values, get the same identifier; so do sequences of the same length,
    whatever their elements. *)
Theorem path_identifier_ignores_order_and_content :
  (forall (r r' : ref) (fields fields' : list (string * jsval)) (p : string),
      JS.keys fields ≡ₚ JS.keys fields' ->
      Coverage.generatePathId (JObj r fields) p = Coverage.generatePathId (JObj r' fields') p)
  /\ (forall (r r' : ref) (items items' : list jsval) (p : string),
         List.length items = List.length items' ->
         Coverage.generatePathId (JArr r items) p = Coverage.generatePathId (JArr r' items') p).
Proof.
  split.
  - intros r r' fields fields' p H. unfold Coverage.generatePathId.
    rewrite (sort_of_permutation _ _ H). reflexivity.
  - intros r r' items items' p H. unfold Coverage.generatePathId. rewrite H. reflexivity.
Qed.

Lemma path_identifier_ignores_order_and_content_witness :
  Coverage.generatePathId (JObj 1 [("then", JStr "A"); ("if", JBool true)]) "root"
  = Coverage.generatePathId (JObj 2 [("if", JNull); ("then", JNull)]) "root".
Proof.
  apply (proj1 path_identifier_ignores_order_and_content 1 2
           [("then", JStr "A"); ("if", JBool true)] [("if", JNull); ("then", JNull)] "root").
  simpl. apply Permutation_swap.
Defined.

(** * Further properties of the display tree *)

Lemma yields_ret (P : TreeNodeData -> Prop) (d : TreeNodeData)
    (children : list TreeNode) :
  P d -> yields P (ret (Node d children)).
Proof. intros H s s' n E. injection E as <- _. exact H. Qed.

Lemma yields_throw (P : TreeNodeData -> Prop) (e : error) : yields P (throw e).
Proof. intros s s' n E. discriminate E. Qed.

Lemma yields_bind {A : Type} (P : TreeNodeData -> Prop) (m : M coverage A)
    (k : A -> M coverage TreeNode) :
  (forall a, yields P (k a)) -> yields P (bind m k).
Proof.
  intros Hk s s' n E. apply bind_ret_inv in E as (a & s1 & _ & E).
  exact (Hk a _ _ _ E).
Qed.

Ltac yields_auto :=
  repeat match goal with
         | |- yields _ (ret (Node _ _)) => apply yields_ret; reflexivity
         | |- yields _ (throw _) => apply yields_throw
         | |- yields _ (bind _ _) => apply yields_bind; intros ?
         | |- yields _ (if ?c then _ else _) => destruct c
         | |- yields _ (match ?e with _ => _ end) => destruct e
         end.

(** X21.  The node [buildLogicTree] returns for an expression carries that
    expression in its [raw] field, whichever case of the builder made it. *)
Theorem node_carries_its_expression :
  forall (fuel : nat) (expr : jsval) (context : gmap string jsval) (label : string)
         (tracker : bool) (pathPrefix : string) (s s' : coverage) (n : TreeNode),
    Display.buildLogicTree fuel expr context label tracker pathPrefix s = (Ret n, s') ->
    raw (data n) = expr.
Proof.
  intros [| fuel] expr context label tracker pathPrefix s s' n H; [discriminate H |].
  simpl in H. revert s s' n H.
  change (yields (fun d => raw d = expr)
            (Display.build (Coverage.tryEvaluate (S fuel)) (Display.buildLogicTree fuel)
               expr context label tracker pathPrefix)).
  unfold Display.build, Display.build_single, Display.build_multi, Display.build_let_in,
    Display.build_generic, Display.build_wrapper.
  apply yields_bind. intros c.
  destruct expr as [| | b | x | str | r items | r fields]; yields_auto.
Qed.

Lemma node_carries_its_expression_witness :
  raw (data (Node (MkData "root" "string" (JS.dq ++ "B" ++ JS.dq) (JStr "B") None) []))
  = JStr "B".
Proof.
  apply (node_carries_its_expression 1 (JStr "B") ∅ "root" false "root"
           Examples.new_tracker Examples.new_tracker).
  reflexivity.
Defined.

Lemma mapM_ret_length {S A B : Type} (f : A -> M S B) (l : list A) (s s' : S)
    (ys : list B) :
  mapM f l s = (Ret ys, s') -> List.length ys = List.length l.
Proof.
  intros H. symmetry. eapply Forall2_length. exact (mapM_ret_Forall2 _ _ _ _ _ H).
Qed.

Lemma indexed_from_length {A : Type} (i : nat) (l : list A) :
  List.length (JS.indexed_from i l) = List.length l.
Proof.
  revert i. induction l as [| x rest IH]; intros i; simpl; [reflexivity |].
  rewrite IH. reflexivity.
Qed.

(** X22.  For an expression that is not a mapping the node shows what
    [inferType] and [formatDisplayValue] say of the expression, and it is
    labelled with the label passed in when there is one.  A primitive gives a
    node without children, a sequence a node with one child per element. *)
Theorem non_mapping_nodes :
  forall (fuel : nat) (expr : jsval) (context : gmap string jsval) (lbl : string)
         (tracker : bool) (pathPrefix : string) (s s' : coverage) (n : TreeNode),
    not_mapping expr ->
    Display.buildLogicTree fuel expr context lbl tracker pathPrefix s = (Ret n, s') ->
    type (data n) = Display.inferType expr
    /\ value (data n) = Display.formatDisplayValue expr
    /\ (lbl <> EmptyString -> label (data n) = lbl)
    /\ List.length (children n) = List.length (JS.items_of expr).
Proof.
  intros [| fuel] expr context lbl tracker pathPrefix s s' n Hm H; [discriminate H |].
  simpl in H. unfold Display.build in H.
  apply bind_ret_inv in H as (c & s0 & _ & H).
  assert (Hl : forall fallback : string,
             lbl <> EmptyString -> JS.or_default lbl fallback = lbl).
  { intros fallback Hne. unfold JS.or_default.
    destruct (String.eqb_spec lbl EmptyString); [contradiction | reflexivity]. }
  destruct expr as [| | b | x | str | r items | r fields]; try contradiction;
    try (injection H as <- _; simpl; repeat split; apply Hl).
  apply bind_ret_inv in H as (cs & s1 & Hcs & H). injection H as <- _.
  simpl. repeat split; try apply Hl.
  rewrite (mapM_ret_length _ _ _ _ _ Hcs). apply indexed_from_length.
Qed.

Lemma non_mapping_nodes_witness :
  type (data (Node (MkData "x" "number" "5" (Examples.num 5) None) []))
  = Display.inferType (Examples.num 5).
Proof.
  apply (non_mapping_nodes 1 (Examples.num 5) ∅ "x" false "root"
           Examples.new_tracker Examples.new_tracker
           (Node (MkData "x" "number" "5" (Examples.num 5) None) []) I eq_refl).
Defined.

(** X23.  [buildLogicTree] has no [try] of its own: a [let] whose bindings
    are null makes it throw, alone or beside an [in] key, while
    [tryEvaluate] returns a value on the same expression. *)
Theorem builder_throws_on_null_bindings :
  forall (fuel : nat) (r : ref) (body : jsval) (context : gmap string jsval)
         (lbl : string) (tracker : bool) (pathPrefix : string) (s : coverage),
    (exists (message : string) (s' : coverage),
        Display.buildLogicTree (S fuel) (JObj r [("let", JNull)]) context lbl tracker
          pathPrefix s
        = (Throw (TypeError message), s'))
    /\ (exists (message : string) (s' : coverage),
           Display.buildLogicTree (S fuel) (JObj r [("let", JNull); ("in", body)]) context
             lbl tracker pathPrefix s
           = (Throw (TypeError message), s'))
    /\ fst (Coverage.tryEvaluate (S fuel) (JObj r [("let", JNull)]) context tracker
              pathPrefix s)
       = Ret (JStr "<let>")
    /\ fst (Coverage.tryEvaluate (S fuel) (JObj r [("let", JNull); ("in", body)]) context
              tracker pathPrefix s)
       = Ret (JStr "<error>").
Proof.
  intros fuel r body context lbl tracker pathPrefix s.
  split; [| split; [| split]]; destruct tracker; try (eexists _, _); reflexivity.
Qed.

(** ** The tree of [ExpressionTree] *)

Lemma tryEvaluate_marks_root (fuel : nat) (expr : jsval) (context : gmap string jsval)
    (pathPrefix : string) (s : coverage) :
  Coverage.generatePathId expr pathPrefix
    ∈ coveredPaths (snd (Coverage.tryEvaluate (S fuel) expr context true pathPrefix s)).
Proof.
  simpl. unfold Coverage.visit. unfold bind at 1. simpl.
  apply keeps_try_catch.
  - unfold Coverage.reduce, Coverage.reduce_equals, Coverage.reduce_let_in.
    keeps_auto (tryEvaluate_keeps fuel).
  - simpl. apply elem_of_union. left. apply elem_of_singleton. reflexivity.
Qed.

(** X24.  The root of the tree [ExpressionTree] builds is always flagged
    covered: the diagnostic pass records the root, whatever it is, before
    the tree is built against the same tracker. *)
Theorem expression_tree_root_is_covered :
  forall (fuel : nat) (expr : jsval) (inputDefaults : gmap string jsval)
         (s s' : coverage) (n : TreeNode),
    Display.expressionTree fuel expr inputDefaults s = (Ret n, s') ->
    covered (data n) = Some true.
Proof.
  intros fuel expr inputDefaults s s' n H. unfold Display.expressionTree in H.
  apply bind_ret_inv in H as (u & s0 & _ & H).
  apply bind_ret_inv in H as (v & s1 & Hv & H).
  destruct fuel as [| fuel]; [discriminate H |].
  simpl in H. rewrite (build_flag _ _ _ _ _ _ _ _ _ H). f_equal.
  apply bool_decide_eq_true_2.
  pose proof (tryEvaluate_marks_root fuel expr inputDefaults "root" s0) as Hroot.
  rewrite Hv in Hroot. exact Hroot.
Qed.

Lemma expression_tree_root_is_covered_witness :
  covered (data (Node (MkData "root" "string" (JS.dq ++ "B" ++ JS.dq) (JStr "B")
                         (Some true)) []))
  = Some true.
Proof.
  apply (expression_tree_root_is_covered 1 (JStr "B") ∅ Examples.new_tracker
           (MkCoverage ({[Coverage.generatePathId (JStr "B") "root"]} ∪ ∅) 100)).
  reflexivity.
Defined.

Section BuilderKeeps.

Variable tryEvaluate : jsval -> gmap string jsval -> bool -> string -> M coverage jsval.
Variable buildLogicTree :
  jsval -> gmap string jsval -> string -> bool -> string -> M coverage TreeNode.
Hypothesis tryEvaluate_keeps_paths : forall e c t q, keeps (tryEvaluate e c t q).
Hypothesis buildLogicTree_keeps_paths : forall e c l t q, keeps (buildLogicTree e c l t q).

Ltac builder_keeps_auto :=
  repeat match goal with
         | |- keeps (ret _) => apply keeps_ret
         | |- keeps (throw _) => apply keeps_throw
         | |- keeps (tryEvaluate _ _ _ _) => apply tryEvaluate_keeps_paths
         | |- keeps (buildLogicTree _ _ _ _ _) => apply buildLogicTree_keeps_paths
         | |- keeps (Coverage.object_entries _) => apply keeps_object_entries
         | |- keeps (Coverage.isCovered _) => apply keeps_isCovered
         | |- keeps (bind _ _) => apply keeps_bind; [| intros ?]
         | |- keeps (mapM _ _) => apply keeps_mapM; intros ?
         | |- keeps (foldM _ _ _) => apply keeps_foldM; intros ? ?
         | |- keeps (if ?c then _ else _) => destruct c
         | |- keeps (match ?e with _ => _ end) => destruct e
         end.

Lemma build_keeps (expr : jsval) (context : gmap string jsval) (lbl : string)
    (tracker : bool) (pathPrefix : string) :
  keeps (Display.build tryEvaluate buildLogicTree expr context lbl tracker pathPrefix).
Proof.
  unfold Display.build, Display.build_single, Display.build_multi, Display.build_let_in,
    Display.build_generic, Display.build_wrapper.
  builder_keeps_auto.
Qed.

End BuilderKeeps.

Lemma buildLogicTree_keeps (fuel : nat) (expr : jsval) (context : gmap string jsval)
    (lbl : string) (tracker : bool) (pathPrefix : string) :
  keeps (Display.buildLogicTree fuel expr context lbl tracker pathPrefix).
Proof.
  revert expr context lbl tracker pathPrefix.
  induction fuel as [| fuel IH]; intros expr context lbl tracker pathPrefix.
  - intros s x H. exact H.
  - apply (build_keeps (Coverage.tryEvaluate (S fuel)) (Display.buildLogicTree fuel)).
    + intros e c t q. apply tryEvaluate_keeps.
    + exact IH.
Qed.

(** X25.  Building the tree takes no path out of the tracker: what the
    diagnostic pass recorded is still recorded when the builder is done,
    however it ends. *)
Theorem builder_keeps_recorded_paths :
  forall (fuel : nat) (expr : jsval) (context : gmap string jsval) (lbl : string)
         (tracker : bool) (pathPrefix : string) (s : coverage) (x : string),
    x ∈ coveredPaths s ->
    x ∈ coveredPaths (snd (Display.buildLogicTree fuel expr context lbl tracker
                             pathPrefix s)).
Proof.
  intros fuel expr context lbl tracker pathPrefix s x H.
  exact (buildLogicTree_keeps fuel expr context lbl tracker pathPrefix s x H).
Qed.

Lemma builder_keeps_recorded_paths_witness :
  "seen" ∈ coveredPaths (snd (Display.buildLogicTree 3 Examples.if_flat ∅ "root" true
                                "root" (MkCoverage {["seen"]} 100))).
Proof.
  apply (builder_keeps_recorded_paths 3 Examples.if_flat ∅ "root" true "root"
           (MkCoverage {["seen"]} 100) "seen").
  apply (bool_decide_unpack _). vm_compute. exact I.
Defined.

(** ** Counting nodes *)

Lemma TreeNode_induction (P : TreeNode -> Prop) :
  (forall (d : TreeNodeData) (cs : list TreeNode), Forall P cs -> P (Node d cs)) ->
  forall n : TreeNode, P n.
Proof.
  intros H. fix IH 1. intros [d cs]. apply H.
  induction cs as [| c cs IHcs]; constructor; [apply IH | exact IHcs].
Qed.

Lemma count_children_bounds (cs : list TreeNode) (acc : nat * nat) :
  Forall (fun c => (snd (ExpressionTree.countNodes c) <= fst (ExpressionTree.countNodes c))%nat)
    cs ->
  (snd acc <= fst acc)%nat ->
  let total :=
    List.fold_left
      (fun (acc : nat * nat) (child : TreeNode) =>
         (fst acc + fst (ExpressionTree.countNodes child),
          snd acc + snd (ExpressionTree.countNodes child))%nat)
      cs acc in
  (snd total <= fst total)%nat /\ (fst acc <= fst total)%nat.
Proof.
  intros Hcs. revert acc. induction Hcs as [| c cs Hc _ IH]; intros acc Hacc; simpl.
  - lia.
  - specialize (IH (fst acc + fst (ExpressionTree.countNodes c),
                    snd acc + snd (ExpressionTree.countNodes c))%nat).
    simpl in IH. destruct IH as [H1 H2]; [lia |]. split; [exact H1 | lia].
Qed.

(** X26.  [countNodes] never counts more covered nodes than nodes, and
    counts at least the node itself: the quotient behind the coverage
    percentage is defined and at most one. *)
Theorem covered_count_is_bounded :
  forall node : TreeNode,
    (snd (ExpressionTree.countNodes node) <= fst (ExpressionTree.countNodes node))%nat
    /\ (1 <= fst (ExpressionTree.countNodes node))%nat.
Proof.
  intros node.
  enough (H : (snd (ExpressionTree.countNodes node)
               <= fst (ExpressionTree.countNodes node))%nat
              /\ (1 <= fst (ExpressionTree.countNodes node))%nat) by exact H.
  induction node as [d cs IH] using TreeNode_induction.
  simpl.
  destruct (count_children_bounds cs
              (1, match covered d with Some true => 1 | _ => 0 end)%nat) as [H1 H2].
  - eapply Forall_impl; [exact IH |]. intros c [Hc _]. exact Hc.
  - simpl. destruct (covered d) as [[] |]; lia.
  - split; [exact H1 | exact H2].
Qed.

(** * The earlier evaluator *)

Lemma bind_cong {S A B : Type} (m1 m2 : M S A) (k1 k2 : A -> M S B) (s : S) :
  m1 s = m2 s -> (forall a s1, k1 a s1 = k2 a s1) -> bind m1 k1 s = bind m2 k2 s.
Proof.
  intros Hm Hk. unfold bind. rewrite Hm.
  destruct (m2 s) as [[a | e |] s1]; auto.
Qed.

Lemma mapM_indexed {S A B : Type} (f : nat * A -> M S B) (g : A -> M S B) (l : list A) :
  (forall i x s, In x l -> f (i, x) s = g x s) ->
  forall (i : nat) (s : S), mapM f (JS.indexed_from i l) s = mapM g l s.
Proof.
  induction l as [| x rest IH]; intros H i s; simpl; [reflexivity |].
  apply bind_cong; [apply H; left; reflexivity |]. intros y s1.
  apply bind_cong; [| reflexivity].
  apply IH. intros j z s2 Hz. apply H. right. exact Hz.
Qed.

Lemma foldM_ext_in {S A B : Type} (f g : B -> A -> M S B) (l : list A) :
  (forall b x s, In x l -> f b x s = g b x s) ->
  forall (b : B) (s : S), foldM f l b s = foldM g l b s.
Proof.
  induction l as [| x rest IH]; intros H b s; simpl; [reflexivity |].
  apply bind_cong; [apply H; left; reflexivity |]. intros b' s1.
  apply IH. intros b'' z s2 Hz. apply H. right. exact Hz.
Qed.

Lemma legacy_field (r : ref) (fields : list (string * jsval)) (k : string) (x : jsval) :
  legacy (JObj r fields) -> In (k, x) fields -> legacy x.
Proof.
  intros H Hin. inversion H as [| | | | | | r' fs _ Hall]; subst.
  rewrite List.Forall_forall in Hall. exact (Hall (k, x) Hin).
Qed.

Lemma legacy_get_prop (k : string) (o : jsval) : legacy o -> legacy (JS.get_prop k o).
Proof.
  intros H. destruct o as [| | b | x | s | r items | r fields]; simpl; try constructor.
  destruct (JS.lookup_field k fields) as [x |] eqn:E; [| constructor].
  destruct (lookup_field_In _ _ _ E) as [k' Hin]. exact (legacy_field _ _ _ _ H Hin).
Qed.

Lemma legacy_entry (o : jsval) (k : string) (x : jsval) :
  legacy o -> In (k, x) (JS.entries o) -> legacy x.
Proof.
  intros H Hin. destruct o as [| | b | n | s | r items | r fields]; simpl in Hin;
    try contradiction.
  - apply in_map_iff in Hin as [[i y] [Heq Hin]]. injection Heq as _ ->.
    apply indexed_from_In in Hin.
    inversion H as [| | | | | r' its Hall |]; subst.
    rewrite List.Forall_forall in Hall. exact (Hall x Hin).
  - exact (legacy_field _ _ _ _ H Hin).
Qed.

Lemma legacy_item (v x : jsval) : legacy v -> In x (JS.items_of v) -> legacy x.
Proof.
  intros H Hin. destruct v as [| | b | n | s | r items | r fields]; simpl in Hin;
    try contradiction.
  inversion H as [| | | | | r' its Hall |]; subst.
  rewrite List.Forall_forall in Hall. exact (Hall x Hin).
Qed.

Section SameAsLegacy.

Variable n : nat.
Hypothesis IH :
  forall (e : jsval) (c : gmap string jsval) (q : string) (s : coverage),
    legacy e -> Coverage.tryEvaluate n e c false q s = Legacy.tryEvaluate n e c s.

Lemma reduce_let_in_same (r : ref) (fields : list (string * jsval)) (key : string)
    (keys : list string) (context : gmap string jsval) (p : string) (s : coverage) :
  legacy (JObj r fields) ->
  Coverage.reduce_let_in (Coverage.tryEvaluate n) (JObj r fields) key keys context false p s
  = Legacy.reduce_let_in (Legacy.tryEvaluate n) (JObj r fields) key keys context s.
Proof.
  intros H. unfold Coverage.reduce_let_in, Legacy.reduce_let_in.
  destruct (JS.includes "let" keys && JS.includes "in" keys); [| reflexivity].
  pose proof (legacy_get_prop "let" _ H) as Hlet.
  pose proof (legacy_get_prop "in" _ H) as Hin.
  apply bind_cong.
  - destruct (JS.typeof_object (JS.get_prop "let" (JObj r fields))
              && negb (JS.isArray (JS.get_prop "let" (JObj r fields))));
      [| reflexivity].
    unfold bind.
    destruct (Coverage.object_entries (JS.get_prop "let" (JObj r fields)) s)
      as [[bindings | e |] s1] eqn:E; try reflexivity.
    apply object_entries_ret in E. subst bindings.
    apply foldM_ext_in. intros b [k x] s2 Hx. simpl.
    apply bind_cong; [| reflexivity]. apply IH. exact (legacy_entry _ _ _ Hlet Hx).
  - intros newContext s1. apply IH. exact Hin.
Qed.

Lemma reduce_same (expr : jsval) (context : gmap string jsval) (p : string)
    (s : coverage) :
  legacy expr ->
  Coverage.reduce (Coverage.tryEvaluate n) expr context false p s
  = Legacy.reduce (Legacy.tryEvaluate n) expr context s.
Proof.
  intros H. destruct expr as [| | b | x | str | r items | r fields]; try reflexivity.
  - unfold Coverage.reduce, Legacy.reduce.
    apply bind_cong; [reflexivity |]. intros r' s1.
    apply bind_cong; [| reflexivity].
    unfold JS.indexed. apply mapM_indexed. intros i x s2 Hx. simpl.
    apply IH. exact (legacy_item (JArr r items) x H Hx).
  - unfold Coverage.reduce, Legacy.reduce.
    destruct fields as [| [key value] others] eqn:Hf; [reflexivity |].
    rewrite <- Hf in *.
    assert (Hv : legacy value).
    { apply (legacy_field r fields key value H). rewrite Hf. left. reflexivity. }
    assert (Hshape : no_new_case fields).
    { inversion H; assumption. }
    destruct Hshape as [Hif Heq]. rewrite Hf in Heq.
    destruct (String.eqb key "get" && JS.typeof_string value); [reflexivity |].
    destruct (String.eqb key "concat" && JS.isArray value).
    { apply bind_cong; [| reflexivity].
      unfold JS.indexed. apply mapM_indexed. intros i x s2 Hx. simpl.
      apply IH. exact (legacy_item value x Hv Hx). }
    destruct (String.eqb key "uppercase").
    { apply bind_cong; [apply IH; exact Hv | reflexivity]. }
    destruct (String.eqb key "lowercase").
    { apply bind_cong; [apply IH; exact Hv | reflexivity]. }
    rewrite Hif. unfold Coverage.reduce_equals. rewrite Heq.
    apply reduce_let_in_same. exact H.
Qed.

End SameAsLegacy.

(** X27.  Called without a tracker, the coverage-recording [tryEvaluate]
    does what the earlier [tryEvaluate] did, value and state, on every
    expression in which no mapping has an [if] key beside [then] or [else]
    and none is an [equals] with an object payload: the two cases it
    added. *)
Theorem tryEvaluate_extends_legacy :
  forall (fuel : nat) (expr : jsval) (context : gmap string jsval)
         (pathPrefix : string) (s : coverage),
    legacy expr ->
    Coverage.tryEvaluate fuel expr context false pathPrefix s
    = Legacy.tryEvaluate fuel expr context s.
Proof.
  intros fuel. induction fuel as [| n IH]; intros expr context pathPrefix s H.
  - reflexivity.
  - change (Coverage.tryEvaluate (S n) expr context false pathPrefix s)
      with (try_catch (Coverage.reduce (Coverage.tryEvaluate n) expr context false
                         pathPrefix) (JStr "<error>") s).
    simpl. unfold try_catch. rewrite (reduce_same n IH expr context pathPrefix s H).
    reflexivity.
Qed.

Lemma tryEvaluate_extends_legacy_witness :
  Coverage.tryEvaluate 4
    (JObj 1 [("let", JObj 2 [("a", JStr "x")]);
             ("in", JObj 3 [("uppercase", JObj 4 [("get", JStr "a")])])])
    ∅ false "root" Examples.new_tracker
  = Legacy.tryEvaluate 4
      (JObj 1 [("let", JObj 2 [("a", JStr "x")]);
               ("in", JObj 3 [("uppercase", JObj 4 [("get", JStr "a")])])])
      ∅ Examples.new_tracker.
Proof.
  apply (tryEvaluate_extends_legacy 4).
  repeat (constructor; simpl; try reflexivity).
Defined.
